(** * ads_py: doubly linked-list stack (dlls.py) and binary search tree (bst.py)

    A shallow embedding of the two classes [DLLS] and [BST].  Python objects
    live in a store: a [Node] is addressed by its index in the list of
    allocated nodes, a reference is an [option ptr] ([None] is Python's
    [None]), and every method receives the object state and returns the new
    one.  Loops and recursive methods take a [fuel] bound; running out of it
    is reported as the outcome [Raise OutOfFuel]. *)

From stdpp Require Import base option list sets strings sorting.
From Stdlib Require Import ZArith Lia.

#[local] Set Warnings "-clear-no-such-hyp".

(** ** Outcomes of a call *)

(** The exceptions a call can end with.  [OutOfFuel] and [DanglingRef] do not
    exist in Python: the first stands for a loop that was cut off, the second
    for a reference to an object that was never allocated. *)
Inductive exn : Type :=
  | TypeError
  | ValueError
  | AttributeError
  | OutOfFuel
  | DanglingRef.

Inductive result (A : Type) : Type :=
  | Ok (a : A)
  | Raise (e : exn).
Arguments Ok {A} a.
Arguments Raise {A} e.

(** A call that raises ends the method it occurs in. *)
Global Instance result_ret : MRet result := λ A, Ok.
Global Instance result_bind : MBind result := λ A B f r,
  match r with
  | Ok a => f a
  | Raise e => Raise e
  end.

(** The values a caller may pass as [mode]. *)
Inductive PyValue : Type :=
  | PyStr (s : string)
  | PyInt (z : Z)
  | PyNone.

(** [isinstance(v, str)] *)
Definition isinstance_str (v : PyValue) : bool :=
  match v with PyStr _ => true | _ => false end.

(** [v == s] for a string literal [s] *)
Definition py_eq_str (v : PyValue) (s : string) : bool :=
  match v with PyStr s' => bool_decide (s' = s) | _ => false end.

(** References are indices into the store. *)
Abbreviation ptr := nat (only parsing).

(** A numeric comparator, as a caller would supply it. *)
Definition numeric_cmp (v1 v2 : Z) : Z :=
  (if v1 <? v2 then -1 else if v1 =? v2 then 0 else 1)%Z.

(** ** dlls.py *)

Module DLLS.

(** [DLLS.CMPValues] *)
Module CMPValues.
Definition LESS : Z := (-1)%Z.
Definition EQUAL : Z := 0%Z.
Definition GREATER : Z := 1%Z.
End CMPValues.

Section DLLS.
Context {K : Type}.

(** [DLLS.Node]: [Node k] has no neighbours. *)
Record Node : Type := mkNode {
  key : K;
  next : option ptr;
  prev : option ptr
}.

Definition Node_init (k : K) : Node := mkNode k None None.

(** The object state of a [DLLS] together with the nodes allocated so far. *)
Record t : Type := mk {
  cmp_fn : K → K → Z;
  nodes : list Node;
  head : option ptr;
  tail : option ptr
}.

(** [DLLS.__init__] *)
Definition init (cmp : K → K → Z) : t := mk cmp [] None None.

Definition with_nodes (self : t) (ns : list Node) : t :=
  mk (cmp_fn self) ns (head self) (tail self).

(** [DLLS.Node(k)]: the new object is the next free index of the store. *)
Definition alloc (self : t) (k : K) : ptr * t :=
  (length (nodes self), with_nodes self (nodes self ++ [Node_init k])).

(** The setters; their [isinstance] checks always pass for a reference. *)
Definition set_next (p : ptr) (v : option ptr) (self : t) : t :=
  with_nodes self (alter (λ n, mkNode (key n) v (prev n)) p (nodes self)).

Definition set_prev (p : ptr) (v : option ptr) (self : t) : t :=
  with_nodes self (alter (λ n, mkNode (key n) (next n) v) p (nodes self)).

Definition set_head (v : option ptr) (self : t) : t :=
  mk (cmp_fn self) (nodes self) v (tail self).

Definition set_tail (v : option ptr) (self : t) : t :=
  mk (cmp_fn self) (nodes self) (head self) v.

(** [DLLS.is_empty] *)
Definition is_empty (self : t) : bool :=
  bool_decide (head self = None) && bool_decide (tail self = None).

(** [DLLS.push] *)
Definition push (self : t) (new_key : K) : option ptr * t :=
  let '(new_tail, self) := alloc self new_key in
  let self := set_next new_tail None self in
  let self := set_prev new_tail (tail self) self in
  let self :=
    match tail self with
    | None => set_tail (Some new_tail) (set_head (Some new_tail) self)
    | Some old => set_tail (Some new_tail) (set_next old (Some new_tail) self)
    end in
  (tail self, self).

(** [DLLS.pop] *)
Definition pop (self : t) : result (option ptr) * t :=
  if is_empty self then (Ok None, self)
  else
    match tail self with
    | None => (Raise AttributeError, self)
    | Some old_tail =>
        match nodes self !! old_tail with
        | None => (Raise DanglingRef, self)
        | Some n =>
            let self := set_tail (prev n) self in
            let self :=
              match tail self with
              | None => set_head None self
              | Some new_tail => set_next new_tail None self
              end in
            (Ok (tail self), self)
        end
    end.

(** The loop of [DLLS.__iterative_search], started at [curr]. *)
Fixpoint iterative_search_loop (fuel : nat) (self : t) (target_key : K)
    (curr : option ptr) : result (option ptr) :=
  match curr with
  | None => Ok None
  | Some c =>
      match fuel with
      | O => Raise OutOfFuel
      | S fuel =>
          match nodes self !! c with
          | None => Raise DanglingRef
          | Some n =>
              if (cmp_fn self (key n) target_key =? CMPValues.EQUAL)%Z
              then Ok (Some c)
              else iterative_search_loop fuel self target_key (next n)
          end
      end
  end.

(** [DLLS.__iterative_search] *)
Definition iterative_search (fuel : nat) (self : t) (target_key : K)
    : result (option ptr) :=
  iterative_search_loop fuel self target_key (head self).

(** [DLLS.__recursive_search] *)
Fixpoint recursive_search (fuel : nat) (self : t) (target_key : K)
    (self_head : option ptr) : result (option ptr) :=
  match self_head with
  | None => Ok None
  | Some h =>
      match fuel with
      | O => Raise OutOfFuel
      | S fuel =>
          match nodes self !! h with
          | None => Raise DanglingRef
          | Some n =>
              if (cmp_fn self (key n) target_key =? CMPValues.EQUAL)%Z
              then Ok (Some h)
              else recursive_search fuel self target_key (next n)
          end
      end
  end.

(** [DLLS.search] *)
Definition search (fuel : nat) (self : t) (target_key : K) (mode : PyValue)
    : result (option ptr) :=
  if negb (isinstance_str mode) then Raise TypeError
  else if py_eq_str mode "i" then iterative_search fuel self target_key
  else if py_eq_str mode "r" then
    recursive_search fuel self target_key (head self)
  else Raise ValueError.

(** The key stored in the node a reference points to. *)
Definition key_of (self : t) (o : option ptr) : option K :=
  p ← o; key <$> nodes self !! p.

(** *** The list a state represents *)

Definition first_or (ps : list ptr) (d : option ptr) : option ptr :=
  match ps with [] => d | p :: _ => Some p end.

Definition last_or (ps : list ptr) (d : option ptr) : option ptr :=
  match last ps with None => d | Some p => Some p end.

(** [dseg h pv ps nx]: in the store [h] the nodes [ps] are linked in this
    order, the first one's [prev] is [pv] and the last one's [next] is
    [nx]. *)
Fixpoint dseg (h : list Node) (pv : option ptr) (ps : list ptr)
    (nx : option ptr) : Prop :=
  match ps with
  | [] => True
  | p :: rest =>
      ∃ n, h !! p = Some n ∧ prev n = pv ∧ next n = first_or rest nx ∧
           dseg h (Some p) rest nx
  end.

(** [ps] is the sequence of nodes of [self], from [head] to [tail]. *)
Definition represents (self : t) (ps : list ptr) : Prop :=
  head self = first_or ps None ∧ tail self = last ps ∧
  dseg (nodes self) None ps None ∧ NoDup ps.

(** The states a caller can bring a stack into. *)
Inductive reachable : t → Prop :=
  | reachable_init cmp : reachable (init cmp)
  | reachable_push self k : reachable self → reachable (push self k).2
  | reachable_pop self : reachable self → reachable (pop self).2.

(** The nodes of the list: those met when following [next] from [head]. *)
Inductive in_list (self : t) : ptr → Prop :=
  | in_list_head p : head self = Some p → in_list self p
  | in_list_next a na b :
      in_list self a → nodes self !! a = Some na → next na = Some b →
      in_list self b.

Definition linkage_invariant (self : t) : Prop :=
  (head self = None ↔ tail self = None) ∧
  (∀ p, head self = Some p →
        ∃ n, nodes self !! p = Some n ∧ prev n = None) ∧
  (∀ p, tail self = Some p →
        ∃ n, nodes self !! p = Some n ∧ next n = None) ∧
  (∀ a b na nb,
      in_list self a → in_list self b →
      nodes self !! a = Some na → nodes self !! b = Some nb →
      (next na = Some b ↔ prev nb = Some a)).

(** The first node of [ps] whose key the comparator reports EQUAL to
    [target_key]. *)
Definition matches (self : t) (target_key : K) (p : ptr) : bool :=
  match nodes self !! p with
  | Some n => (cmp_fn self (key n) target_key =? CMPValues.EQUAL)%Z
  | None => false
  end.

Definition first_match (self : t) (target_key : K) (ps : list ptr)
    : option ptr :=
  List.find (matches self target_key) ps.

(** [n] calls of [pop] in a row: for each call the key of the node it
    returned ([None] when it returned [None]). *)
Fixpoint pop_keys (n : nat) (self : t) : list (result (option K)) :=
  match n with
  | O => []
  | S n =>
      let '(r, self) := pop self in
      match r with
      | Ok o => Ok (key_of self o) :: pop_keys n self
      | Raise e => Raise e :: pop_keys n self
      end
  end.

(** The keys [ks] pushed one after the other. *)
Definition push_all (self : t) (ks : list K) : t :=
  foldl (λ self k, (push self k).2) self ks.

(** [n] calls of [pop] in a row: the state they leave. *)
Fixpoint pop_all (n : nat) (self : t) : t :=
  match n with
  | O => self
  | S n => pop_all n (pop self).2
  end.

End DLLS.

Arguments Node : clear implicits.
Arguments t : clear implicits.

End DLLS.

(** ** bst.py *)

Module BST.

(** [BST.CMPValues] *)
Module CMPValues.
Definition LESS : Z := (-1)%Z.
Definition EQUAL : Z := 0%Z.
Definition GREATER : Z := 1%Z.
End CMPValues.

Section BST.
Context {K : Type}.

(** [BST.Node]: [Node k] has no parent and no children. *)
Record Node : Type := mkNode {
  key : K;
  parent : option ptr;
  left_child : option ptr;
  right_child : option ptr
}.

Definition Node_init (k : K) : Node := mkNode k None None None.

(** The object state of a [BST] together with the nodes allocated so far. *)
Record t : Type := mk {
  cmp_fn : K → K → Z;
  nodes : list Node;
  root : option ptr
}.

(** [BST.__init__] *)
Definition init (cmp : K → K → Z) : t := mk cmp [] None.

Definition with_nodes (self : t) (ns : list Node) : t :=
  mk (cmp_fn self) ns (root self).

(** [BST.Node(k)]: the new object is the next free index of the store. *)
Definition alloc (self : t) (k : K) : ptr * t :=
  (length (nodes self), with_nodes self (nodes self ++ [Node_init k])).

(** The setters; their [isinstance] checks always pass for a reference. *)
Definition set_parent (p : ptr) (v : option ptr) (self : t) : t :=
  with_nodes self
    (alter (λ n, mkNode (key n) v (left_child n) (right_child n)) p
       (nodes self)).

Definition set_left_child (p : ptr) (v : option ptr) (self : t) : t :=
  with_nodes self
    (alter (λ n, mkNode (key n) (parent n) v (right_child n)) p (nodes self)).

Definition set_right_child (p : ptr) (v : option ptr) (self : t) : t :=
  with_nodes self
    (alter (λ n, mkNode (key n) (parent n) (left_child n) v) p (nodes self)).

Definition set_root (v : option ptr) (self : t) : t :=
  mk (cmp_fn self) (nodes self) v.

(** The [while (curr)] loop of [BST.__iterative_insert]; its result is the
    final value of [prev]. *)
Fixpoint iterative_insert_loop (fuel : nat) (self : t) (new_node : ptr)
    (prev curr : option ptr) : result (option ptr) :=
  match curr with
  | None => Ok prev
  | Some c =>
      match fuel with
      | O => Raise OutOfFuel
      | S fuel =>
          match nodes self !! new_node, nodes self !! c with
          | Some nn, Some cn =>
              if (cmp_fn self (key nn) (key cn) =? CMPValues.LESS)%Z
              then iterative_insert_loop fuel self new_node (Some c)
                     (left_child cn)
              else iterative_insert_loop fuel self new_node (Some c)
                     (right_child cn)
          | _, _ => Raise DanglingRef
          end
      end
  end.

(** [BST.__iterative_insert] *)
Definition iterative_insert (fuel : nat) (self : t) (new_node : ptr)
    : result ptr * t :=
  match iterative_insert_loop fuel self new_node None (root self) with
  | Raise e => (Raise e, self)
  | Ok prev =>
      let self := set_parent new_node prev self in
      match prev with
      | None => (Ok new_node, set_root (Some new_node) self)
      | Some p =>
          match nodes self !! new_node, nodes self !! p with
          | Some nn, Some pn =>
              if (cmp_fn self (key nn) (key pn) =? CMPValues.LESS)%Z
              then (Ok new_node, set_left_child p (Some new_node) self)
              else (Ok new_node, set_right_child p (Some new_node) self)
          | _, _ => (Raise DanglingRef, self)
          end
      end
  end.

(** [BST.__recursive_insert] *)
Fixpoint recursive_insert (fuel : nat) (self : t) (new_node : ptr)
    (root root_parent : option ptr) : result ptr * t :=
  match root with
  | None => (Ok new_node, set_parent new_node root_parent self)
  | Some r =>
      match fuel with
      | O => (Raise OutOfFuel, self)
      | S fuel =>
          match nodes self !! new_node, nodes self !! r with
          | Some nn, Some rn =>
              if (cmp_fn self (key nn) (key rn) =? CMPValues.LESS)%Z
              then
                match recursive_insert fuel self new_node (left_child rn)
                        (Some r) with
                | (Ok x, self) => (Ok r, set_left_child r (Some x) self)
                | (Raise e, self) => (Raise e, self)
                end
              else
                match recursive_insert fuel self new_node (right_child rn)
                        (Some r) with
                | (Ok x, self) => (Ok r, set_right_child r (Some x) self)
                | (Raise e, self) => (Raise e, self)
                end
          | _, _ => (Raise DanglingRef, self)
          end
      end
  end.

(** [BST.insert_node] *)
Definition insert_node (fuel : nat) (self : t) (new_key : K) (mode : PyValue)
    : result ptr * t :=
  let '(new_node, self) := alloc self new_key in
  if negb (isinstance_str mode) then (Raise TypeError, self)
  else if py_eq_str mode "i" then iterative_insert fuel self new_node
  else if py_eq_str mode "r" then
    match recursive_insert fuel self new_node (root self) None with
    | (Ok r, self) => (Ok new_node, set_root (Some r) self)
    | (Raise e, self) => (Raise e, self)
    end
  else (Raise ValueError, self).

(** The loop of [BST.min_node]. *)
Fixpoint min_node_loop (fuel : nat) (self : t) (curr_node : ptr)
    : result ptr :=
  match nodes self !! curr_node with
  | None => Raise DanglingRef
  | Some n =>
      match left_child n with
      | None => Ok curr_node
      | Some l =>
          match fuel with
          | O => Raise OutOfFuel
          | S fuel => min_node_loop fuel self l
          end
      end
  end.

(** [BST.min_node] *)
Definition min_node (fuel : nat) (self : t) (root : option ptr)
    : result ptr :=
  match root with
  | None => Raise TypeError
  | Some r => min_node_loop fuel self r
  end.

(** The loop of [BST.max_node]. *)
Fixpoint max_node_loop (fuel : nat) (self : t) (curr_node : ptr)
    : result ptr :=
  match nodes self !! curr_node with
  | None => Raise DanglingRef
  | Some n =>
      match right_child n with
      | None => Ok curr_node
      | Some r =>
          match fuel with
          | O => Raise OutOfFuel
          | S fuel => max_node_loop fuel self r
          end
      end
  end.

(** [BST.max_node] *)
Definition max_node (fuel : nat) (self : t) (root : option ptr)
    : result ptr :=
  match root with
  | None => Raise TypeError
  | Some r => max_node_loop fuel self r
  end.

(** The upward loop of [BST.predecessor_node]. *)
Fixpoint predecessor_loop (fuel : nat) (self : t) (node : ptr)
    (predecessor : option ptr) : result (option ptr) :=
  match predecessor with
  | None => Ok None
  | Some q =>
      match nodes self !! q with
      | None => Raise DanglingRef
      | Some qn =>
          if bool_decide (left_child qn = Some node) then
            match fuel with
            | O => Raise OutOfFuel
            | S fuel => predecessor_loop fuel self q (parent qn)
            end
          else Ok (Some q)
      end
  end.

(** [BST.predecessor_node] *)
Definition predecessor_node (fuel : nat) (self : t) (node : option ptr)
    : result (option ptr) :=
  match node with
  | None => Raise TypeError
  | Some p =>
      match nodes self !! p with
      | None => Raise DanglingRef
      | Some n =>
          match left_child n with
          | Some l =>
              match max_node fuel self (Some l) with
              | Ok m => Ok (Some m)
              | Raise e => Raise e
              end
          | None => predecessor_loop fuel self p (parent n)
          end
      end
  end.

(** The upward loop of [BST.successor_node]. *)
Fixpoint successor_loop (fuel : nat) (self : t) (node : ptr)
    (successor : option ptr) : result (option ptr) :=
  match successor with
  | None => Ok None
  | Some q =>
      match nodes self !! q with
      | None => Raise DanglingRef
      | Some qn =>
          if bool_decide (right_child qn = Some node) then
            match fuel with
            | O => Raise OutOfFuel
            | S fuel => successor_loop fuel self q (parent qn)
            end
          else Ok (Some q)
      end
  end.

(** [BST.successor_node] *)
Definition successor_node (fuel : nat) (self : t) (node : option ptr)
    : result (option ptr) :=
  match node with
  | None => Raise TypeError
  | Some p =>
      match nodes self !! p with
      | None => Raise DanglingRef
      | Some n =>
          match right_child n with
          | Some r =>
              match min_node fuel self (Some r) with
              | Ok m => Ok (Some m)
              | Raise e => Raise e
              end
          | None => successor_loop fuel self p (parent n)
          end
      end
  end.

(** Reading a field of the object [p] starts with finding the object. *)
Definition get (self : t) (p : ptr) : result Node :=
  match nodes self !! p with
  | Some n => Ok n
  | None => Raise DanglingRef
  end.

(** [BST.__transplant_node] *)
Definition transplant_node (self : t) (node1 : ptr) (node2 : option ptr)
    : result t :=
  n1 ← get self node1;
  self ← match parent n1 with
         | None => Ok (set_root node2 self)
         | Some p =>
             pn ← get self p;
             if bool_decide (left_child pn = Some node1)
             then Ok (set_left_child p node2 self)
             else Ok (set_right_child p node2 self)
         end;
  match node2 with
  | Some n2 => n1 ← get self node1; Ok (set_parent n2 (parent n1) self)
  | None => Ok self
  end.

(** [BST.delete_node]; [x.f.g = v] reads [x.f] in the state the statement
    runs in, and raises [AttributeError] when it is [None]. *)
Definition delete_node (fuel : nat) (self : t) (node : option ptr)
    : result t :=
  match node with
  | None => Raise TypeError
  | Some nd =>
      n ← get self nd;
      match left_child n with
      | None => transplant_node self nd (right_child n)
      | Some _ =>
          match right_child n with
          | None => transplant_node self nd (left_child n)
          | Some r =>
              min_node ← min_node fuel self (Some r);
              mn ← get self min_node;
              self ←
                (if bool_decide (parent mn ≠ Some nd) then
                   self ← transplant_node self min_node (right_child mn);
                   n ← get self nd;
                   let self := set_right_child min_node (right_child n) self in
                   mn ← get self min_node;
                   match right_child mn with
                   | None => Raise AttributeError
                   | Some rc => Ok (set_parent rc (Some min_node) self)
                   end
                 else Ok self);
              self ← transplant_node self nd (Some min_node);
              n ← get self nd;
              let self := set_left_child min_node (left_child n) self in
              mn ← get self min_node;
              match left_child mn with
              | None => Raise AttributeError
              | Some lc => Ok (set_parent lc (Some min_node) self)
              end
          end
      end
  end.

(** The loop of [BST.__iterative_search], started at [root]. *)
Fixpoint iterative_search_loop (fuel : nat) (self : t) (target_key : K)
    (root : option ptr) : result (option ptr) :=
  match root with
  | None => Ok None
  | Some r =>
      match fuel with
      | O => Raise OutOfFuel
      | S fuel =>
          match nodes self !! r with
          | None => Raise DanglingRef
          | Some n =>
              if (cmp_fn self target_key (key n) =? CMPValues.LESS)%Z
              then iterative_search_loop fuel self target_key (left_child n)
              else if (cmp_fn self target_key (key n) =? CMPValues.GREATER)%Z
              then iterative_search_loop fuel self target_key (right_child n)
              else Ok (Some r)
          end
      end
  end.

(** [BST.__iterative_search] *)
Definition iterative_search (fuel : nat) (self : t) (target_key : K)
    : result (option ptr) :=
  iterative_search_loop fuel self target_key (root self).

(** [BST.__recursive_search]; the second test compares [root.key] with
    itself, as the source does. *)
Fixpoint recursive_search (fuel : nat) (self : t) (root : option ptr)
    (target_key : K) : result (option ptr) :=
  match root with
  | None => Ok None
  | Some r =>
      match fuel with
      | O => Raise OutOfFuel
      | S fuel =>
          match nodes self !! r with
          | None => Raise DanglingRef
          | Some n =>
              if (cmp_fn self (key n) target_key =? CMPValues.EQUAL)%Z
              then Ok (Some r)
              else if (cmp_fn self (key n) (key n) =? CMPValues.GREATER)%Z
              then recursive_search fuel self (right_child n) target_key
              else recursive_search fuel self (left_child n) target_key
          end
      end
  end.

(** [BST.search] *)
Definition search (fuel : nat) (self : t) (target_key : K) (mode : PyValue)
    : result (option ptr) :=
  if negb (isinstance_str mode) then Raise TypeError
  else if py_eq_str mode "i" then iterative_search fuel self target_key
  else if py_eq_str mode "r" then
    recursive_search fuel self (root self) target_key
  else Raise ValueError.

(** *** Traversals

    A call of a callback is recorded as the pair of the callback and the key
    it received; a walk returns the calls it made, in order.  [print] is the
    default value of the parameter [operation]: a recursive call that does
    not pass [operation] runs with it. *)
Section Walks.
Context {Callback : Type} (print : Callback).

(** [BST.inorder_walk] *)
Fixpoint inorder_walk (fuel : nat) (self : t) (root : option ptr)
    (operation : Callback) : result (list (Callback * K)) :=
  match root with
  | None => Ok []
  | Some r =>
      match fuel with
      | O => Raise OutOfFuel
      | S fuel =>
          match nodes self !! r with
          | None => Raise DanglingRef
          | Some n =>
              match inorder_walk fuel self (left_child n) print with
              | Raise e => Raise e
              | Ok calls_l =>
                  match inorder_walk fuel self (right_child n) print with
                  | Raise e => Raise e
                  | Ok calls_r =>
                      Ok (calls_l ++ [(operation, key n)] ++ calls_r)
                  end
              end
          end
      end
  end.

(** [BST.preorder_walk] *)
Fixpoint preorder_walk (fuel : nat) (self : t) (root : option ptr)
    (operation : Callback) : result (list (Callback * K)) :=
  match root with
  | None => Ok []
  | Some r =>
      match fuel with
      | O => Raise OutOfFuel
      | S fuel =>
          match nodes self !! r with
          | None => Raise DanglingRef
          | Some n =>
              match preorder_walk fuel self (left_child n) print with
              | Raise e => Raise e
              | Ok calls_l =>
                  match preorder_walk fuel self (right_child n) print with
                  | Raise e => Raise e
                  | Ok calls_r =>
                      Ok ([(operation, key n)] ++ calls_l ++ calls_r)
                  end
              end
          end
      end
  end.

(** [BST.postorder_walk] *)
Fixpoint postorder_walk (fuel : nat) (self : t) (root : option ptr)
    (operation : Callback) : result (list (Callback * K)) :=
  match root with
  | None => Ok []
  | Some r =>
      match fuel with
      | O => Raise OutOfFuel
      | S fuel =>
          match nodes self !! r with
          | None => Raise DanglingRef
          | Some n =>
              match postorder_walk fuel self (left_child n) print with
              | Raise e => Raise e
              | Ok calls_l =>
                  match postorder_walk fuel self (right_child n) print with
                  | Raise e => Raise e
                  | Ok calls_r =>
                      Ok (calls_l ++ calls_r ++ [(operation, key n)])
                  end
              end
          end
      end
  end.

(** The call [c] is a call of the default callback with the key of the
    node [x]. *)
Definition default_call (self : t) (c : Callback * K) (x : ptr) : Prop :=
  c.1 = print ∧ key <$> nodes self !! x = Some c.2.

End Walks.

(** The key stored in the node a reference points to. *)
Definition key_of (self : t) (o : option ptr) : option K :=
  p ← o; key <$> nodes self !! p.

(** The keys [ks] inserted one after the other, all with the same [mode];
    the first call that raises ends the run. *)
Fixpoint insert_all (fuel : nat) (mode : PyValue) (self : t) (ks : list K)
    : result t :=
  match ks with
  | [] => Ok self
  | k :: ks =>
      match insert_node fuel self k mode with
      | (Ok _, self) => insert_all fuel mode self ks
      | (Raise e, _) => Raise e
      end
  end.

(** What [iterative_insert] does once its loop has stopped below [q]: steps
    4B and 4C. *)
Definition attach (self : t) (new_node q : ptr) : result ptr * t :=
  match nodes self !! new_node, nodes self !! q with
  | Some nn, Some pn =>
      if (cmp_fn self (key nn) (key pn) =? CMPValues.LESS)%Z
      then (Ok new_node, set_left_child q (Some new_node) self)
      else (Ok new_node, set_right_child q (Some new_node) self)
  | _, _ => (Raise DanglingRef, self)
  end.

(** The first half of [__transplant_node]: the slot that holds [node1], the
    root or a child of [par], receives [node2]. *)
Definition replace_child (q node1 : ptr) (node2 : option ptr) (self : t) : t :=
  match nodes self !! q with
  | Some qn =>
      if bool_decide (left_child qn = Some node1)
      then set_left_child q node2 self
      else set_right_child q node2 self
  | None => self
  end.

Definition relink (par : option ptr) (node1 : ptr) (node2 : option ptr)
    (self : t) : t :=
  match par with
  | None => set_root node2 self
  | Some q => replace_child q node1 node2 self
  end.

(** Its second half: [node2], when there is one, receives the parent. *)
Definition set_parent_opt (o v : option ptr) (self : t) : t :=
  match o with
  | Some p => set_parent p v self
  | None => self
  end.

(** [self'] has the root, the comparator and every node of [self],
    unchanged. *)
Definition same_structure (self self' : t) : Prop :=
  root self' = root self ∧ cmp_fn self' = cmp_fn self ∧
  ∀ p, p < length (nodes self) → nodes self' !! p = nodes self !! p.

(** *** The tree a state represents *)

(** The shape of a tree of nodes: which node sits where. *)
Inductive tree : Type :=
  | Leaf
  | Br (l : tree) (p : ptr) (r : tree).

Fixpoint ptrs (tr : tree) : list ptr :=
  match tr with
  | Leaf => []
  | Br l p r => ptrs l ++ p :: ptrs r
  end.

Definition root_of (tr : tree) : option ptr :=
  match tr with Leaf => None | Br _ p _ => Some p end.

(** [rep h par tr]: in the store [h] the nodes of [tr] are linked as [tr]
    says, children and parents alike; [par] is the parent of its root. *)
Fixpoint rep (h : list Node) (par : option ptr) (tr : tree) : Prop :=
  match tr with
  | Leaf => True
  | Br l p r =>
      ∃ n, h !! p = Some n ∧ parent n = par ∧
           left_child n = root_of l ∧ right_child n = root_of r ∧
           rep h (Some p) l ∧ rep h (Some p) r
  end.

(** [tr] is the tree of [self]: it hangs from [root] and no node occurs in it
    twice. *)
Definition represents (self : t) (tr : tree) : Prop :=
  root self = root_of tr ∧ rep (nodes self) None tr ∧ NoDup (ptrs tr).

(** What [delete_node] does to a state, seen from a subtree [tr] that holds
    the deleted node and hangs below [par]: the subtree has become [tr'], no
    node outside of it has changed but [par], and in [par] (in [root] when
    there is no parent) the slot that held the root of [tr] holds the root of
    [tr']. *)
Definition slot_updated (self self' : t) (par : option ptr) (p : ptr)
    (o' : option ptr) : Prop :=
  match par with
  | None => root self' = o'
  | Some q =>
      root self' = root self ∧
      nodes self' !! q = nodes (replace_child q p o' self) !! q
  end.

Definition deleted_below (self self' : t) (par : option ptr)
    (tr tr' : tree) : Prop :=
  rep (nodes self') par tr' ∧
  (∀ x, x ∉ ptrs tr → par ≠ Some x → nodes self' !! x = nodes self !! x) ∧
  (∀ p, root_of tr = Some p → slot_updated self self' par p (root_of tr')) ∧
  cmp_fn self' = cmp_fn self ∧ length (nodes self') = length (nodes self).

(** The slot a subtree [tr] hangs from: [root] when it has no parent, a
    child field of the parent [q], a node outside of [tr], otherwise. *)
Definition slot_holds (self : t) (par : option ptr) (tr : tree) : Prop :=
  match par with
  | None => root self = root_of tr
  | Some q =>
      (q ∉ ptrs tr) ∧
      ∃ qn, nodes self !! q = Some qn ∧
            (left_child qn = root_of tr ∨ right_child qn = root_of tr)
  end.

(** [in_subtree self o p]: the node [p] is met when descending from the
    reference [o] along child links. *)
Inductive in_subtree (self : t) : option ptr → ptr → Prop :=
  | in_subtree_here p : in_subtree self (Some p) p
  | in_subtree_left a an p :
      nodes self !! a = Some an → in_subtree self (left_child an) p →
      in_subtree self (Some a) p
  | in_subtree_right a an p :
      nodes self !! a = Some an → in_subtree self (right_child an) p →
      in_subtree self (Some a) p.

(** The setter of [cmp_fn], for a callable. *)
Definition set_cmp_fn (cmp : K → K → Z) (self : t) : t :=
  mk cmp (nodes self) (root self).

(** The states a caller can bring a tree into: by insertions in either
    mode, by deletions of nodes of the tree and by changes of the
    comparator. *)
Inductive reachable : t → Prop :=
  | reachable_init cmp : reachable (init cmp)
  | reachable_insert fuel self k mode new self' :
      reachable self → insert_node fuel self k mode = (Ok new, self') →
      reachable self'
  | reachable_delete fuel self n self' :
      reachable self → in_subtree self (root self) n →
      delete_node fuel self (Some n) = Ok self' →
      reachable self'
  | reachable_set_cmp_fn cmp self :
      reachable self → reachable (set_cmp_fn cmp self).

(** The comparator's verdict on the key [k] against the key of the node
    [p]. *)
Definition less (self : t) (k : K) (p : ptr) : bool :=
  match nodes self !! p with
  | Some n => (cmp_fn self k (key n) =? CMPValues.LESS)%Z
  | None => false
  end.

(** Where a new node [new] belongs in [tr]: left of a node when [go_left]
    says so (for [go_left := less self k], when the comparator reports the
    new key LESS), right of it otherwise. *)
Fixpoint tree_insert (go_left : ptr → bool) (new : ptr) (tr : tree) : tree :=
  match tr with
  | Leaf => Br Leaf new Leaf
  | Br l p r =>
      if go_left p then Br (tree_insert go_left new l) p r
      else Br l p (tree_insert go_left new r)
  end.

(** The descent rule of [insert_node], read off the state after the call:
    at every node [a] that has the new node [new] below it, [new] is in the
    left subtree exactly when the comparator reports the new key [k] LESS
    than the key of [a], and in the right subtree otherwise, so in the right
    subtree when it reports EQUAL. *)
Definition descent_rule (self : t) (k : K) (new : ptr) : Prop :=
  ∀ a an,
    in_subtree self (root self) a → nodes self !! a = Some an →
    in_subtree self (left_child an) new ∨
      in_subtree self (right_child an) new →
    (in_subtree self (left_child an) new ↔
       cmp_fn self k (key an) = CMPValues.LESS) ∧
    (in_subtree self (right_child an) new ↔
       cmp_fn self k (key an) ≠ CMPValues.LESS) ∧
    (cmp_fn self k (key an) = CMPValues.EQUAL →
       in_subtree self (right_child an) new).

(** A tree without its leftmost node: the right subtree of that node takes
    its place. *)
Fixpoint remove_leftmost (tr : tree) : tree :=
  match tr with
  | Leaf => Leaf
  | Br l p r =>
      match l with
      | Leaf => r
      | Br _ _ _ => Br (remove_leftmost l) p r
      end
  end.

Fixpoint size (tr : tree) : nat :=
  match tr with
  | Leaf => 0
  | Br l _ r => S (size l + size r)
  end.

(** The leftmost and the rightmost node of a tree ([d] for the empty tree),
    and how many links lead to them from the root. *)
Fixpoint leftmost (tr : tree) (d : ptr) : ptr :=
  match tr with Leaf => d | Br l p _ => leftmost l p end.

Fixpoint rightmost (tr : tree) (d : ptr) : ptr :=
  match tr with Leaf => d | Br _ p r => rightmost r p end.

(** What [delete_node] leaves of a subtree when it deletes its root: the
    right subtree when there is no left one, the left subtree when there is
    no right one, and otherwise the two subtrees below the leftmost node of
    the right one. *)
Definition delete_root (l r : tree) : tree :=
  match l, r with
  | Leaf, _ => r
  | Br _ _ _, Leaf => l
  | Br _ _ _, Br r1 c _ => Br l (leftmost r1 c) (remove_leftmost r)
  end.

Fixpoint tree_delete (n : ptr) (tr : tree) : tree :=
  match tr with
  | Leaf => Leaf
  | Br l p r =>
      if decide (p = n) then delete_root l r
      else Br (tree_delete n l) p (tree_delete n r)
  end.

Fixpoint ldepth (tr : tree) : nat :=
  match tr with
  | Leaf => 0
  | Br l _ _ => match l with Leaf => 0 | Br _ _ _ => S (ldepth l) end
  end.

Fixpoint rdepth (tr : tree) : nat :=
  match tr with
  | Leaf => 0
  | Br _ _ r => match r with Leaf => 0 | Br _ _ _ => S (rdepth r) end
  end.

(** *** Orders of visit and of keys *)

(** The nodes of a tree root first, and root last; [ptrs] has them left
    subtree first. *)
Fixpoint preorder (tr : tree) : list ptr :=
  match tr with
  | Leaf => []
  | Br l p r => p :: preorder l ++ preorder r
  end.

Fixpoint postorder (tr : tree) : list ptr :=
  match tr with
  | Leaf => []
  | Br l p r => postorder l ++ postorder r ++ [p]
  end.

(** The subtree below the node [p] of [tr]; [Leaf] when [p] is not a node
    of [tr]. *)
Fixpoint subtree (p : ptr) (tr : tree) : tree :=
  match tr with
  | Leaf => Leaf
  | Br l q r =>
      if decide (q = p) then tr
      else match subtree p l with
           | Leaf => subtree p r
           | Br _ _ _ as t => t
           end
  end.

(** [self'] has the comparator, the number of nodes and every key of
    [self]. *)
Definition same_keys (self self' : t) : Prop :=
  cmp_fn self' = cmp_fn self ∧
  length (nodes self') = length (nodes self) ∧
  ∀ x, key <$> nodes self' !! x = key <$> nodes self !! x.

(** The comparator's verdict on the keys of two nodes: whether it reports
    the key of [x] LESS than the key of [a]. *)
Definition node_less (self : t) (x a : ptr) : bool :=
  match nodes self !! x, nodes self !! a with
  | Some nx, Some na => (cmp_fn self (key nx) (key na) =? CMPValues.LESS)%Z
  | _, _ => false
  end.

(** The order [insert_node] puts the keys in: below every node, the keys of
    the left subtree compare LESS than the key of the node and the keys of
    the right subtree do not. *)
Fixpoint ordered (self : t) (tr : tree) : Prop :=
  match tr with
  | Leaf => True
  | Br l p r =>
      (∀ x, x ∈ ptrs l → node_less self x p = true) ∧
      (∀ x, x ∈ ptrs r → node_less self x p = false) ∧
      ordered self l ∧ ordered self r
  end.

(** A comparator whose verdict LESS is a strict weak order. *)
Definition strict_weak_order (cmp : K → K → Z) : Prop :=
  (∀ a, cmp a a ≠ CMPValues.LESS) ∧
  (∀ a b c, cmp a b = CMPValues.LESS → cmp b c = CMPValues.LESS →
            cmp a c = CMPValues.LESS) ∧
  (∀ a b c, cmp a b ≠ CMPValues.LESS → cmp b c ≠ CMPValues.LESS →
            cmp a c ≠ CMPValues.LESS).

(** The nodes [ns] deleted one after the other; the first call that raises
    ends the run. *)
Fixpoint delete_all (fuel : nat) (self : t) (ns : list ptr) : result t :=
  match ns with
  | [] => Ok self
  | n :: ns => self ← delete_node fuel self (Some n); delete_all fuel self ns
  end.

(** The nodes met when descending from the reference [o] along
    [left_child] links only. *)
Inductive on_left_spine (self : t) : option ptr → ptr → Prop :=
  | on_left_spine_here p : on_left_spine self (Some p) p
  | on_left_spine_down a an p :
      nodes self !! a = Some an → on_left_spine self (left_child an) p →
      on_left_spine self (Some a) p.

End BST.

Arguments Node : clear implicits.
Arguments t : clear implicits.

End BST.

(** ** Scenarios *)

(** The numeric BST built from [ks] by iterative inserts. *)
Definition bst_of_keys (ks : list Z) : result (BST.t Z) :=
  BST.insert_all (length ks) (PyStr "i") (BST.init numeric_cmp) ks.

(** The tree with root 5 and right child 8. *)
Definition bst_5_8 : BST.t Z :=
  BST.mk numeric_cmp
    [BST.mkNode 5%Z None None (Some 1); BST.mkNode 8%Z (Some 0) None None]
    (Some 0).

(** The tree with root 5, left child 3 and right child 8. *)
Definition bst_5_3_8 : BST.t Z :=
  BST.mk numeric_cmp
    [BST.mkNode 5%Z None (Some 1) (Some 2);
     BST.mkNode 3%Z (Some 0) None None;
     BST.mkNode 8%Z (Some 0) None None]
    (Some 0).

Definition tree_5_3_8 : BST.tree :=
  BST.Br (BST.Br BST.Leaf 1 BST.Leaf) 0 (BST.Br BST.Leaf 2 BST.Leaf).

(** The stack of the scenario: 1, 2 and 3 pushed onto an empty stack. *)
Definition stack_123 : DLLS.t Z :=
  DLLS.push_all (DLLS.init numeric_cmp) [1; 2; 3]%Z.

(** A stack with a single node. *)
Definition stack_1 : DLLS.t Z := DLLS.push_all (DLLS.init numeric_cmp) [1%Z].

(** * Properties of dlls.py *)

Section DLLS_facts.
Context {K : Type}.
Implicit Types (self : DLLS.t K) (h : list (DLLS.Node K)) (ps : list ptr).
Import DLLS.

Lemma dseg_weaken_store h x pv ps nx :
  dseg h pv ps nx → dseg (h ++ [x]) pv ps nx.
Proof.
  revert pv. induction ps as [|p rest IH]; intros pv; simpl; [done|].
  intros (n & Hn & Hp & Hx & Hrest). exists n.
  split_and!; auto using lookup_app_l_Some.
Qed.

Lemma dseg_alter_outside h f q pv ps nx :
  q ∉ ps → dseg h pv ps nx → dseg (alter f q h) pv ps nx.
Proof.
  revert pv. induction ps as [|p rest IH]; intros pv Hq; simpl; [done|].
  apply not_elem_of_cons in Hq as [Hne Hq].
  intros (n & Hn & Hp & Hx & Hrest). exists n.
  split_and!; auto. by rewrite list_lookup_alter_ne.
Qed.

Lemma dseg_snoc h pv ps q nx :
  dseg h pv (ps ++ [q]) nx ↔
  dseg h pv ps (Some q) ∧
  ∃ n, h !! q = Some n ∧ prev n = last_or ps pv ∧ next n = nx.
Proof.
  revert pv. induction ps as [|p rest IH]; intros pv; simpl.
  - unfold last_or; simpl. split.
    + intros (n & ? & ? & ? & _). eauto.
    + intros [_ (n & ? & ? & ?)]. eauto.
  - assert (Hf : first_or (rest ++ [q]) nx = first_or rest (Some q))
      by (by destruct rest).
    assert (Hl : last_or (p :: rest) pv = last_or rest (Some p)).
    { unfold last_or. rewrite last_cons. by destruct (last rest). }
    rewrite Hf, Hl. split.
    + intros (n & ? & ? & ? & Hr). apply IH in Hr as [? ?]. eauto 10.
    + intros [(n & ? & ? & ? & Hr) Hq]. exists n. split_and!; auto.
      apply IH. auto.
Qed.

Lemma dseg_set_last_next h pv ps q nx nx' :
  NoDup (ps ++ [q]) →
  dseg h pv (ps ++ [q]) nx →
  dseg (alter (λ n, DLLS.mkNode (key n) nx' (prev n)) q h) pv (ps ++ [q]) nx'.
Proof.
  intros Hnd. rewrite !dseg_snoc. intros [Hseg (n & Hn & Hp & Hx)].
  apply NoDup_app in Hnd as (_ & Hdisj & _).
  split.
  - apply dseg_alter_outside; [|done].
    intros Hin. apply (Hdisj q Hin). by left.
  - eexists. rewrite list_lookup_alter_eq, Hn. simpl. eauto.
Qed.

Lemma dseg_valid h pv ps nx p : dseg h pv ps nx → p ∈ ps → p < length h.
Proof.
  revert pv. induction ps as [|p' rest IH]; intros pv; simpl.
  - intros _ Hin. by apply elem_of_nil in Hin.
  - intros (n & Hn & _ & _ & Hrest) [->|Hin]%elem_of_cons.
    + by eapply lookup_lt_Some.
    + eauto.
Qed.

Lemma dseg_split h pv l1 a l2 nx :
  dseg h pv (l1 ++ a :: l2) nx →
  ∃ n, h !! a = Some n ∧ prev n = last_or l1 pv ∧ next n = first_or l2 nx.
Proof.
  revert pv. induction l1 as [|p rest IH]; intros pv; simpl.
  - intros (n & ? & ? & ? & _). by exists n.
  - intros (n & _ & _ & _ & Hrest). apply IH in Hrest as (m & ? & Hm & ?).
    exists m. split_and!; auto. rewrite Hm. unfold last_or.
    rewrite last_cons. by destruct (last rest).
Qed.

Lemma first_or_snoc ps q d : first_or (ps ++ [q]) d = first_or ps (Some q).
Proof. by destruct ps. Qed.

Lemma last_or_snoc ps q d : last_or (ps ++ [q]) d = Some q.
Proof. unfold last_or. by rewrite last_snoc. Qed.

Lemma last_or_None ps : last_or ps None = last ps.
Proof. unfold last_or. by destruct (last ps). Qed.

(** [push] appends the new node to the list. *)
Lemma push_represents self k ps :
  represents self ps →
  (push self k).1 = Some (length (nodes self)) ∧
  represents (push self k).2 (ps ++ [length (nodes self)]).
Proof.
  destruct self as [cmp h hd tl]. intros (Hhd & Htl & Hseg & Hnd).
  simpl in *. set (new := length h).
  assert (Hfresh : new ∉ ps).
  { intros Hin. apply (dseg_valid _ _ _ _ _ Hseg) in Hin. unfold new in Hin.
    lia. }
  assert (Hnew : ∀ x, (h ++ [x]) !! new = Some x).
  { intros x. unfold new. by rewrite lookup_app_r, Nat.sub_diag by lia. }
  unfold push, alloc; cbn [nodes tail head with_nodes set_next set_prev].
  fold new. destruct tl as [old|]; cbn.
  - symmetry in Htl. apply last_Some in Htl as [ps0 ->].
    split; [done|]. unfold represents; cbn. split_and!.
    + by rewrite Hhd, !first_or_snoc.
    + by rewrite last_snoc.
    + apply dseg_snoc. split.
      * eapply dseg_set_last_next; [done|].
        do 2 (apply dseg_alter_outside; [done|]).
        by apply dseg_weaken_store.
      * assert (new ≠ old).
        { intros <-. apply Hfresh, elem_of_app. right. by left. }
        eexists. rewrite list_lookup_alter_ne by done.
        rewrite !list_lookup_alter_eq, Hnew. cbn. by rewrite last_or_snoc.
    + apply NoDup_app. split_and!; [done| |apply NoDup_singleton].
      intros x Hx ->%list_elem_of_singleton. done.
  - symmetry in Htl. apply last_None in Htl as ->. simpl in *.
    split; [done|]. unfold represents; cbn. split_and!; try done.
    + eexists. rewrite !list_lookup_alter_eq, Hnew. cbn. done.
    + apply NoDup_singleton.
Qed.

(** [pop] removes the last node of the list and returns the new last one. *)
Lemma pop_represents self ps :
  represents self ps →
  (pop self).1 = Ok (last (removelast ps)) ∧
  represents (pop self).2 (removelast ps).
Proof.
  destruct self as [cmp h hd tl]. intros (Hhd & Htl & Hseg & Hnd).
  simpl in *. destruct (last ps) as [old|] eqn:Hlast.
  - apply last_Some in Hlast as [ps0 ->]. rewrite removelast_last.
    subst tl. unfold pop, is_empty; cbn [head tail nodes].
    rewrite andb_false_r.
    pose proof Hseg as [Hseg0 (n & Hn & Hp & Hx)]%dseg_snoc.
    rewrite Hn, Hp, last_or_None. cbn.
    destruct (last ps0) as [new_tail|] eqn:Hlast0; cbn.
    + split; [done|]. apply last_Some in Hlast0 as [ps1 ->].
      apply NoDup_app in Hnd as (Hnd0 & _ & _).
      unfold represents; cbn. split_and!; try done.
      * by rewrite Hhd, !first_or_snoc.
      * by rewrite last_snoc.
      * by eapply dseg_set_last_next.
    + split; [done|]. apply last_None in Hlast0 as ->.
      unfold represents; cbn. split_and!; try done. apply NoDup_nil_2.
  - apply last_None in Hlast as ->. simpl in *. subst.
    unfold pop, is_empty; cbn. split; [done|].
    unfold represents; cbn. done.
Qed.

Lemma dlls_init_represents (cmp : K → K → Z) : represents (DLLS.init cmp) [].
Proof. unfold represents; cbn. split_and!; try done. apply NoDup_nil_2. Qed.

Lemma reachable_represents self : reachable self → ∃ ps, represents self ps.
Proof.
  induction 1 as [cmp|self k _ [ps IH]|self _ [ps IH]].
  - eexists. apply dlls_init_represents.
  - eexists. by apply push_represents.
  - eexists. by apply pop_represents.
Qed.

Lemma in_list_elem_of self ps a :
  represents self ps → in_list self a → a ∈ ps.
Proof.
  intros (Hhd & _ & Hseg & _). induction 1 as [p Hp|a na b _ IH Hna Hb].
  - rewrite Hhd in Hp. destruct ps; simplify_eq/=. by left.
  - apply list_elem_of_split in IH as (l1 & l2 & ->).
    apply dseg_split in Hseg as (n & Hn & _ & Hx). simplify_eq.
    rewrite Hx in Hb. destruct l2; simplify_eq/=.
    apply elem_of_app. right. right. by left.
Qed.

Lemma represents_linkage self ps :
  represents self ps → linkage_invariant self.
Proof.
  intros Hrep. pose proof Hrep as (Hhd & Htl & Hseg & Hnd).
  unfold linkage_invariant. split_and!.
  - rewrite Hhd, Htl, last_None. by destruct ps.
  - intros p Hp. rewrite Hhd in Hp. destruct ps as [|p' rest]; simplify_eq/=.
    destruct Hseg as (n & ? & ? & _). eauto.
  - intros p Hp. rewrite Htl in Hp. apply last_Some in Hp as [ps0 ->].
    apply dseg_snoc in Hseg as [_ (n & ? & _ & ?)]. eauto.
  - intros a b na nb Ha Hb Hna Hnb.
    apply (in_list_elem_of _ _ _ Hrep) in Ha, Hb. split.
    + intros Hx. apply list_elem_of_split in Ha as (l1 & l2 & ->).
      pose proof (dseg_split _ _ _ _ _ _ Hseg) as (n & Hn & _ & Hx').
      simplify_eq. rewrite Hx' in Hx. destruct l2 as [|b' l2]; simplify_eq/=.
      replace (l1 ++ a :: b :: l2) with ((l1 ++ [a]) ++ b :: l2) in Hseg
        by (by rewrite <- app_assoc).
      apply dseg_split in Hseg as (n' & Hn' & Hp' & _). simplify_eq.
      by rewrite Hp', last_or_snoc.
    + intros Hp. apply list_elem_of_split in Hb as (l1 & l2 & ->).
      pose proof (dseg_split _ _ _ _ _ _ Hseg) as (n & Hn & Hp' & _).
      simplify_eq. rewrite Hp', last_or_None in Hp.
      apply last_Some in Hp as [l1' ->]. rewrite <- app_assoc in Hseg.
      apply dseg_split in Hseg as (n' & Hn' & _ & Hx'). by simplify_eq.
Qed.

Lemma search_loop_first_match self target_key pv ps fuel :
  dseg (nodes self) pv ps None → length ps ≤ fuel →
  iterative_search_loop fuel self target_key (first_or ps None)
    = Ok (first_match self target_key ps).
Proof.
  revert pv fuel. induction ps as [|p rest IH]; intros pv fuel; simpl.
  - by destruct fuel.
  - intros (n & Hn & _ & Hx & Hrest) Hfuel.
    destruct fuel as [|fuel]; [lia|]. simpl.
    unfold first_match, matches; simpl. rewrite Hn, Hx.
    destruct (_ =? _)%Z; [done|]. eapply IH; [done|lia].
Qed.

(** The two scans are the same function of the state, whatever the state. *)
Lemma recursive_search_iterative fuel self target_key o :
  recursive_search fuel self target_key o
    = iterative_search_loop fuel self target_key o.
Proof.
  (* the two definitions unfold to the same fixpoint *)
  reflexivity.
Qed.

(** C7: on every stack and for every target key, the iterative and the
    recursive search return the same outcome; on a stack reached by pushes
    and pops both return the first node, scanning from [head] to [tail],
    whose key the comparator reports EQUAL to the target, and [None] when
    there is none. *)
Theorem dlls_search_modes_agree self target_key :
  reachable self →
  (∀ fuel, search fuel self target_key (PyStr "i")
           = search fuel self target_key (PyStr "r")) ∧
  ∃ ps, represents self ps ∧
    ∀ fuel, length ps ≤ fuel →
      search fuel self target_key (PyStr "i")
        = Ok (first_match self target_key ps) ∧
      search fuel self target_key (PyStr "r")
        = Ok (first_match self target_key ps).
Proof.
  intros [ps Hrep]%reachable_represents. split.
  - intros fuel. unfold search; cbn. unfold iterative_search.
    symmetry. apply recursive_search_iterative.
  - exists ps. split; [done|]. intros fuel Hfuel.
    destruct Hrep as (Hhd & _ & Hseg & _).
    pose proof (search_loop_first_match self target_key _ _ fuel Hseg Hfuel)
      as Hloop.
    unfold search; cbn. unfold iterative_search. rewrite Hhd. split.
    + exact Hloop.
    + etrans; [apply recursive_search_iterative|exact Hloop].
Qed.

(** C9: every state reached from the empty stack by pushes and pops
    satisfies the linkage invariant: [head] is [None] exactly when [tail]
    is, [head.prev] and [tail.next] are [None], and for nodes [a], [b] of the
    list [a.next] is [b] exactly when [b.prev] is [a]. *)
Theorem dlls_reachable_linkage_invariant self :
  reachable self → linkage_invariant self.
Proof.
  intros [ps Hrep]%reachable_represents. by eapply represents_linkage.
Qed.

(** C10: [pop] returns [None] on an empty stack, leaving the state as it
    is, and it also returns [None] when it removes the only node of the
    stack, leaving the stack empty: the returned value is the same in both
    cases. *)
Theorem dlls_pop_none_ambiguous self :
  reachable self →
  (is_empty self = true → pop self = (Ok None, self)) ∧
  (∀ p, head self = Some p → tail self = Some p →
        is_empty self = false ∧ (pop self).1 = Ok None ∧
        is_empty (pop self).2 = true).
Proof.
  intros [ps Hrep]%reachable_represents. split.
  - intros He. unfold pop. by rewrite He.
  - intros p Hhd Htl. split.
    { unfold is_empty. by rewrite Hhd. }
    pose proof Hrep as (Hhd' & Htl' & _ & Hnd).
    rewrite Hhd in Hhd'. rewrite Htl in Htl'.
    destruct ps as [|p' rest]; simplify_eq/=.
    assert (rest = []) as ->.
    { destruct rest as [|q rest]; [done|]. exfalso.
      apply NoDup_cons in Hnd as [Hnotin _]. apply Hnotin.
      rewrite last_cons_cons in Htl'. symmetry in Htl'.
      by apply last_Some_elem_of in Htl'. }
    apply pop_represents in Hrep as [Hret (Hh & Ht & _)]. simpl in *.
    split; [done|]. unfold is_empty. by rewrite Hh, Ht.
Qed.

End DLLS_facts.

Lemma stack_123_reachable : DLLS.reachable stack_123.
Proof.
  exact (DLLS.reachable_push _ 3%Z
           (DLLS.reachable_push _ 2%Z
              (DLLS.reachable_push _ 1%Z (DLLS.reachable_init numeric_cmp)))).
Qed.

(** C3, as amended: after pushing 1, 2, 3 the first [pop] returns the new
    tail, the node with key 2, the second the node with key 1, the third,
    which empties the stack, returns [None], and so does the fourth, on the
    empty stack. *)
Theorem dlls_pop_returns_new_tail :
  DLLS.pop_keys 4 stack_123
    = [Ok (Some 2%Z); Ok (Some 1%Z); Ok None; Ok None].
Proof. reflexivity. Qed.

(** C3 as stated fails: the four calls of [pop] do not return 3, 2, 1 and
    then not-found. *)
Lemma dlls_pop_returns_removed_key_fails :
  DLLS.pop_keys 4 stack_123
    ≠ [Ok (Some 3%Z); Ok (Some 2%Z); Ok (Some 1%Z); Ok None].
Proof. discriminate. Qed.

Lemma dlls_search_modes_agree_witness :
  DLLS.reachable stack_123 ∧
  (∀ fuel, DLLS.search fuel stack_123 2%Z (PyStr "i")
           = DLLS.search fuel stack_123 2%Z (PyStr "r")) ∧
  ∃ ps, DLLS.represents stack_123 ps ∧
    ∀ fuel, length ps ≤ fuel →
      DLLS.search fuel stack_123 2%Z (PyStr "i")
        = Ok (DLLS.first_match stack_123 2%Z ps) ∧
      DLLS.search fuel stack_123 2%Z (PyStr "r")
        = Ok (DLLS.first_match stack_123 2%Z ps).
Proof.
  split; [apply stack_123_reachable|].
  apply (dlls_search_modes_agree stack_123 2%Z), stack_123_reachable.
Defined.

Lemma dlls_reachable_linkage_invariant_witness :
  DLLS.reachable (DLLS.pop stack_123).2 ∧
  DLLS.linkage_invariant (DLLS.pop stack_123).2.
Proof.
  assert (H : DLLS.reachable (DLLS.pop stack_123).2)
    by apply DLLS.reachable_pop, stack_123_reachable.
  split; [exact H|]. exact (dlls_reachable_linkage_invariant _ H).
Defined.

Lemma dlls_pop_none_ambiguous_witness :
  DLLS.reachable stack_1 ∧
  (DLLS.is_empty stack_1 = true → DLLS.pop stack_1 = (Ok None, stack_1)) ∧
  (∀ p, DLLS.head stack_1 = Some p → DLLS.tail stack_1 = Some p →
        DLLS.is_empty stack_1 = false ∧ (DLLS.pop stack_1).1 = Ok None ∧
        DLLS.is_empty (DLLS.pop stack_1).2 = true).
Proof.
  assert (H : DLLS.reachable stack_1).
  { exact (DLLS.reachable_push _ 1%Z (DLLS.reachable_init numeric_cmp)). }
  split; [exact H|]. exact (dlls_pop_none_ambiguous _ H).
Defined.

(** ** The stack discipline *)

Section DLLS_stack.
Context {K : Type}.
Implicit Types (self : DLLS.t K) (h : list (DLLS.Node K)) (ps : list ptr).
Import DLLS.

Lemma key_alter (f : Node K → Node K) i h p :
  (∀ n, key (f n) = key n) → key <$> alter f i h !! p = key <$> h !! p.
Proof.
  intros Hf. destruct (decide (i = p)) as [->|].
  - rewrite list_lookup_alter_eq. destruct (h !! p); simpl; [|done].
    by rewrite Hf.
  - by rewrite list_lookup_alter_ne.
Qed.

(** [push] stores the new key in the new node and changes no other key. *)
Lemma push_preserves_keys self k :
  cmp_fn (push self k).2 = cmp_fn self ∧
  key_of (push self k).2 (Some (length (nodes self))) = Some k ∧
  ∀ p, p < length (nodes self) →
       key_of (push self k).2 (Some p) = key_of self (Some p).
Proof.
  destruct self as [cmp h hd tl]. unfold push, alloc, key_of.
  cbn [nodes tail head with_nodes set_next set_prev].
  destruct tl as [old|]; cbn; rewrite ?key_alter by done; split_and!;
    try done.
  - by rewrite lookup_app_r, Nat.sub_diag by lia.
  - intros p Hp. rewrite ?key_alter by done. by rewrite lookup_app_l.
  - by rewrite lookup_app_r, Nat.sub_diag by lia.
  - intros p Hp. rewrite ?key_alter by done. by rewrite lookup_app_l.
Qed.

(** [pop] changes no key; the node it unlinks stays in the store. *)
Lemma pop_preserves_keys self :
  cmp_fn (pop self).2 = cmp_fn self ∧
  ∀ o, key_of (pop self).2 o = key_of self o.
Proof.
  destruct self as [cmp h hd tl]. unfold pop, key_of.
  destruct (is_empty _); [done|]. cbn [tail nodes].
  destruct tl as [old|]; [|done]. destruct (h !! old) as [n|]; [|done].
  cbn. destruct (prev n); cbn; split; try done.
  intros [p|]; cbn; [|done]. by rewrite key_alter.
Qed.

(** Two stores that hold the same list with the same keys hold the same
    nodes along it. *)
Lemma dseg_same_nodes h h' pv ps nx :
  dseg h pv ps nx → dseg h' pv ps nx →
  (∀ p, p ∈ ps → key <$> h' !! p = key <$> h !! p) →
  ∀ p, p ∈ ps → h' !! p = h !! p.
Proof.
  revert pv. induction ps as [|q rest IH]; intros pv; simpl.
  - intros _ _ _ p Hp. by apply elem_of_nil in Hp.
  - intros (n & Hn & Hp & Hx & Hrest) (n' & Hn' & Hp' & Hx' & Hrest') Hkeys.
    intros p [->|Hin]%elem_of_cons.
    + specialize (Hkeys q ltac:(by left)). rewrite Hn, Hn' in Hkeys |- *.
      simpl in Hkeys. injection Hkeys as Hkey.
      destruct n, n'; simpl in *. congruence.
    + eapply IH; eauto. intros x Hx0. apply Hkeys. by right.
Qed.

Lemma pop_all_represents n self ps :
  represents self ps → represents (pop_all n self) (take (length ps - n) ps).
Proof.
  revert self ps. induction n as [|n IH]; intros self ps Hrep; simpl.
  - by rewrite Nat.sub_0_r, firstn_all.
  - apply pop_represents in Hrep as [_ Hrep]. apply IH in Hrep.
    destruct ps as [|p ps _] using rev_ind; [done|].
    rewrite removelast_last in Hrep. rewrite length_app. simpl.
    replace (length ps + 1 - S n) with (length ps - n) by lia.
    rewrite take_app_le by lia. done.
Qed.

(** The keys of the nodes that [n] calls of [pop] return: those of the
    nodes before the tail, from the tail backwards, and [None] once the
    list is used up. *)
Lemma reverse_None_cons ps :
  reverse (None :: (Some <$> ps))
  = last ps :: List.tail (reverse (None :: (Some <$> ps))).
Proof.
  destruct ps as [|q ps0 _] using rev_ind; [done|].
  rewrite fmap_app, app_comm_cons, reverse_app, last_snoc. done.
Qed.

Lemma pop_keys_represents n self ps :
  represents self ps → n ≤ length ps →
  pop_keys n self
  = (λ o, Ok (key_of self o))
      <$> take n (List.tail (reverse (None :: (Some <$> ps)))).
Proof.
  revert self ps. induction n as [|n IH]; intros self ps Hrep Hn; [done|].
  destruct ps as [|q ps0 _] using rev_ind; [simpl in Hn; lia|].
  rewrite length_app in Hn. simpl in Hn.
  destruct (pop_represents _ _ Hrep) as [Hret Hrep'].
  destruct (pop_preserves_keys self) as [_ Hkeys].
  rewrite removelast_last in Hret, Hrep'.
  cbn [pop_keys]. destruct (pop self) as [r self1]. simpl in *. subst r.
  rewrite (IH self1 ps0 Hrep') by lia.
  rewrite fmap_app, app_comm_cons, reverse_app.
  set (X := reverse (None :: (Some <$> ps0))).
  change (List.tail (reverse (Some <$> [q]) ++ X)) with X.
  assert (X = last ps0 :: List.tail X) as HX by apply reverse_None_cons.
  transitivity ((λ o : option nat, Ok (key_of self o))
                  <$> take (S n) (last ps0 :: List.tail X));
    [|by rewrite <- HX].
  simpl. rewrite Hkeys. f_equal.
  apply list_fmap_ext. intros _ o _. by rewrite Hkeys.
Qed.

Lemma push_all_snoc self ks k :
  push_all self (ks ++ [k]) = (push (push_all self ks) k).2.
Proof. unfold push_all. by rewrite foldl_app. Qed.

(** The pushes of [ks] append one node per key, in this order. *)
Lemma push_all_represents self ps ks :
  represents self ps →
  ∃ news,
    represents (push_all self ks) (ps ++ news) ∧
    (λ p, key_of (push_all self ks) (Some p)) <$> news = Some <$> ks ∧
    (∀ p, p ∈ ps → key_of (push_all self ks) (Some p) = key_of self (Some p)) ∧
    cmp_fn (push_all self ks) = cmp_fn self.
Proof.
  intros Hrep. induction ks as [|k ks IH] using rev_ind.
  - exists []. rewrite app_nil_r. done.
  - destruct IH as (news & Hrep' & Hnews & Hold & Hcmp).
    rewrite push_all_snoc.
    destruct (push_represents _ k _ Hrep') as [_ Hrep''].
    destruct (push_preserves_keys (push_all self ks) k)
      as (Hcmp' & Hnew & Hkeys).
    assert (Hlt : ∀ p, p ∈ ps ++ news → p < length (nodes (push_all self ks))).
    { intros p Hp. destruct Hrep' as (_ & _ & Hseg & _).
      by eapply dseg_valid. }
    exists (news ++ [length (nodes (push_all self ks))]). split_and!.
    + by rewrite app_assoc.
    + rewrite !fmap_app. f_equal.
      * rewrite <- Hnews. apply list_fmap_ext.
        intros _ p Hp%list_elem_of_lookup_2.
        apply Hkeys, Hlt, elem_of_app. by right.
      * cbn [fmap list_fmap]. by rewrite Hnew.
    + intros p Hp. rewrite Hkeys; [by apply Hold|].
      apply Hlt, elem_of_app. by left.
    + by rewrite Hcmp'.
Qed.

Lemma take_tail_app {A} (l r' : list A) r n :
  length l = n → take n (List.tail (l ++ r :: r')) = List.tail (l ++ [r]).
Proof.
  intros <-. destruct l as [|a l]; [done|]. simpl.
  rewrite take_app_ge by lia.
  replace (S (length l) - length l) with 1 by lia. done.
Qed.

(** X1: [push] on a stack with the nodes [ps] allocates a node that is not
    among them, returns it, and leaves the stack with the nodes [ps]
    followed by the new one; the new node holds [new_key], the keys of the
    other nodes and the comparator are as before, and the stack is not
    empty. *)
Theorem dlls_push_appends_node self new_key ps :
  represents self ps →
  ∃ new,
    (push self new_key).1 = Some new ∧ (new ∉ ps) ∧
    represents (push self new_key).2 (ps ++ [new]) ∧
    key_of (push self new_key).2 (Some new) = Some new_key ∧
    (∀ p, p ∈ ps →
          key_of (push self new_key).2 (Some p) = key_of self (Some p)) ∧
    cmp_fn (push self new_key).2 = cmp_fn self ∧
    is_empty (push self new_key).2 = false.
Proof.
  intros Hrep. destruct (push_represents _ new_key _ Hrep) as [Hret Hrep'].
  destruct (push_preserves_keys self new_key) as (Hcmp & Hnew & Hkeys).
  assert (Hlt : ∀ p, p ∈ ps → p < length (nodes self)).
  { intros p Hp. destruct Hrep as (_ & _ & Hseg & _). by eapply dseg_valid. }
  exists (length (nodes self)). split_and!; try done.
  - intros Hin%Hlt. lia.
  - intros p Hp. by apply Hkeys, Hlt.
  - destruct Hrep' as (Hhd & _). unfold is_empty. rewrite Hhd.
    by destruct ps.
Qed.

(** X2: [pop] on a stack with the nodes [ps] never raises; it returns the
    node before the last one ([None] when there is none) and leaves the
    stack with the nodes [ps] without the last one.  No key and no node
    count changes: the unlinked node stays allocated. *)
Theorem dlls_pop_unlinks_tail self ps :
  represents self ps →
  (pop self).1 = Ok (last (removelast ps)) ∧
  represents (pop self).2 (removelast ps) ∧
  (∀ o, key_of (pop self).2 o = key_of self o) ∧
  cmp_fn (pop self).2 = cmp_fn self ∧
  (is_empty self = true → (pop self).2 = self).
Proof.
  intros Hrep. destruct (pop_represents _ _ Hrep) as [Hret Hrep'].
  destruct (pop_preserves_keys self) as [Hcmp Hkeys].
  split_and!; try done. intros He. unfold pop. by rewrite He.
Qed.

(** X3: a [push] followed by a [pop] gives the stack back: the [pop] returns
    the tail the stack had before the [push], and afterwards [head], [tail]
    and every node of the list, with its key and both links, are as they
    were. *)
Theorem dlls_push_pop_round_trip self new_key ps :
  represents self ps →
  let self' := (pop (push self new_key).2).2 in
  (pop (push self new_key).2).1 = Ok (tail self) ∧
  represents self' ps ∧
  head self' = head self ∧ tail self' = tail self ∧
  ∀ p, p ∈ ps → nodes self' !! p = nodes self !! p.
Proof.
  intros Hrep self'.
  destruct (push_represents _ new_key _ Hrep) as [_ Hrep1].
  destruct (pop_represents _ _ Hrep1) as [Hret Hrep2].
  rewrite removelast_last in Hret, Hrep2. fold self' in Hrep2.
  pose proof Hrep as (Hhd & Htl & Hseg & _).
  pose proof Hrep2 as (Hhd' & Htl' & Hseg' & _).
  split_and!; try congruence.
  apply (dseg_same_nodes _ _ None ps None); try done.
  intros p Hp.
  destruct (pop_preserves_keys (push self new_key).2) as [_ Hkeys].
  destruct (push_preserves_keys self new_key) as (_ & _ & Hkeys').
  transitivity (key_of (push self new_key).2 (Some p));
    [exact (Hkeys (Some p))|].
  apply Hkeys'. by eapply dseg_valid.
Qed.

(** X4: the keys [ks] pushed onto a stack and then as many calls of [pop]:
    the calls return the nodes of the pushed keys from the last but one
    backwards and at last the tail the stack had before, and they leave the
    stack with the nodes, the [head] and the [tail] it had before. *)
Theorem dlls_pops_undo_pushes self ps ks :
  represents self ps →
  pop_keys (length ks) (push_all self ks)
  = List.tail (((λ k, Ok (Some k)) <$> reverse ks) ++ [Ok (key_of self (tail self))]) ∧
  represents (pop_all (length ks) (push_all self ks)) ps ∧
  head (pop_all (length ks) (push_all self ks)) = head self ∧
  tail (pop_all (length ks) (push_all self ks)) = tail self ∧
  is_empty (pop_all (length ks) (push_all self ks)) = is_empty self.
Proof.
  intros Hrep.
  destruct (push_all_represents self ps ks Hrep)
    as (news & Hrep' & Hnews & Hold & _).
  assert (Hlen : length news = length ks).
  { apply (f_equal length) in Hnews. by rewrite !length_fmap in Hnews. }
  pose proof (pop_all_represents (length ks) _ _ Hrep') as Hrep''.
  rewrite length_app, Hlen in Hrep''.
  replace (length ps + length ks - length ks) with (length ps) in Hrep''
    by lia.
  rewrite take_app_length in Hrep''.
  pose proof Hrep as (Hhd & Htl & _). pose proof Hrep'' as (Hhd' & Htl' & _).
  assert (Hhead : head (pop_all (length ks) (push_all self ks)) = head self)
    by congruence.
  assert (Htail : tail (pop_all (length ks) (push_all self ks)) = tail self)
    by congruence.
  split_and!; try done.
  - rewrite (pop_keys_represents _ _ _ Hrep')
      by (rewrite length_app; lia).
    rewrite fmap_app, app_comm_cons, reverse_app, (reverse_None_cons ps).
    rewrite take_tail_app by (by rewrite length_reverse, length_fmap).
    rewrite fmap_tail, fmap_app, fmap_reverse. simpl. do 3 f_equal.
    + rewrite <- list_fmap_compose, (fmap_reverse _ ks). f_equal.
      transitivity (Ok <$> ((λ p, key_of (push_all self ks) (Some p)) <$> news));
        [by rewrite <- list_fmap_compose|].
      rewrite Hnews. by rewrite <- list_fmap_compose.
    + rewrite Htl. destruct (last ps) as [p|] eqn:Hlast; [|done].
      f_equal. apply Hold. by eapply last_Some_elem_of.
  - unfold is_empty. by rewrite Hhead, Htail.
Qed.

Lemma find_snoc_true {A} (f : A → bool) (l : list A) x :
  f x = true →
  ∃ p, List.find f (l ++ [x]) = Some p ∧ f p = true ∧ (p ∈ l ∨ p = x).
Proof.
  intros Hx. induction l as [|a l (p & Hfind & Hp & Hin)]; simpl.
  - rewrite Hx. exists x. auto.
  - destruct (f a) eqn:Ha.
    + exists a. split_and!; auto. left. by left.
    + exists p. split_and!; auto. destruct Hin; auto. left. by right.
Qed.

(** X5: after [push] of a key that the comparator reports EQUAL to the
    target, [search], in either mode and with fuel for the length of the
    list, returns a node: a node of the list, the pushed one or an earlier
    one, whose key the comparator reports EQUAL to the target. *)
Theorem dlls_search_finds_pushed_key fuel self ps new_key target_key
    (mode : string) :
  represents self ps → length ps < fuel → mode = "i" ∨ mode = "r" →
  cmp_fn self new_key target_key = CMPValues.EQUAL →
  ∃ p n,
    search fuel (push self new_key).2 target_key (PyStr mode) = Ok (Some p) ∧
    (p ∈ ps ∨ (push self new_key).1 = Some p) ∧
    nodes (push self new_key).2 !! p = Some n ∧
    cmp_fn self (key n) target_key = CMPValues.EQUAL.
Proof.
  intros Hrep Hfuel Hmode Heq.
  destruct (push_represents _ new_key _ Hrep) as [Hret Hrep'].
  destruct (push_preserves_keys self new_key) as (Hcmp & Hnew & _).
  set (self' := (push self new_key).2) in *.
  set (new := length (nodes self)) in *.
  assert (Hmatch : matches self' target_key new = true).
  { unfold matches. unfold key_of in Hnew. simpl in Hnew.
    destruct (nodes self' !! new) as [n|]; [|done]. injection Hnew as ->.
    rewrite Hcmp. by apply Z.eqb_eq. }
  destruct (find_snoc_true (matches self' target_key) ps new Hmatch)
    as (p & Hfind & Hp & Hin).
  unfold matches in Hp.
  destruct (nodes self' !! p) as [n|] eqn:Hn; [|done].
  exists p, n. split_and!; try done.
  - destruct Hrep' as (Hhd & _ & Hseg & _).
    pose proof (search_loop_first_match self' target_key _ _ fuel Hseg) as Hloop.
    rewrite <- Hhd in Hloop. unfold first_match in Hloop.
    rewrite Hfind in Hloop.
    destruct Hmode as [->| ->]; unfold search; cbn;
      [|rewrite recursive_search_iterative]; apply Hloop;
      rewrite length_app; simpl; lia.
  - destruct Hin as [?| ->]; [by left|by right].
  - rewrite <- Hcmp. by apply Z.eqb_eq.
Qed.

End DLLS_stack.

(** * Properties of bst.py *)

Example bst_of_keys_5_3_8 : bst_of_keys [5; 3; 8]%Z = Ok bst_5_3_8.
Proof. reflexivity. Qed.

Example bst_of_keys_5_8 : bst_of_keys [5; 8]%Z = Ok bst_5_8.
Proof. reflexivity. Qed.

Example bst_recursive_5_3_8 :
  BST.insert_all 3 (PyStr "r") (BST.init numeric_cmp) [5; 3; 8]%Z
  = bst_of_keys [5; 3; 8]%Z.
Proof. reflexivity. Qed.

Section BST_facts.
Context {K : Type}.
Implicit Types (self : BST.t K) (h : list (BST.Node K)) (tr : BST.tree).
Import BST.

(** ** The two insertion strategies *)

Lemma iterative_insert_unfold fuel self new_node :
  iterative_insert fuel self new_node =
  match iterative_insert_loop fuel self new_node None (root self) with
  | Raise e => (Raise e, self)
  | Ok None =>
      (Ok new_node, set_root (Some new_node) (set_parent new_node None self))
  | Ok (Some q) => attach (set_parent new_node (Some q) self) new_node q
  end.
Proof.
  unfold iterative_insert, attach.
  destruct (iterative_insert_loop _ _ _ _ _) as [[q|]|]; reflexivity.
Qed.

Lemma insert_loop_prev fuel self new_node pv pv' c :
  iterative_insert_loop fuel self new_node pv (Some c)
  = iterative_insert_loop fuel self new_node pv' (Some c).
Proof. destruct fuel; reflexivity. Qed.

Lemma insert_loop_None fuel self new_node pv :
  iterative_insert_loop fuel self new_node pv None = Ok pv.
Proof. by destruct fuel. Qed.

Lemma recursive_insert_None fuel self new_node par :
  recursive_insert fuel self new_node None par
  = (Ok new_node, set_parent new_node par self).
Proof. by destruct fuel. Qed.

(** The loop stops at a node whose slot on the side of the new key is
    free. *)
Lemma insert_loop_end fuel self new_node pv c o :
  iterative_insert_loop fuel self new_node pv (Some c) = Ok o →
  ∃ q qn nn,
    o = Some q ∧ nodes self !! q = Some qn ∧
    nodes self !! new_node = Some nn ∧
    (if (cmp_fn self (key nn) (key qn) =? CMPValues.LESS)%Z
     then left_child qn else right_child qn) = None.
Proof.
  revert pv c. induction fuel as [|fuel IH]; intros pv c; simpl; [done|].
  destruct (nodes self !! new_node) as [nn|] eqn:Hnn; [|done].
  destruct (nodes self !! c) as [cn|] eqn:Hcn; [|done].
  destruct (_ =? _)%Z eqn:Hcmp.
  - destruct (left_child cn) as [l|] eqn:Hl; [by apply IH|].
    rewrite insert_loop_None. intros [= <-]. exists c, cn, nn.
    by rewrite Hcmp.
  - destruct (right_child cn) as [r|] eqn:Hr; [by apply IH|].
    rewrite insert_loop_None. intros [= <-]. exists c, cn, nn.
    by rewrite Hcmp.
Qed.

Lemma alter_same {A} (f : A → A) (l : list A) i x :
  l !! i = Some x → f x = x → alter f i l = l.
Proof.
  intros Hi Hf. apply list_eq. intros j.
  destruct (decide (i = j)) as [<-|Hne].
  - by rewrite list_lookup_alter_eq, Hi; simpl; rewrite Hf.
  - by rewrite list_lookup_alter_ne.
Qed.

Lemma lookup_set_parent self p v q :
  nodes (set_parent p v self) !! q =
  (λ n, if decide (p = q)
        then BST.mkNode (key n) v (left_child n) (right_child n) else n)
    <$> nodes self !! q.
Proof.
  unfold set_parent; simpl. rewrite list_lookup_alter.
  destruct (decide (p = q)) as [->|]; by destruct (nodes self !! q).
Qed.

Lemma lookup_set_left_child self p v q :
  nodes (set_left_child p v self) !! q =
  (λ n, if decide (p = q)
        then BST.mkNode (key n) (parent n) v (right_child n) else n)
    <$> nodes self !! q.
Proof.
  unfold set_left_child; simpl. rewrite list_lookup_alter.
  destruct (decide (p = q)) as [->|]; by destruct (nodes self !! q).
Qed.

Lemma lookup_set_right_child self p v q :
  nodes (set_right_child p v self) !! q =
  (λ n, if decide (p = q)
        then BST.mkNode (key n) (parent n) (left_child n) v else n)
    <$> nodes self !! q.
Proof.
  unfold set_right_child; simpl. rewrite list_lookup_alter.
  destruct (decide (p = q)) as [->|]; by destruct (nodes self !! q).
Qed.

(** Writing back the reference a field already holds changes nothing. *)
Lemma set_left_child_same self r rn v :
  nodes self !! r = Some rn → left_child rn = v →
  set_left_child r v self = self.
Proof.
  intros Hr <-. unfold set_left_child, with_nodes.
  erewrite alter_same; [by destruct self|done|by destruct rn].
Qed.

Lemma set_right_child_same self r rn v :
  nodes self !! r = Some rn → right_child rn = v →
  set_right_child r v self = self.
Proof.
  intros Hr <-. unfold set_right_child, with_nodes.
  erewrite alter_same; [by destruct self|done|by destruct rn].
Qed.

Lemma set_root_same self v : root self = v → set_root v self = self.
Proof. intros <-. by destruct self. Qed.

(** Attaching succeeds wherever the loop has stopped. *)
Lemma attach_after_loop self new_node q qn nn :
  nodes self !! q = Some qn → nodes self !! new_node = Some nn →
  attach (set_parent new_node (Some q) self) new_node q =
  (Ok new_node,
   if (cmp_fn self (key nn) (key qn) =? CMPValues.LESS)%Z
   then set_left_child q (Some new_node) (set_parent new_node (Some q) self)
   else set_right_child q (Some new_node)
          (set_parent new_node (Some q) self)).
Proof.
  intros Hq Hnn. unfold attach. rewrite !lookup_set_parent, Hq, Hnn. simpl.
  rewrite decide_True by done.
  destruct (decide (new_node = q)); simpl; by destruct (_ =? _)%Z.
Qed.

(** [recursive_insert] on a non-empty subtree does what the loop followed by
    the attachment does, and returns the subtree's root. *)
Lemma recursive_insert_spec fuel self new_node r par :
  match iterative_insert_loop fuel self new_node par (Some r) with
  | Raise e => recursive_insert fuel self new_node (Some r) par = (Raise e, self)
  | Ok None => False
  | Ok (Some q) =>
      recursive_insert fuel self new_node (Some r) par
      = (Ok r, (attach (set_parent new_node (Some q) self) new_node q).2)
  end.
Proof.
  revert r par. induction fuel as [|fuel IH]; intros r par; simpl; [done|].
  destruct (nodes self !! new_node) as [nn|] eqn:Hnn; [|done].
  destruct (nodes self !! r) as [rn|] eqn:Hrn; [|done].
  destruct (_ =? _)%Z eqn:Hcmp.
  - destruct (left_child rn) as [c|] eqn:Hc.
    + specialize (IH c (Some r)).
      destruct (iterative_insert_loop fuel self new_node (Some r) (Some c))
        as [[q|]|e] eqn:Hloop; [|done|by rewrite IH].
      rewrite IH. f_equal.
      apply insert_loop_end in Hloop
        as (q' & qn & nn' & [= <-] & Hq & Hnn' & Hfree).
      simplify_eq. erewrite attach_after_loop by done.
      assert (q ≠ r) as Hne.
      { intros ->. simplify_eq. by rewrite Hcmp, Hc in Hfree. }
      simpl. destruct (_ =? _)%Z;
        (eapply set_left_child_same;
         [rewrite ?lookup_set_left_child, ?lookup_set_right_child,
            lookup_set_parent, Hrn; simpl; rewrite decide_False by done;
          reflexivity|]);
        by destruct (decide (new_node = r)).
    + rewrite insert_loop_None, recursive_insert_None. f_equal.
      rewrite (attach_after_loop _ _ _ rn nn) by done. by rewrite Hcmp.
  - destruct (right_child rn) as [c|] eqn:Hc.
    + specialize (IH c (Some r)).
      destruct (iterative_insert_loop fuel self new_node (Some r) (Some c))
        as [[q|]|e] eqn:Hloop; [|done|by rewrite IH].
      rewrite IH. f_equal.
      apply insert_loop_end in Hloop
        as (q' & qn & nn' & [= <-] & Hq & Hnn' & Hfree).
      simplify_eq. erewrite attach_after_loop by done.
      assert (q ≠ r) as Hne.
      { intros ->. simplify_eq. by rewrite Hcmp, Hc in Hfree. }
      simpl. destruct (_ =? _)%Z;
        (eapply set_right_child_same;
         [rewrite ?lookup_set_left_child, ?lookup_set_right_child,
            lookup_set_parent, Hrn; simpl; rewrite decide_False by done;
          reflexivity|]);
        by destruct (decide (new_node = r)).
    + rewrite insert_loop_None, recursive_insert_None. f_equal.
      rewrite (attach_after_loop _ _ _ rn nn) by done. by rewrite Hcmp.
Qed.

(** The two modes of [insert_node] are the same function of the state. *)
Lemma insert_node_modes_equal fuel self k :
  insert_node fuel self k (PyStr "r") = insert_node fuel self k (PyStr "i").
Proof.
  unfold insert_node, alloc. cbn [negb isinstance_str py_eq_str bool_decide].
  simpl. set (self1 := with_nodes self _). set (new_node := length _).
  rewrite iterative_insert_unfold. change (root self) with (root self1).
  destruct (root self1) as [r|] eqn:Hroot.
  - pose proof (recursive_insert_spec fuel self1 new_node r None) as Hrec.
    destruct (iterative_insert_loop fuel self1 new_node None (Some r))
      as [[q|]|e] eqn:Hloop; [|done|by rewrite Hrec].
    rewrite Hrec.
    apply insert_loop_end in Hloop as (? & qn & nn & [= <-] & Hq & Hnn & _).
    erewrite attach_after_loop by done. simpl. f_equal.
    apply set_root_same. by destruct (_ =? _)%Z.
  - by rewrite recursive_insert_None, insert_loop_None.
Qed.

(** ** Insertion keeps the tree a tree *)

Lemma rep_ext h h' par tr :
  (∀ x, x ∈ ptrs tr → h' !! x = h !! x) → rep h par tr → rep h' par tr.
Proof.
  revert par. induction tr as [|l IHl p r IHr]; intros par Hext; simpl;
    [done|].
  intros (n & Hn & Hpar & Hl & Hr & Hrl & Hrr). exists n. split_and!; auto.
  - rewrite Hext; [done|]. simpl. apply elem_of_app. right. by left.
  - apply IHl; [|done]. intros x Hx. apply Hext. simpl.
    apply elem_of_app. by left.
  - apply IHr; [|done]. intros x Hx. apply Hext. simpl.
    apply elem_of_app. right. by right.
Qed.

Lemma rep_valid h par tr p : rep h par tr → p ∈ ptrs tr → p < length h.
Proof.
  revert par. induction tr as [|l IHl q r IHr]; intros par; simpl.
  - intros _ Hin. by apply elem_of_nil in Hin.
  - intros (n & Hn & _ & _ & _ & Hrl & Hrr).
    intros [Hin|[->|Hin]%elem_of_cons]%elem_of_app; eauto.
    by eapply lookup_lt_Some.
Qed.

Lemma rep_lookup h par tr p : rep h par tr → p ∈ ptrs tr → is_Some (h !! p).
Proof.
  intros Hrep Hin. apply lookup_lt_is_Some. by eapply rep_valid.
Qed.

Lemma ptrs_tree_insert go_left new tr :
  ptrs (tree_insert go_left new tr) ≡ₚ new :: ptrs tr.
Proof.
  induction tr as [|l IHl p r IHr]; simpl; [done|].
  destruct (go_left p); simpl.
  - by rewrite IHl.
  - rewrite IHr, (perm_swap new p). symmetry. apply Permutation_middle.
Qed.

Lemma size_tree_insert go_left new tr :
  size (tree_insert go_left new tr) = S (size tr).
Proof.
  induction tr as [|l IHl p r IHr]; simpl; [done|].
  destruct (go_left p); simpl; lia.
Qed.

Lemma root_of_tree_insert go_left new l p r :
  root_of (tree_insert go_left new (Br l p r)) = Some p.
Proof. simpl. by destruct (go_left p). Qed.

Lemma tree_insert_ext f g new tr :
  (∀ p, p ∈ ptrs tr → f p = g p) →
  tree_insert f new tr = tree_insert g new tr.
Proof.
  induction tr as [|l IHl p r IHr]; intros Hext; simpl; [done|].
  rewrite <- (Hext p) by (simpl; apply elem_of_app; right; by left).
  rewrite IHl, IHr; [done| |]; intros q Hq; apply Hext; simpl;
    apply elem_of_app; [right; by right|by left].
Qed.

(** The store after an attachment differs from the one before at the new
    node and at the node it was attached to only. *)
Lemma attach_frame self new_node q x :
  is_Some (nodes self !! q) → is_Some (nodes self !! new_node) →
  x ≠ q → x ≠ new_node →
  nodes (attach (set_parent new_node (Some q) self) new_node q).2 !! x
  = nodes self !! x.
Proof.
  intros [qn Hq] [nn Hnn] Hxq Hxn. erewrite attach_after_loop by done. simpl.
  destruct (_ =? _)%Z;
    rewrite ?lookup_set_left_child, ?lookup_set_right_child,
      lookup_set_parent;
    destruct (nodes self !! x); simpl; try done;
    by rewrite !decide_False by done.
Qed.

(** Inserting below a non-empty subtree: the loop stops inside it, and after
    the attachment the store holds the subtree with the new node added. *)
Lemma insert_below self new_node nn tr par pv fuel :
  nodes self !! new_node = Some nn →
  left_child nn = None → right_child nn = None →
  new_node ∉ ptrs tr → NoDup (ptrs tr) →
  rep (nodes self) par tr → size tr ≤ fuel →
  match tr with
  | Leaf => True
  | Br _ p _ =>
      ∃ q, iterative_insert_loop fuel self new_node pv (Some p) = Ok (Some q) ∧
           q ∈ ptrs tr ∧
           rep (nodes (attach (set_parent new_node (Some q) self) new_node q).2)
             par (tree_insert (less self (key nn)) new_node tr)
  end.
Proof.
  intros Hnn Hnl Hnr. revert par pv fuel.
  induction tr as [|l IHl p r IHr]; intros par pv fuel Hnew Hnd Hrep Hfuel;
    [done|].
  simpl in Hnew, Hnd, Hrep, Hfuel.
  destruct Hrep as (n & Hn & Hpar & Hl & Hr & Hrl & Hrr).
  apply NoDup_app in Hnd as (Hndl & Hdisj & [Hpr Hndr]%NoDup_cons).
  apply not_elem_of_app in Hnew as [Hnewl [Hnewp Hnewr]%not_elem_of_cons].
  assert (p ∉ ptrs l) as Hpl.
  { intros Hin. apply (Hdisj _ Hin). by left. }
  destruct fuel as [|fuel]; [lia|]. cbn [iterative_insert_loop tree_insert].
  rewrite Hnn, Hn. unfold less at 1. rewrite Hn.
  destruct (_ =? _)%Z eqn:Hcmp.
  - rewrite Hl. destruct l as [|l1 c l2].
    + simpl root_of. rewrite insert_loop_None. exists p. split; [done|].
      split; [by left|].
      pose proof (attach_frame self new_node p) as Hframe.
      erewrite attach_after_loop in * by done. rewrite Hcmp in *.
      cbn [tree_insert]. simpl snd in *.
      exists (BST.mkNode (key n) (parent n) (Some new_node) (right_child n)).
      split_and!; try done.
      * rewrite lookup_set_left_child, lookup_set_parent, Hn. simpl.
        by rewrite decide_True, decide_False by done.
      * exists (BST.mkNode (key nn) (Some p) None None).
        split_and!; try done.
        rewrite lookup_set_left_child, lookup_set_parent, Hnn. simpl.
        rewrite decide_False, decide_True by done. by rewrite Hnl, Hnr.
      * eapply rep_ext; [|done]. intros x Hx.
        apply Hframe; [by eexists|by eexists| |]; intros ->; done.
    + destruct (IHl (Some p) (Some p) fuel) as (q & Hloop & Hq & Hrep');
        [done|done|done|simpl in *; lia|].
      exists q. split; [done|]. split; [apply elem_of_app; by left|].
      assert (∀ x, x ∉ ptrs (Br l1 c l2) → x ≠ new_node →
        nodes (attach (set_parent new_node (Some q) self) new_node q).2 !! x
        = nodes self !! x) as Hframe.
      { intros x Hx Hxn.
        apply attach_frame;
          [exact (rep_lookup _ _ _ _ Hrl Hq)|by eexists| |done].
        intros ->. done. }
      exists n. split_and!; try done.
      * by rewrite Hframe.
      * by rewrite root_of_tree_insert.
      * eapply rep_ext; [|done]. intros x Hx. apply Hframe.
        -- intros Hin. apply (Hdisj _ Hin). by right.
        -- intros ->. done.
  - rewrite Hr. destruct r as [|r1 c r2].
    + simpl root_of. rewrite insert_loop_None. exists p. split; [done|].
      split; [apply elem_of_app; right; by left|].
      pose proof (attach_frame self new_node p) as Hframe.
      erewrite attach_after_loop in * by done. rewrite Hcmp in *.
      cbn [tree_insert]. simpl snd in *.
      exists (BST.mkNode (key n) (parent n) (left_child n) (Some new_node)).
      split_and!; try done.
      * rewrite lookup_set_right_child, lookup_set_parent, Hn. simpl.
        by rewrite decide_True, decide_False by done.
      * eapply rep_ext; [|done]. intros x Hx.
        apply Hframe; [by eexists|by eexists| |]; intros ->; done.
      * exists (BST.mkNode (key nn) (Some p) None None).
        split_and!; try done.
        rewrite lookup_set_right_child, lookup_set_parent, Hnn. simpl.
        rewrite decide_False, decide_True by done. by rewrite Hnl, Hnr.
    + destruct (IHr (Some p) (Some p) fuel) as (q & Hloop & Hq & Hrep');
        [done|done|done|simpl in *; lia|].
      exists q. split; [done|].
      split; [apply elem_of_app; right; by right|].
      assert (∀ x, x ∉ ptrs (Br r1 c r2) → x ≠ new_node →
        nodes (attach (set_parent new_node (Some q) self) new_node q).2 !! x
        = nodes self !! x) as Hframe.
      { intros x Hx Hxn.
        apply attach_frame;
          [exact (rep_lookup _ _ _ _ Hrr Hq)|by eexists| |done].
        intros ->. done. }
      exists n. split_and!; try done.
      * by rewrite Hframe.
      * by rewrite root_of_tree_insert.
      * eapply rep_ext; [|done]. intros x Hx. apply Hframe.
        -- intros Hin. by apply (Hdisj _ Hx); right.
        -- intros ->. done.
Qed.

(** No setter touches a key. *)
Lemma key_set_parent self p v x :
  key <$> nodes (set_parent p v self) !! x = key <$> nodes self !! x.
Proof.
  rewrite lookup_set_parent. destruct (nodes self !! x); simpl; [|done].
  by destruct (decide (p = x)).
Qed.

Lemma key_set_left_child self p v x :
  key <$> nodes (set_left_child p v self) !! x = key <$> nodes self !! x.
Proof.
  rewrite lookup_set_left_child. destruct (nodes self !! x); simpl; [|done].
  by destruct (decide (p = x)).
Qed.

Lemma key_set_right_child self p v x :
  key <$> nodes (set_right_child p v self) !! x = key <$> nodes self !! x.
Proof.
  rewrite lookup_set_right_child. destruct (nodes self !! x); simpl; [|done].
  by destruct (decide (p = x)).
Qed.

Lemma key_attach self new_node q x :
  key <$> nodes (attach self new_node q).2 !! x = key <$> nodes self !! x.
Proof.
  unfold attach. destruct (nodes self !! new_node); [|done].
  destruct (nodes self !! q); [|done].
  destruct (_ =? _)%Z; simpl;
    [apply key_set_left_child|apply key_set_right_child].
Qed.

Lemma attach_meta self new_node q :
  cmp_fn (attach self new_node q).2 = cmp_fn self ∧
  root (attach self new_node q).2 = root self.
Proof.
  unfold attach. destruct (nodes self !! new_node); [|done].
  destruct (nodes self !! q); [|done]. by destruct (_ =? _)%Z.
Qed.

Lemma less_same_keys self self' k p :
  cmp_fn self' = cmp_fn self →
  key <$> nodes self' !! p = key <$> nodes self !! p →
  less self' k p = less self k p.
Proof.
  unfold less. intros -> Hkey.
  destruct (nodes self' !! p) as [n|], (nodes self !! p) as [m|];
    simpl in Hkey; try done.
  injection Hkey as ->. done.
Qed.

(** An iterative insertion into a tree succeeds with fuel for the size of
    the tree, returns the new node and leaves the tree with the new node
    added at its place; no key of the tree changes. *)
Lemma insert_node_represents fuel self k tr :
  represents self tr → size tr ≤ fuel →
  ∃ self',
    insert_node fuel self k (PyStr "i") = (Ok (length (nodes self)), self') ∧
    represents self' (tree_insert (less self k) (length (nodes self)) tr) ∧
    cmp_fn self' = cmp_fn self ∧
    (∀ p, p < length (nodes self) →
          key <$> nodes self' !! p = key <$> nodes self !! p) ∧
    key <$> nodes self' !! length (nodes self) = Some k.
Proof.
  intros (Hroot & Hrep & Hnd) Hfuel.
  unfold insert_node, alloc. cbn [negb isinstance_str py_eq_str bool_decide].
  simpl. set (self1 := with_nodes self _). set (new_node := length _).
  rewrite iterative_insert_unfold. change (root self1) with (root self).
  assert (Hnew : nodes self1 !! new_node = Some (Node_init k)).
  { unfold self1, new_node; simpl.
    by rewrite lookup_app_r, Nat.sub_diag by lia. }
  assert (Hold : ∀ p, p < length (nodes self) →
                      nodes self1 !! p = nodes self !! p).
  { intros p Hp. unfold self1; simpl. by rewrite lookup_app_l. }
  assert (Hfresh : new_node ∉ ptrs tr).
  { intros Hin. apply (rep_valid _ _ _ _ Hrep) in Hin. unfold new_node in Hin.
    lia. }
  rewrite Hroot. destruct tr as [|l p r].
  - simpl root_of. rewrite insert_loop_None. eexists. split; [done|].
    split_and!; try done.
    + split_and!; [done| |apply NoDup_singleton].
      change (nodes (set_root ?a ?b)) with (nodes b). cbn [tree_insert rep].
      eexists. rewrite lookup_set_parent, Hnew. simpl.
      by rewrite decide_True by done.
    + intros p Hp. change (nodes (set_root ?a ?b)) with (nodes b).
      by rewrite key_set_parent, Hold.
    + change (nodes (set_root ?a ?b)) with (nodes b).
      by rewrite key_set_parent, Hnew.
  - destruct (insert_below self1 new_node (Node_init k) (Br l p r) None None
                fuel)
      as (q & Hloop & Hq & Hrep'); try done.
    { eapply rep_ext; [|done]. intros x Hx. apply Hold.
      by eapply rep_valid. }
    simpl root_of. rewrite Hloop.
    assert (is_Some (nodes self1 !! q)) as [qn Hqn].
    { rewrite Hold by (by eapply rep_valid). by eapply rep_lookup. }
    pose proof (attach_meta (set_parent new_node (Some q) self1) new_node q)
      as [Hcmp Hrt].
    pose proof (key_attach (set_parent new_node (Some q) self1) new_node q)
      as Hkeys.
    destruct (attach (set_parent new_node (Some q) self1) new_node q)
      as [res self'] eqn:Hattach.
    assert (res = Ok new_node) as ->.
    { erewrite attach_after_loop in Hattach by done. by simplify_eq. }
    simpl snd in *. exists self'. split; [done|]. split_and!.
    + unfold represents. split_and!.
      * rewrite Hrt, root_of_tree_insert. exact Hroot.
      * erewrite tree_insert_ext; [exact Hrep'|].
        intros x Hx. symmetry. apply less_same_keys; [done|].
        by rewrite Hold by (by eapply rep_valid).
      * rewrite ptrs_tree_insert. by apply NoDup_cons.
    + by rewrite Hcmp.
    + intros x Hx. by rewrite Hkeys, key_set_parent, Hold.
    + by rewrite Hkeys, key_set_parent, Hnew.
Qed.

Lemma bst_init_represents (cmp : K → K → Z) : represents (BST.init cmp) Leaf.
Proof. unfold represents; simpl. split_and!; try done. apply NoDup_nil_2. Qed.

Lemma insert_all_represents fuel self tr ks :
  represents self tr → size tr + length ks ≤ fuel →
  ∃ self' tr',
    insert_all fuel (PyStr "i") self ks = Ok self' ∧
    insert_all fuel (PyStr "r") self ks = Ok self' ∧
    represents self' tr' ∧ size tr' = size tr + length ks.
Proof.
  revert self tr. induction ks as [|k ks IH]; intros self tr Hrep Hfuel.
  - exists self, tr. simpl. split_and!; try done.
  - simpl in Hfuel.
    destruct (insert_node_represents fuel self k tr Hrep)
      as (self1 & Hins & Hrep1 & _); [lia|].
    destruct (IH self1 _ Hrep1) as (self' & tr' & Hi & Hr & Hrep' & Hsize).
    { rewrite size_tree_insert. lia. }
    exists self', tr'. cbn [insert_all].
    rewrite insert_node_modes_equal, Hins. split_and!; try done.
    rewrite Hsize, size_tree_insert. simpl. lia.
Qed.

(** C4: the keys [ks] inserted one by one into an empty tree, all
    iteratively or all recursively, give the same state: the same nodes
    with the same keys, children and parents, hanging from the same root,
    and these nodes form a tree with one node per key. *)
Theorem bst_insert_modes_same_tree (cmp : K → K → Z) (ks : list K) fuel :
  length ks ≤ fuel →
  ∃ self tr,
    insert_all fuel (PyStr "i") (BST.init cmp) ks = Ok self ∧
    insert_all fuel (PyStr "r") (BST.init cmp) ks = Ok self ∧
    represents self tr ∧ size tr = length ks.
Proof.
  intros Hfuel.
  apply (insert_all_represents fuel _ Leaf ks (bst_init_represents cmp)).
  simpl. lia.
Qed.

(** ** The descent of an insertion *)

Lemma in_subtree_ptrs self par tr p :
  rep (nodes self) par tr → in_subtree self (root_of tr) p → p ∈ ptrs tr.
Proof.
  intros Hrep Hin. remember (root_of tr) as o eqn:Ho.
  revert par tr Hrep Ho.
  induction Hin as [p|a an p Ha _ IH|a an p Ha _ IH]; intros par tr Hrep Ho;
    destruct tr as [|l q r]; simplify_eq/=;
    destruct Hrep as (n & Hn & _ & Hl & Hr & Hrl & Hrr); simplify_eq.
  - apply elem_of_app. right. by left.
  - apply elem_of_app. left. by eapply IH.
  - apply elem_of_app. right. right. by eapply IH.
Qed.

Lemma ptrs_in_subtree self par tr p :
  rep (nodes self) par tr → p ∈ ptrs tr → in_subtree self (root_of tr) p.
Proof.
  revert par. induction tr as [|l IHl q r IHr]; intros par; simpl.
  - intros _ Hin. by apply elem_of_nil in Hin.
  - intros (n & Hn & _ & Hl & Hr & Hrl & Hrr).
    intros [Hin|[->|Hin]%elem_of_cons]%elem_of_app.
    + eapply in_subtree_left; [done|]. rewrite Hl. eauto.
    + apply in_subtree_here.
    + eapply in_subtree_right; [done|]. rewrite Hr. eauto.
Qed.

(** What lies below a node of a tree lies in the tree. *)
Lemma in_subtree_child_ptrs self par tr a an x :
  rep (nodes self) par tr → a ∈ ptrs tr → nodes self !! a = Some an →
  in_subtree self (left_child an) x ∨ in_subtree self (right_child an) x →
  x ∈ ptrs tr.
Proof.
  revert par. induction tr as [|l IHl q r IHr]; intros par; simpl.
  - intros _ Hin. by apply elem_of_nil in Hin.
  - intros (n & Hn & _ & Hl & Hr & Hrl & Hrr).
    intros [Hin|[->|Hin]%elem_of_cons]%elem_of_app Han Hx.
    + apply elem_of_app. left. eauto.
    + simplify_eq. rewrite Hl, Hr in Hx. apply elem_of_app.
      destruct Hx as [Hx|Hx]; [left|right; right]; by eapply in_subtree_ptrs.
    + apply elem_of_app. right. right. eauto.
Qed.

Lemma in_subtree_None self x : ¬ in_subtree self None x.
Proof. inversion 1. Qed.

(** In the tree with the new node added, the new node is below the left
    child of a node only where [go_left] holds, and below the right child
    only where it fails. *)
Lemma tree_insert_descent self go_left new tr par a an :
  new ∉ ptrs tr →
  rep (nodes self) par (tree_insert go_left new tr) →
  a ∈ ptrs (tree_insert go_left new tr) → nodes self !! a = Some an →
  (in_subtree self (left_child an) new → go_left a = true) ∧
  (in_subtree self (right_child an) new → go_left a = false).
Proof.
  revert par. induction tr as [|l IHl p r IHr]; intros par Hnew; simpl.
  - intros (n & Hn & _ & Hl & Hr & _) ->%list_elem_of_singleton Han.
    simplify_eq. rewrite Hl, Hr.
    split; intros []%in_subtree_None.
  - apply not_elem_of_app in Hnew as [Hnewl [Hnewp Hnewr]%not_elem_of_cons].
    destruct (go_left p) eqn:Hp; simpl;
      intros (n & Hn & _ & Hl & Hr & Hrl & Hrr);
      intros [Hin|[->|Hin]%elem_of_cons]%elem_of_app Han; eauto.
    + simplify_eq. split; [done|]. rewrite Hr.
      intros Hx. by eapply in_subtree_ptrs in Hx.
    + split; intros Hx; exfalso; apply Hnewr;
        eapply in_subtree_child_ptrs; eauto.
    + split; intros Hx; exfalso; apply Hnewl;
        eapply in_subtree_child_ptrs; eauto.
    + simplify_eq. split; [|done]. rewrite Hl.
      intros Hx. by eapply in_subtree_ptrs in Hx.
Qed.

(** C5: an insertion into a tree, in either mode, returns the new node, a
    node of the resulting tree that carries the new key, and at every node
    above the new one the descent went left exactly when the comparator
    reported the new key LESS than the key of that node and right otherwise;
    a key that compares EQUAL to the key of a node above is in that node's
    right subtree. *)
Theorem bst_insert_descent fuel self tr k (mode : string) :
  represents self tr → size tr ≤ fuel → mode = "i" ∨ mode = "r" →
  ∃ new self',
    insert_node fuel self k (PyStr mode) = (Ok new, self') ∧
    key_of self' (Some new) = Some k ∧
    in_subtree self' (root self') new ∧
    descent_rule self' k new.
Proof.
  intros Hrep Hfuel Hmode.
  destruct (insert_node_represents fuel self k tr Hrep Hfuel)
    as (self' & Hins & Hrep' & Hcmp & Hkeys & Hkey).
  exists (length (nodes self)), self'. split.
  { destruct Hmode as [->| ->]; [done|]. by rewrite insert_node_modes_equal. }
  set (new := length (nodes self)) in *.
  assert (Hfresh : new ∉ ptrs tr).
  { intros Hin. destruct Hrep as (_ & Hr & _).
    apply (rep_valid _ _ _ _ Hr) in Hin. unfold new in Hin. lia. }
  erewrite (tree_insert_ext _ (less self' k)) in Hrep'.
  2:{ intros p Hp. symmetry. apply less_same_keys; [done|]. apply Hkeys.
      destruct Hrep as (_ & Hr & _). by eapply rep_valid. }
  destruct Hrep' as (Hroot' & Hrep' & Hnd'). split; [done|]. split.
  { rewrite Hroot'. eapply ptrs_in_subtree; [done|].
    rewrite ptrs_tree_insert. by left. }
  intros a an Ha Han Hbelow. rewrite Hroot' in Ha.
  apply (in_subtree_ptrs _ _ _ _ Hrep') in Ha.
  destruct (tree_insert_descent _ _ _ _ _ _ _ Hfresh Hrep' Ha Han)
    as [Hleft Hright].
  unfold less in Hleft, Hright. rewrite Han in Hleft, Hright.
  rewrite Z.eqb_eq in Hleft. rewrite Z.eqb_neq in Hright.
  split_and!.
  - split; [done|]. intros Hless. by destruct Hbelow as [?|?%Hright].
  - split; [done|]. intros Hnl. by destruct Hbelow as [?%Hleft|?].
  - intros Heq. destruct Hbelow as [Hl%Hleft|?]; [|done].
    rewrite Heq in Hl. done.
Qed.

(** ** Predecessor and successor *)

Lemma min_node_loop_unfold fuel self p :
  min_node_loop fuel self p =
  match nodes self !! p with
  | None => Raise DanglingRef
  | Some n =>
      match left_child n with
      | None => Ok p
      | Some l =>
          match fuel with
          | O => Raise OutOfFuel
          | S fuel => min_node_loop fuel self l
          end
      end
  end.
Proof. by destruct fuel. Qed.

Lemma max_node_loop_unfold fuel self p :
  max_node_loop fuel self p =
  match nodes self !! p with
  | None => Raise DanglingRef
  | Some n =>
      match right_child n with
      | None => Ok p
      | Some r =>
          match fuel with
          | O => Raise OutOfFuel
          | S fuel => max_node_loop fuel self r
          end
      end
  end.
Proof. by destruct fuel. Qed.

Lemma predecessor_loop_unfold fuel self node o :
  predecessor_loop fuel self node o =
  match o with
  | None => Ok None
  | Some q =>
      match nodes self !! q with
      | None => Raise DanglingRef
      | Some qn =>
          if bool_decide (left_child qn = Some node) then
            match fuel with
            | O => Raise OutOfFuel
            | S fuel => predecessor_loop fuel self q (parent qn)
            end
          else Ok (Some q)
      end
  end.
Proof. by destruct fuel. Qed.

Lemma successor_loop_unfold fuel self node o :
  successor_loop fuel self node o =
  match o with
  | None => Ok None
  | Some q =>
      match nodes self !! q with
      | None => Raise DanglingRef
      | Some qn =>
          if bool_decide (right_child qn = Some node) then
            match fuel with
            | O => Raise OutOfFuel
            | S fuel => successor_loop fuel self q (parent qn)
            end
          else Ok (Some q)
      end
  end.
Proof. by destruct fuel. Qed.

Lemma ldepth_le_size tr : ldepth tr ≤ size tr.
Proof.
  induction tr as [|l IHl p r _]; simpl; [done|].
  destruct l; simpl in *; lia.
Qed.

Lemma rdepth_le_size tr : rdepth tr ≤ size tr.
Proof.
  induction tr as [|l _ p r IHr]; simpl; [done|].
  destruct r; simpl in *; lia.
Qed.

Lemma leftmost_elem_of l p r : leftmost l p ∈ ptrs (Br l p r).
Proof.
  revert p r. induction l as [|l1 IH c l2 _]; intros p r; simpl.
  - by left.
  - apply elem_of_app. left. apply IH.
Qed.

Lemma rightmost_elem_of l p r : rightmost r p ∈ ptrs (Br l p r).
Proof.
  revert l p. induction r as [|r1 _ c r2 IH]; intros l p; simpl.
  - apply elem_of_app. right. by left.
  - apply elem_of_app. right. right. apply IH.
Qed.

(** [min_node] walks down to the leftmost node, [max_node] to the rightmost
    one. *)
Lemma min_node_loop_leftmost self par l p r f :
  rep (nodes self) par (Br l p r) →
  min_node_loop (ldepth (Br l p r) + f) self p = Ok (leftmost l p).
Proof.
  revert par p r. induction l as [|l1 IH c l2 _]; intros par p r;
    intros (n & Hn & _ & Hl & _ & Hrl & _);
    rewrite min_node_loop_unfold, Hn, Hl; [done|].
  cbn [root_of ldepth leftmost plus]. by eapply IH.
Qed.

Lemma max_node_loop_rightmost self par l p r f :
  rep (nodes self) par (Br l p r) →
  max_node_loop (rdepth (Br l p r) + f) self p = Ok (rightmost r p).
Proof.
  revert par p l. induction r as [|r1 _ c r2 IH]; intros par p l;
    intros (n & Hn & _ & _ & Hr & _ & Hrr);
    rewrite max_node_loop_unfold, Hn, Hr; [done|].
  cbn [root_of rdepth rightmost plus]. by eapply IH.
Qed.

(** From the leftmost node of a subtree, the upward loop of
    [predecessor_node] climbs to the root of the subtree. *)
Lemma predecessor_loop_climb self par l p r :
  rep (nodes self) par (Br l p r) →
  ∃ sn, nodes self !! leftmost l p = Some sn ∧ left_child sn = None ∧
    ∀ f, predecessor_loop (ldepth (Br l p r) + f) self (leftmost l p)
           (parent sn)
         = predecessor_loop f self p par.
Proof.
  revert par p r. induction l as [|l1 IH c l2 _]; intros par p r;
    intros (n & Hn & Hpar & Hl & _ & Hrl & _).
  - exists n. split_and!; try done. intros f. simpl. by rewrite Hpar.
  - destruct (IH (Some p) c l2 Hrl) as (sn & Hsn & Hsl & Hclimb).
    exists sn. split_and!; try done. intros f.
    change (ldepth (Br (Br l1 c l2) p r)) with (S (ldepth (Br l1 c l2))).
    change (leftmost (Br l1 c l2) p) with (leftmost l1 c).
    rewrite Nat.add_succ_comm, Hclimb.
    rewrite predecessor_loop_unfold, Hn, Hl. simpl.
    by rewrite bool_decide_eq_true_2, Hpar by done.
Qed.

(** From the rightmost node of a subtree, the upward loop of
    [successor_node] climbs to the root of the subtree. *)
Lemma successor_loop_climb self par l p r :
  rep (nodes self) par (Br l p r) →
  ∃ sn, nodes self !! rightmost r p = Some sn ∧ right_child sn = None ∧
    ∀ f, successor_loop (rdepth (Br l p r) + f) self (rightmost r p)
           (parent sn)
         = successor_loop f self p par.
Proof.
  revert par p l. induction r as [|r1 _ c r2 IH]; intros par p l;
    intros (n & Hn & Hpar & _ & Hr & _ & Hrr).
  - exists n. split_and!; try done. intros f. simpl. by rewrite Hpar.
  - destruct (IH (Some p) c r1 Hrr) as (sn & Hsn & Hsr & Hclimb).
    exists sn. split_and!; try done. intros f.
    change (rdepth (Br l p (Br r1 c r2))) with (S (rdepth (Br r1 c r2))).
    change (rightmost (Br r1 c r2) p) with (rightmost r2 c).
    rewrite Nat.add_succ_comm, Hclimb.
    rewrite successor_loop_unfold, Hn, Hr. simpl.
    by rewrite bool_decide_eq_true_2, Hpar by done.
Qed.

Lemma root_not_in_sibling l r c :
  (∀ x, x ∈ ptrs l → x ∉ ptrs r) → c ∈ ptrs l → root_of r ≠ Some c.
Proof.
  intros Hdisj Hc Hroot. destruct r as [|r1 c' r2]; simplify_eq/=.
  apply (Hdisj c Hc). apply elem_of_app. right. by left.
Qed.

(** The heart of the round trip, by induction on the subtree [tr] that
    holds [n].  When [n] has a right child, its successor is found below it
    and the predecessor of that node is [n].  Otherwise the upward loop of
    [successor_node] either leaves [tr] through its root, and then [n] is the
    rightmost node of [tr], or it stops inside [tr] at a node whose
    predecessor is [n]. *)
Lemma successor_predecessor_subtree self tr par fuel n nn :
  rep (nodes self) par tr → NoDup (ptrs tr) → size tr ≤ fuel →
  n ∈ ptrs tr → nodes self !! n = Some nn →
  match right_child nn with
  | Some r =>
      ∃ s, min_node_loop fuel self r = Ok s ∧
           predecessor_node fuel self (Some s) = Ok (Some n)
  | None =>
      (∃ l p r, tr = Br l p r ∧ n = rightmost r p ∧
         ∀ f, successor_loop (rdepth tr + f) self n (parent nn)
              = successor_loop f self p par) ∨
      (∃ s, successor_loop fuel self n (parent nn) = Ok (Some s) ∧
            predecessor_node fuel self (Some s) = Ok (Some n))
  end.
Proof.
  revert par. induction tr as [|l IHl p r IHr]; intros par Hrep Hnd Hfuel Hin;
    [by apply elem_of_nil in Hin|].
  intros Hnn. pose proof Hrep as (pn & Hp & Hpar & Hl & Hr & Hrl & Hrr).
  simpl in Hnd, Hfuel, Hin.
  apply NoDup_app in Hnd as (Hndl & Hdisj & [Hpr Hndr]%NoDup_cons).
  assert (Hlr : ∀ x, x ∈ ptrs l → x ∉ ptrs r).
  { intros x Hx Hxr. apply (Hdisj x Hx). by right. }
  apply elem_of_app in Hin as [Hin|[->|Hin]%elem_of_cons].
  - (* [n] is in the left subtree *)
    specialize (IHl (Some p) Hrl Hndl ltac:(lia) Hin Hnn).
    destruct (right_child nn) as [c|]; [done|]. right.
    destruct IHl as [(l1 & c & l2 & -> & -> & Hclimb)|Hstop]; [|done].
    exists p. split.
    + pose proof (rdepth_le_size (Br l1 c l2)) as Hd.
      replace fuel with (rdepth (Br l1 c l2) + (fuel - rdepth (Br l1 c l2)))
        by lia.
      rewrite Hclimb, successor_loop_unfold, Hp.
      rewrite bool_decide_eq_false_2; [done|]. rewrite Hr.
      apply root_not_in_sibling with (Br l1 c l2); [done|].
      simpl. apply elem_of_app. right. by left.
    + unfold predecessor_node. rewrite Hp, Hl. simpl.
      pose proof (rdepth_le_size (Br l1 c l2)) as Hd.
      replace fuel with (rdepth (Br l1 c l2) + (fuel - rdepth (Br l1 c l2)))
        by lia.
      by erewrite max_node_loop_rightmost by done.
  - (* [n] is the root *)
    simplify_eq. rewrite Hr. destruct r as [|r1 c r2]; simpl root_of.
    + left. exists l, p, Leaf. split_and!; try done.
    + destruct (predecessor_loop_climb self (Some p) r1 c r2 Hrr)
        as (sn & Hsn & Hsl & Hclimb).
      pose proof (ldepth_le_size (Br r1 c r2)) as Hd.
      exists (leftmost r1 c). split.
      * replace fuel
          with (ldepth (Br r1 c r2) + (fuel - ldepth (Br r1 c r2))) by lia.
        by erewrite min_node_loop_leftmost by done.
      * unfold predecessor_node. rewrite Hsn, Hsl.
        replace fuel
          with (ldepth (Br r1 c r2) + (fuel - ldepth (Br r1 c r2))) by lia.
        rewrite Hclimb, predecessor_loop_unfold, Hnn.
        rewrite bool_decide_eq_false_2; [done|]. rewrite Hl.
        apply root_not_in_sibling with (Br r1 c r2).
        -- intros x Hx Hxl. by apply (Hlr x Hxl).
        -- simpl. apply elem_of_app. right. by left.
  - (* [n] is in the right subtree *)
    specialize (IHr (Some p) Hrr Hndr ltac:(lia) Hin Hnn).
    destruct (right_child nn) as [c|]; [done|].
    destruct IHr as [(r1 & c & r2 & -> & -> & Hclimb)|Hstop]; [|by right].
    left. exists l, p, (Br r1 c r2). split_and!; try done. intros f.
    change (rdepth (Br l p (Br r1 c r2))) with (S (rdepth (Br r1 c r2))).
    rewrite Nat.add_succ_comm, Hclimb, successor_loop_unfold, Hp, Hr. simpl.
    by rewrite bool_decide_eq_true_2, Hpar by done.
Qed.

(** C6: for a node [n] of a tree, [successor_node] returns, and when it
    returns a node [s] then [predecessor_node] of [s] returns [n]. *)
Theorem bst_predecessor_of_successor self tr fuel n :
  represents self tr → size tr ≤ fuel → in_subtree self (root self) n →
  ∃ o, successor_node fuel self (Some n) = Ok o ∧
       ∀ s, o = Some s → predecessor_node fuel self (Some s) = Ok (Some n).
Proof.
  intros (Hroot & Hrep & Hnd) Hfuel Hin. rewrite Hroot in Hin.
  apply (in_subtree_ptrs _ _ _ _ Hrep) in Hin.
  destruct (rep_lookup _ _ _ _ Hrep Hin) as [nn Hnn].
  pose proof (successor_predecessor_subtree self tr None fuel n nn
                Hrep Hnd Hfuel Hin Hnn) as Hsub.
  unfold successor_node. rewrite Hnn.
  destruct (right_child nn) as [r|].
  - destruct Hsub as (s & Hmin & Hpred). simpl. rewrite Hmin.
    exists (Some s). split; [done|]. by intros ? [= <-].
  - destruct Hsub as [(l & p & r & -> & -> & Hclimb)|(s & Hsucc & Hpred)].
    + exists None. split; [|done].
      pose proof (rdepth_le_size (Br l p r)) as Hd.
      replace fuel with (rdepth (Br l p r) + (fuel - rdepth (Br l p r)))
        by lia.
      rewrite Hclimb. by rewrite successor_loop_unfold.
    + exists (Some s). split; [done|]. by intros ? [= <-].
Qed.

End BST_facts.

(** ** Deletion keeps the tree a tree *)

Section BST_delete.
Context {K : Type}.
Implicit Types (self : BST.t K) (h : list (BST.Node K)) (tr : BST.tree).
Import BST.

Lemma get_Some self p n : nodes self !! p = Some n → get self p = Ok n.
Proof. unfold get. by intros ->. Qed.

Lemma lookup_set_parent_ne self p v q :
  p ≠ q → nodes (set_parent p v self) !! q = nodes self !! q.
Proof. intros. unfold set_parent; simpl. by apply list_lookup_alter_ne. Qed.

Lemma lookup_set_left_child_ne self p v q :
  p ≠ q → nodes (set_left_child p v self) !! q = nodes self !! q.
Proof. intros. unfold set_left_child; simpl. by apply list_lookup_alter_ne. Qed.

Lemma lookup_set_right_child_ne self p v q :
  p ≠ q → nodes (set_right_child p v self) !! q = nodes self !! q.
Proof.
  intros. unfold set_right_child; simpl. by apply list_lookup_alter_ne.
Qed.

Lemma lookup_set_parent_eq self p v n :
  nodes self !! p = Some n →
  nodes (set_parent p v self) !! p
  = Some (BST.mkNode (key n) v (left_child n) (right_child n)).
Proof.
  intros Hp. unfold set_parent; simpl. by rewrite list_lookup_alter_eq, Hp.
Qed.

Lemma lookup_set_left_child_eq self p v n :
  nodes self !! p = Some n →
  nodes (set_left_child p v self) !! p
  = Some (BST.mkNode (key n) (parent n) v (right_child n)).
Proof.
  intros Hp. unfold set_left_child; simpl.
  by rewrite list_lookup_alter_eq, Hp.
Qed.

Lemma lookup_set_right_child_eq self p v n :
  nodes self !! p = Some n →
  nodes (set_right_child p v self) !! p
  = Some (BST.mkNode (key n) (parent n) (left_child n) v).
Proof.
  intros Hp. unfold set_right_child; simpl.
  by rewrite list_lookup_alter_eq, Hp.
Qed.

Lemma lookup_replace_child_ne self q n1 o2 x :
  q ≠ x → nodes (replace_child q n1 o2 self) !! x = nodes self !! x.
Proof.
  intros Hne. unfold replace_child. destruct (nodes self !! q); [|done].
  destruct (bool_decide _);
    [by apply lookup_set_left_child_ne|by apply lookup_set_right_child_ne].
Qed.

Lemma lookup_relink_ne self par n1 o2 x :
  par ≠ Some x → nodes (relink par n1 o2 self) !! x = nodes self !! x.
Proof.
  intros Hne. destruct par as [q|]; simpl; [|done].
  apply lookup_replace_child_ne. congruence.
Qed.

Lemma lookup_set_parent_opt_ne self o v x :
  o ≠ Some x → nodes (set_parent_opt o v self) !! x = nodes self !! x.
Proof.
  intros Hne. destruct o as [p|]; simpl; [|done].
  apply lookup_set_parent_ne. congruence.
Qed.

Lemma lookup_set_parent_opt self o v x :
  nodes (set_parent_opt o v self) !! x =
  (λ n, if decide (o = Some x)
        then BST.mkNode (key n) v (left_child n) (right_child n) else n)
    <$> nodes self !! x.
Proof.
  destruct o as [p|]; cbn [set_parent_opt].
  - rewrite lookup_set_parent. destruct (nodes self !! x); simpl; [|done].
    by repeat case_decide; simplify_eq.
  - by destruct (nodes self !! x).
Qed.

Lemma lookup_replace_child self q n1 o2 x :
  nodes (replace_child q n1 o2 self) !! x =
  (λ n, if decide (q = x)
        then if bool_decide (left_child n = Some n1)
             then BST.mkNode (key n) (parent n) o2 (right_child n)
             else BST.mkNode (key n) (parent n) (left_child n) o2
        else n)
    <$> nodes self !! x.
Proof.
  unfold replace_child. destruct (decide (q = x)) as [->|Hne].
  - destruct (nodes self !! x) as [n|] eqn:Hx; simpl; [|by rewrite Hx].
    destruct (bool_decide _);
      rewrite ?lookup_set_left_child, ?lookup_set_right_child, Hx; simpl;
      by rewrite decide_True.
  - destruct (nodes self !! q) as [qn|]; [|by destruct (nodes self !! x)].
    destruct (bool_decide _);
      rewrite ?lookup_set_left_child, ?lookup_set_right_child;
      destruct (nodes self !! x); simpl; try done; by rewrite decide_False.
Qed.

Lemma lookup_relink self par n1 o2 x :
  nodes (relink par n1 o2 self) !! x =
  (λ n, if decide (par = Some x)
        then if bool_decide (left_child n = Some n1)
             then BST.mkNode (key n) (parent n) o2 (right_child n)
             else BST.mkNode (key n) (parent n) (left_child n) o2
        else n)
    <$> nodes self !! x.
Proof.
  destruct par as [q|]; cbn [relink].
  - rewrite lookup_replace_child. destruct (nodes self !! x); simpl; [|done].
    by repeat case_decide; simplify_eq.
  - change (nodes (set_root o2 self)) with (nodes self).
    by destruct (nodes self !! x).
Qed.

(** The setters keep the comparator and the number of allocated nodes; all
    but [set_root] and [relink] keep the root. *)
Lemma meta_set_parent self p v :
  cmp_fn (set_parent p v self) = cmp_fn self ∧
  root (set_parent p v self) = root self ∧
  length (nodes (set_parent p v self)) = length (nodes self).
Proof. unfold set_parent; simpl. by rewrite length_alter. Qed.

Lemma meta_set_left_child self p v :
  cmp_fn (set_left_child p v self) = cmp_fn self ∧
  root (set_left_child p v self) = root self ∧
  length (nodes (set_left_child p v self)) = length (nodes self).
Proof. unfold set_left_child; simpl. by rewrite length_alter. Qed.

Lemma meta_set_right_child self p v :
  cmp_fn (set_right_child p v self) = cmp_fn self ∧
  root (set_right_child p v self) = root self ∧
  length (nodes (set_right_child p v self)) = length (nodes self).
Proof. unfold set_right_child; simpl. by rewrite length_alter. Qed.

Lemma meta_set_parent_opt self o v :
  cmp_fn (set_parent_opt o v self) = cmp_fn self ∧
  root (set_parent_opt o v self) = root self ∧
  length (nodes (set_parent_opt o v self)) = length (nodes self).
Proof. destruct o; simpl; [apply meta_set_parent|done]. Qed.

Lemma meta_replace_child self q n1 o2 :
  cmp_fn (replace_child q n1 o2 self) = cmp_fn self ∧
  root (replace_child q n1 o2 self) = root self ∧
  length (nodes (replace_child q n1 o2 self)) = length (nodes self).
Proof.
  unfold replace_child. destruct (nodes self !! q); [|done].
  destruct (bool_decide _);
    [apply meta_set_left_child|apply meta_set_right_child].
Qed.

Lemma meta_relink self par n1 o2 :
  cmp_fn (relink par n1 o2 self) = cmp_fn self ∧
  root (relink par n1 o2 self)
    = match par with None => o2 | Some _ => root self end ∧
  length (nodes (relink par n1 o2 self)) = length (nodes self).
Proof. destruct par; simpl; [apply meta_replace_child|done]. Qed.

(** [__transplant_node] as the composition of its two halves. *)
Lemma transplant_node_spec self n1 nn1 o2 :
  nodes self !! n1 = Some nn1 →
  (∀ q, parent nn1 = Some q → q ≠ n1 ∧ is_Some (nodes self !! q)) →
  transplant_node self n1 o2
  = Ok (set_parent_opt o2 (parent nn1) (relink (parent nn1) n1 o2 self)).
Proof.
  intros Hn1 Hpar. unfold transplant_node. rewrite (get_Some _ _ _ Hn1).
  cbn [mbind result_bind].
  destruct (parent nn1) as [q|] eqn:Hq; cbn [relink].
  - destruct (Hpar q eq_refl) as [Hne [qn Hqn]].
    unfold replace_child. rewrite (get_Some _ _ _ Hqn), Hqn.
    cbn [mbind result_bind].
    destruct (bool_decide _); cbn [mbind result_bind];
      (destruct o2 as [n2|]; [|done]); unfold get;
      rewrite ?lookup_set_left_child_ne, ?lookup_set_right_child_ne, Hn1
        by done;
      cbn [mbind result_bind]; by rewrite Hq.
  - destruct o2 as [n2|]; [|done]. unfold get. simpl.
    rewrite Hn1. cbn [mbind result_bind]. by rewrite Hq.
Qed.

(** Membership in the nodes of a tree, and what [NoDup] says about it. *)
Lemma elem_of_ptrs_l x l p r : x ∈ ptrs l → x ∈ ptrs (Br l p r).
Proof. intros. simpl. apply elem_of_app. by left. Qed.

Lemma elem_of_ptrs_root l p r : p ∈ ptrs (Br l p r).
Proof. simpl. apply elem_of_app. right. by left. Qed.

Lemma elem_of_ptrs_r x l p r : x ∈ ptrs r → x ∈ ptrs (Br l p r).
Proof. intros. simpl. apply elem_of_app. right. by right. Qed.

Lemma elem_of_ptrs_Br x l p r :
  x ∈ ptrs (Br l p r) → x ∈ ptrs l ∨ x = p ∨ x ∈ ptrs r.
Proof.
  simpl. intros [?|[?|?]%elem_of_cons]%elem_of_app; auto.
Qed.

Lemma NoDup_ptrs_l l p r : NoDup (ptrs (Br l p r)) → NoDup (ptrs l).
Proof. simpl. by intros (? & _ & _)%NoDup_app. Qed.

Lemma NoDup_ptrs_r l p r : NoDup (ptrs (Br l p r)) → NoDup (ptrs r).
Proof. simpl. by intros (_ & _ & [_ ?]%NoDup_cons)%NoDup_app. Qed.

Lemma NoDup_ptrs_lr x l p r :
  NoDup (ptrs (Br l p r)) → x ∈ ptrs l → x ∈ ptrs r → False.
Proof.
  simpl. intros (_ & Hd & _)%NoDup_app Hl Hr. apply (Hd x Hl). by right.
Qed.

Lemma NoDup_ptrs_root_l l p r :
  NoDup (ptrs (Br l p r)) → p ∈ ptrs l → False.
Proof.
  simpl. intros (_ & Hd & _)%NoDup_app Hl. apply (Hd p Hl). by left.
Qed.

Lemma NoDup_ptrs_root_r l p r :
  NoDup (ptrs (Br l p r)) → p ∈ ptrs r → False.
Proof. simpl. by intros (_ & _ & [? _]%NoDup_cons)%NoDup_app. Qed.

Lemma elem_of_ptrs_Leaf x : x ∈ ptrs Leaf → False.
Proof. apply elem_of_nil. Qed.

Create HintDb ptrs.
#[local] Hint Resolve elem_of_ptrs_l elem_of_ptrs_root elem_of_ptrs_r
  NoDup_ptrs_l NoDup_ptrs_r NoDup_ptrs_lr NoDup_ptrs_root_l NoDup_ptrs_root_r
  elem_of_ptrs_Leaf : ptrs.

(** Goals about membership and distinctness of nodes: after the equalities
    between nodes are substituted, a search with the lemmas above. *)
Ltac solve_ptrs :=
  repeat match goal with
         | x := _ : tree |- _ => subst x
         end;
  unfold not in *; intros; subst;
  repeat match goal with
         | |- _ ∧ _ => split
         end;
  intros; subst;
  first [ by eauto 7 with ptrs | exfalso; by eauto 7 with ptrs ].

(** A subtree moved below another parent: only the parent of its root
    changes. *)
Lemma rep_reparent h h' par par' tr :
  rep h par tr → NoDup (ptrs tr) →
  (∀ c nc, root_of tr = Some c → h !! c = Some nc →
     h' !! c
     = Some (BST.mkNode (key nc) par' (left_child nc) (right_child nc))) →
  (∀ x, x ∈ ptrs tr → root_of tr ≠ Some x → h' !! x = h !! x) →
  rep h' par' tr.
Proof.
  destruct tr as [|l c r]; [done|]. simpl.
  intros (nc & Hc & _ & Hl & Hr & Hrl & Hrr) Hnd Hroot Hrest.
  apply NoDup_app in Hnd as (_ & Hdisj & [Hcr _]%NoDup_cons).
  eexists. split; [by apply Hroot|]. simpl. split_and!; try done.
  - eapply rep_ext; [|done]. intros x Hx. apply Hrest.
    + apply elem_of_app. by left.
    + intros [= <-]. apply (Hdisj c Hx). by left.
  - eapply rep_ext; [|done]. intros x Hx. apply Hrest.
    + apply elem_of_app. right. by right.
    + intros [= <-]. done.
Qed.

Lemma root_of_remove_leftmost l1 c1 l2 p r :
  root_of (remove_leftmost (Br (Br l1 c1 l2) p r)) = Some p.
Proof. done. Qed.

(** The left spine of a subtree [Br t1 c t2] with [t1] non-empty: its
    leftmost node [m] has no left child and is the left child of its parent
    [pm], a node of the subtree; and a store [h'] that differs from [h] on
    the subtree as [delete_node] leaves it (the right child of [m] has taken
    the place of [m], the root [c] has the parent [par']) holds the subtree
    without [m]. *)
Lemma remove_leftmost_rep h par t1 c t2 :
  t1 ≠ Leaf → rep h par (Br t1 c t2) → NoDup (ptrs (Br t1 c t2)) →
  ∃ mn pm pmn,
    h !! leftmost t1 c = Some mn ∧ left_child mn = None ∧
    parent mn = Some pm ∧ h !! pm = Some pmn ∧
    left_child pmn = Some (leftmost t1 c) ∧
    leftmost t1 c ∈ ptrs t1 ∧ pm ∈ ptrs (Br t1 c t2) ∧ pm ≠ leftmost t1 c ∧
    (∀ mr, right_child mn = Some mr →
           mr ∈ ptrs t1 ∧ mr ≠ leftmost t1 c ∧ mr ≠ pm) ∧
    ∀ h' par',
      (∀ x nx, x ∈ ptrs (Br t1 c t2) → x ≠ leftmost t1 c → h !! x = Some nx →
         h' !! x
         = Some (BST.mkNode (key nx)
                   (if decide (x = c) then par'
                    else if decide (right_child mn = Some x) then Some pm
                    else parent nx)
                   (if decide (x = pm) then right_child mn else left_child nx)
                   (right_child nx))) →
      rep h' par' (remove_leftmost (Br t1 c t2)).
Proof.
  revert par c t2. induction t1 as [|t11 IH c1 t12 _]; intros par c t2 Hne;
    [done|].
  intros (nc & Hc & Hcpar & Hcl & Hcr & Hr1 & Hr2) Hnd.
  pose proof Hr1 as (n1 & Hn1 & Hpar1 & Hl1 & Hr1' & Hr11 & Hr12).
  assert (Hc1 : c ∉ ptrs (Br t11 c1 t12)) by solve_ptrs.
  assert (H12 : ∀ x, x ∈ ptrs (Br t11 c1 t12) → x ∉ ptrs t2) by solve_ptrs.
  assert (Hnd1 : NoDup (ptrs (Br t11 c1 t12))).
  { simpl in Hnd. by apply NoDup_app in Hnd as (? & _ & _). }
  assert (Hout : ∀ h' par' (mn : BST.Node K) pm,
    (∀ mr, right_child mn = Some mr → mr ∈ ptrs (Br t11 c1 t12)) →
    pm ∈ ptrs (Br t11 c1 t12) ∨ pm = c →
    leftmost (Br t11 c1 t12) c ∈ ptrs (Br t11 c1 t12) →
    (∀ x nx, x ∈ ptrs (Br (Br t11 c1 t12) c t2) →
       x ≠ leftmost (Br t11 c1 t12) c → h !! x = Some nx →
       h' !! x
       = Some (BST.mkNode (key nx)
                 (if decide (x = c) then par'
                  else if decide (right_child mn = Some x) then Some pm
                  else parent nx)
                 (if decide (x = pm) then right_child mn else left_child nx)
                 (right_child nx))) →
    ∀ x, x ∈ ptrs t2 → h' !! x = h !! x).
  { intros h' par' mn pm Hmr Hpm Hm Hpt x Hx.
    destruct (rep_lookup _ _ _ _ Hr2 Hx) as [nx Hnx].
    rewrite (Hpt x nx); [|solve_ptrs| |done].
    - rewrite Hnx. f_equal.
      rewrite !decide_False; [by destruct nx| | |].
      + intros ->. destruct Hpm as [?| ->]; solve_ptrs.
      + intros Hmr'. apply Hmr in Hmr'. solve_ptrs.
      + intros ->. solve_ptrs.
    - intros ->. by apply (H12 _ Hm). }
  destruct t11 as [|t111 c11 t112].
  - (* [c1] is the leftmost node, [c] its parent *)
    clear IH.
    assert (c ≠ c1) as Hcc1 by solve_ptrs.
    assert (Hmr : ∀ mr, right_child n1 = Some mr → mr ∈ ptrs t12).
    { intros mr Hmr. rewrite Hr1' in Hmr.
      destruct t12 as [|t121 mr' t122]; simplify_eq/=. solve_ptrs. }
    assert (Hc12 : c1 ∉ ptrs t12).
    { simpl in Hnd1. by apply NoDup_cons in Hnd1 as [? _]. }
    exists n1, c, nc. simpl leftmost. split_and!; try done.
    + solve_ptrs.
    + solve_ptrs.
    + intros mr Hmr'. apply Hmr in Hmr'. split_and!; [solve_ptrs| |].
      * intros ->. done.
      * intros ->. solve_ptrs.
    + intros h' par' Hpt. cbn [remove_leftmost].
      exists (BST.mkNode (key nc) par' (right_child n1) (right_child nc)).
      split_and!; try done.
      * rewrite (Hpt c nc); [|solve_ptrs|done|done].
        by rewrite !decide_True by done.
      * apply rep_reparent with h (Some c1); try done.
        -- simpl in Hnd1. by apply NoDup_cons in Hnd1 as [_ ?].
        -- intros mr nmr Hroot Hnmr.
           assert (mr ∈ ptrs t12) as Hin by (apply Hmr; congruence).
           rewrite (Hpt mr nmr); [|solve_ptrs| |done].
           ++ f_equal. rewrite decide_False by solve_ptrs.
              rewrite decide_True by congruence.
              rewrite decide_False by solve_ptrs. done.
           ++ intros ->. done.
        -- intros x Hx Hroot. destruct (rep_lookup _ _ _ _ Hr12 Hx) as [nx Hnx].
           rewrite (Hpt x nx); [|solve_ptrs| |done].
           ++ rewrite Hnx. f_equal.
              rewrite !decide_False; [by destruct nx| | |].
              ** intros ->. solve_ptrs.
              ** congruence.
              ** intros ->. solve_ptrs.
           ++ intros ->. done.
      * eapply rep_ext; [|done]. intros x Hx.
        eapply (Hout h' par' n1 c); [|by right| |exact Hpt|exact Hx].
        -- intros mr Hmr'. apply Hmr in Hmr'. solve_ptrs.
        -- solve_ptrs.
  - (* the leftmost node lies deeper *)
    destruct (IH (Some c) c1 t12 ltac:(done) Hr1 Hnd1)
      as (mn & pm & pmn & Hm & Hml & Hmpar & Hpm & Hpml & Hmin & Hpmin &
          Hpmm & Hmr & Htransfer).
    set (m := leftmost (Br t111 c11 t112) c1) in *.
    change (leftmost (Br (Br t111 c11 t112) c1 t12) c) with m in *.
    assert (Hmin1 : m ∈ ptrs (Br (Br t111 c11 t112) c1 t12)) by solve_ptrs.
    assert (Hcpm : c ≠ pm) by (intros ->; done).
    assert (Hcm : c ≠ m) by (intros ->; done).
    exists mn, pm, pmn. split_and!; try done.
    + solve_ptrs.
    + intros mr Hmr'. destruct (Hmr mr Hmr') as (? & ? & ?).
      split_and!; try done. solve_ptrs.
    + intros h' par' Hpt. cbn [remove_leftmost].
      exists (BST.mkNode (key nc) par' (left_child nc) (right_child nc)).
      split_and!; try done.
      * rewrite (Hpt c nc); [|solve_ptrs|done|done].
        by rewrite decide_True, decide_False by done.
      * apply Htransfer. intros x nx Hx Hxm Hnx.
        assert (x ≠ c) as Hxc by (intros ->; done).
        rewrite (Hpt x nx); [|solve_ptrs|done|done].
        f_equal. rewrite (decide_False (P := x = c)) by done.
        destruct (decide (x = c1)) as [->|Hxc1]; [|done].
        simplify_eq. rewrite decide_False; [by rewrite Hpar1|].
        intros Hmr'. destruct (Hmr c1 Hmr') as (Hin & _).
        simpl in Hnd1. apply NoDup_app in Hnd1 as (_ & Hd & _).
        apply (Hd c1 Hin). by left.
      * eapply rep_ext; [|done]. intros x Hx.
        eapply (Hout h' par' mn pm); eauto.
        intros mr Hmr'. destruct (Hmr mr Hmr') as (? & _). solve_ptrs.
Qed.

Lemma root_of_elem tr c : root_of tr = Some c → c ∈ ptrs tr.
Proof. destruct tr; intros; simplify_eq/=. set_solver. Qed.

Ltac store_lookup :=
  repeat first
    [ rewrite lookup_set_parent | rewrite lookup_set_left_child
    | rewrite lookup_set_right_child | rewrite lookup_set_parent_opt
    | rewrite lookup_relink | rewrite lookup_replace_child ].

Ltac store_meta :=
  repeat first
    [ rewrite (proj1 (meta_set_parent _ _ _))
    | rewrite (proj1 (proj2 (meta_set_parent _ _ _)))
    | rewrite (proj2 (proj2 (meta_set_parent _ _ _)))
    | rewrite (proj1 (meta_set_left_child _ _ _))
    | rewrite (proj1 (proj2 (meta_set_left_child _ _ _)))
    | rewrite (proj2 (proj2 (meta_set_left_child _ _ _)))
    | rewrite (proj1 (meta_set_right_child _ _ _))
    | rewrite (proj1 (proj2 (meta_set_right_child _ _ _)))
    | rewrite (proj2 (proj2 (meta_set_right_child _ _ _)))
    | rewrite (proj1 (meta_set_parent_opt _ _ _))
    | rewrite (proj1 (proj2 (meta_set_parent_opt _ _ _)))
    | rewrite (proj2 (proj2 (meta_set_parent_opt _ _ _)))
    | rewrite (proj1 (meta_relink _ _ _ _))
    | rewrite (proj1 (proj2 (meta_relink _ _ _ _)))
    | rewrite (proj2 (proj2 (meta_relink _ _ _ _))) ].

(** Reading the object [p] in a state built from setters, given what the
    store held at [p] before them. *)
Ltac eval_get p H :=
  erewrite (get_Some _ p);
    [|store_lookup; rewrite H; cbn [fmap option_fmap option_map];
      reflexivity];
  cbn [mbind result_bind].

(** Cases A and B of [delete_node]: a child subtree [t] of the deleted node
    takes its place. *)
Lemma transplant_subtree self par l n r t :
  rep (nodes self) par (Br l n r) →
  (∀ q, par = Some q → q ∉ ptrs (Br l n r)) →
  rep (nodes self) (Some n) t → NoDup (ptrs t) →
  (∀ x, x ∈ ptrs t → x ∈ ptrs (Br l n r)) →
  deleted_below self
    (set_parent_opt (root_of t) par (relink par n (root_of t) self))
    par (Br l n r) t.
Proof.
  intros Hrep Hpar Hrt Hndt Hsub.
  assert (Hpart : ∀ x, x ∈ ptrs t → par ≠ Some x).
  { intros x Hx ->. by apply (Hpar x eq_refl), Hsub. }
  unfold deleted_below. split_and!.
  - apply rep_reparent with (nodes self) (Some n); try done.
    + intros c nc Hroot Hc. store_lookup. rewrite Hc. simpl.
      rewrite (decide_False (P := par = Some c))
        by (by apply Hpart, root_of_elem).
      by rewrite decide_True.
    + intros x Hx Hroot. store_lookup.
      destruct (nodes self !! x); simpl; [|done].
      rewrite (decide_False (P := par = Some x)) by (by apply Hpart).
      by rewrite decide_False.
  - intros x Hx Hxpar. store_lookup.
    destruct (nodes self !! x); simpl; [|done].
    rewrite (decide_False (P := par = Some x)) by done.
    rewrite decide_False; [done|].
    intros Hroot%root_of_elem. by apply Hx, Hsub.
  - intros ? [= <-]. unfold slot_updated. destruct par as [q|].
    + split; [by store_meta|]. store_lookup.
      destruct (nodes self !! q); simpl; [|done].
      rewrite (decide_False (P := root_of t = Some q));
        [by rewrite !decide_True by done|].
      intros Hroot%root_of_elem. by apply (Hpart q).
    + by store_meta.
  - by store_meta.
  - by store_meta.
Qed.

(** Case C of [delete_node] when the right child [c] of the deleted node has
    no left child: [c] takes the place of the deleted node. *)
Lemma delete_right_child_min self par l1 lc l2 n c r2 fuel :
  rep (nodes self) par (Br (Br l1 lc l2) n (Br Leaf c r2)) →
  NoDup (ptrs (Br (Br l1 lc l2) n (Br Leaf c r2))) →
  (∀ q, par = Some q →
        (q ∉ ptrs (Br (Br l1 lc l2) n (Br Leaf c r2))) ∧
        is_Some (nodes self !! q)) →
  ∃ self',
    delete_node fuel self (Some n) = Ok self' ∧
    deleted_below self self' par (Br (Br l1 lc l2) n (Br Leaf c r2))
      (Br (Br l1 lc l2) c r2).
Proof.
  intros Hrep Hnd Hpar.
  pose proof Hrep as (nn & Hn & Hnpar & Hnl & Hnr & Hrl & Hrr).
  pose proof Hrl as (nlc & Hlc & Hlcpar & Hlcl & Hlcr & Hrl1 & Hrl2).
  pose proof Hrr as (nc & Hc & Hcpar & Hcl & Hcr & _ & Hr2).
  simpl in Hnl, Hnr, Hcl.
  assert (Hq : ∀ x, x ∈ ptrs (Br (Br l1 lc l2) n (Br Leaf c r2)) →
                    par ≠ Some x).
  { intros x Hx ->. by apply (Hpar x eq_refl). }
  assert (n ≠ c ∧ n ≠ lc ∧ lc ≠ c) as (Hnc & Hnlc & Hlcc) by solve_ptrs.
  eexists. split.
  - unfold delete_node. rewrite (get_Some _ _ _ Hn).
    cbn [mbind result_bind]. rewrite Hnl, Hnr. unfold min_node.
    rewrite min_node_loop_unfold, Hc, Hcl. cbn [mbind result_bind].
    rewrite (get_Some _ _ _ Hc). cbn [mbind result_bind].
    rewrite bool_decide_eq_false_2 by (intros Hne; by apply Hne).
    cbn [mbind result_bind].
    rewrite (transplant_node_spec self n nn (Some c) Hn).
    2:{ intros q Hq'. rewrite Hnpar in Hq'. destruct (Hpar q Hq') as [? ?].
        split; [|done]. intros ->. solve_ptrs. }
    cbn [mbind result_bind set_parent_opt]. eval_get n Hn.
    rewrite !(decide_False (P := parent nn = Some n))
      by (rewrite Hnpar; apply Hq; solve_ptrs).
    rewrite !(decide_False (P := c = n)) by done.
    rewrite Hnl. eval_get c Hc.
    rewrite !(decide_True (P := c = c)) by done.
    cbn [left_child]. reflexivity.
  - rewrite Hnpar.
    assert (Hout : ∀ x, x ≠ lc → x ≠ c → par ≠ Some x →
      nodes (set_parent lc (Some c) (set_left_child c (Some lc)
               (set_parent c par (relink par n (Some c) self)))) !! x
      = nodes self !! x).
    { intros x ? ? ?. store_lookup. destruct (nodes self !! x); [|done].
      cbn [fmap option_fmap option_map].
      rewrite (decide_False (P := par = Some x)) by done.
      by rewrite !decide_False by done. }
    unfold deleted_below. split_and!.
    + exists (BST.mkNode (key nc) par (Some lc) (right_child nc)).
      split_and!; try done.
      * store_lookup. rewrite Hc. cbn [fmap option_fmap option_map].
        rewrite (decide_False (P := par = Some c)) by (apply Hq; solve_ptrs).
        rewrite (decide_False (P := lc = c)) by done.
        by rewrite !decide_True by done.
      * apply rep_reparent with (nodes self) (Some n); try done.
        -- solve_ptrs.
        -- intros ? nlc' [= <-] Hlc'. rewrite Hlc in Hlc'.
           injection Hlc' as <-. store_lookup.
           rewrite Hlc. cbn [fmap option_fmap option_map].
           rewrite (decide_False (P := par = Some lc))
             by (apply Hq; solve_ptrs).
           rewrite !(decide_False (P := c = lc)) by done.
           by rewrite decide_True by done.
        -- intros x Hx Hroot. apply Hout.
           ++ intros ->. done.
           ++ intros ->. solve_ptrs.
           ++ apply Hq. solve_ptrs.
      * eapply rep_ext; [|done]. intros x Hx. apply Hout.
        -- intros ->. solve_ptrs.
        -- intros ->. solve_ptrs.
        -- apply Hq. solve_ptrs.
    + intros x Hx Hxpar. apply Hout; [| |done]; intros ->; solve_ptrs.
    + intros ? [= <-]. unfold slot_updated. destruct par as [q|].
      * split; [by store_meta|]. store_lookup.
        destruct (nodes self !! q); [|done].
        cbn [fmap option_fmap option_map].
        rewrite !(decide_True (P := Some q = Some q)) by done.
        rewrite !(decide_True (P := q = q)) by done.
        assert (lc ≠ q ∧ c ≠ q) as [? ?].
        { split; intros ->; apply (Hq q); solve_ptrs. }
        by rewrite !decide_False by done.
      * by store_meta.
    + by store_meta.
    + by store_meta.
Qed.

Lemma lookup_set_parent_opt_eq self o v x n :
  o = Some x → nodes self !! x = Some n →
  nodes (set_parent_opt o v self) !! x
  = Some (BST.mkNode (key n) v (left_child n) (right_child n)).
Proof. intros -> Hx. by apply lookup_set_parent_eq. Qed.

Lemma lookup_relink_eq self q n1 o2 qn :
  nodes self !! q = Some qn →
  nodes (relink (Some q) n1 o2 self) !! q
  = Some (if bool_decide (left_child qn = Some n1)
          then BST.mkNode (key qn) (parent qn) o2 (right_child qn)
          else BST.mkNode (key qn) (parent qn) (left_child qn) o2).
Proof.
  intros Hq. rewrite lookup_relink, Hq. simpl. by rewrite decide_True.
Qed.

(** Distinctness of two references, in either orientation. *)
Ltac store_ne := solve [ done | congruence ].

(** Case C of [delete_node] when the minimum [m] of the right subtree lies
    deeper: [m] leaves its place to its right child and takes the place of
    the deleted node. *)
Lemma delete_deep_min self par l1 lc l2 n r11 c1 r12 c r2 fuel :
  let l := Br l1 lc l2 in
  let r := Br (Br r11 c1 r12) c r2 in
  rep (nodes self) par (Br l n r) → NoDup (ptrs (Br l n r)) →
  size (Br l n r) ≤ fuel →
  (∀ q, par = Some q → (q ∉ ptrs (Br l n r)) ∧ is_Some (nodes self !! q)) →
  ∃ self',
    delete_node fuel self (Some n) = Ok self' ∧
    deleted_below self self' par (Br l n r)
      (Br l (leftmost (Br r11 c1 r12) c) (remove_leftmost r)).
Proof.
  intros l r Hrep Hnd Hfuel Hpar.
  pose proof Hrep as (nn & Hn & Hnpar & Hnl & Hnr & Hrl & Hrr).
  pose proof Hrl as (nlc & Hlc & Hlcpar & Hlcl & Hlcr & Hrl1 & Hrl2).
  pose proof Hrr as (nc & Hc & Hcpar & Hcl & Hcr & Hr1 & Hr2).
  simpl in Hnl, Hnr.
  assert (Hndr : NoDup (ptrs r)) by solve_ptrs.
  assert (Hndl : NoDup (ptrs l)) by solve_ptrs.
  destruct (remove_leftmost_rep (nodes self) (Some n) (Br r11 c1 r12) c r2
              ltac:(done) Hrr Hndr)
    as (mn & pm & pmn & Hm & Hml & Hmpar & Hpm & Hpml & Hmin & Hpmin &
        Hpmm & Hmr & Htransfer).
  assert (Hmin_loop : min_node_loop fuel self c
                      = Ok (leftmost (Br r11 c1 r12) c)).
  { pose proof (ldepth_le_size r) as Hd.
    replace fuel with (ldepth r + (fuel - ldepth r))
      by (subst l r; cbn [size] in *; lia).
    by eapply min_node_loop_leftmost. }
  remember (leftmost (Br r11 c1 r12) c) as m eqn:Hmdef. clear Hmdef.
  assert (Hq : ∀ x, x ∈ ptrs (Br l n r) → par ≠ Some x).
  { intros x Hx ->. by apply (Hpar x eq_refl). }
  assert (Hinr : ∀ x, x ∈ ptrs r → x ∈ ptrs (Br l n r) ∧ x ≠ n ∧ x ≠ lc)
    by solve_ptrs.
  assert (Hinl : ∀ x, x ∈ ptrs l → x ∈ ptrs (Br l n r) ∧ x ≠ n ∧ x ∉ ptrs r)
    by solve_ptrs.
  assert (Hminr : m ∈ ptrs r) by solve_ptrs.
  assert (Hcinr : c ∈ ptrs r) by solve_ptrs.
  assert (c ≠ m) as Hcm by solve_ptrs.
  assert (n ≠ lc) as Hnlc by solve_ptrs.
  destruct (Hinr m Hminr) as (Hmin' & Hmn & Hmlc).
  destruct (Hinr c Hcinr) as (Hcin' & Hcn & Hclc).
  destruct (Hinr pm Hpmin) as (Hpmin' & Hpmn & Hpmlc).
  pose proof (Hq n ltac:(solve_ptrs)) as Hpar_n.
  pose proof (Hq lc ltac:(solve_ptrs)) as Hpar_lc.
  pose proof (Hq m Hmin') as Hpar_m.
  set (mr := right_child mn) in *.
  assert (Hmrr : ∀ x, mr = Some x → x ∈ ptrs r ∧ x ≠ m ∧ x ≠ pm ∧ x ≠ c).
  { intros x Hx. destruct (Hmr x Hx) as (? & ? & ?). split_and!; try done.
    - solve_ptrs.
    - intros ->. solve_ptrs. }
  assert (Hmr_out : ∀ x, x ∉ ptrs r → mr ≠ Some x).
  { intros x Hx Hmrx. by destruct (Hmrr x Hmrx) as (? & _). }
  assert (mr ≠ Some m ∧ mr ≠ Some pm ∧ mr ≠ Some c ∧ mr ≠ Some n ∧
          mr ≠ Some lc) as (Hmr_m & Hmr_pm & Hmr_c & Hmr_n & Hmr_lc).
  { split_and!; intros Hx; destruct (Hmrr _ Hx) as (Hxr & ? & ? & ?);
      try done; by destruct (Hinr _ Hxr) as (_ & ? & ?). }
  set (s1 := set_parent_opt mr (Some pm) (relink (Some pm) m mr self)).
  set (s3 := set_parent c (Some m) (set_right_child m (Some c) s1)).
  set (s4 := set_parent m par (relink par n (Some m) s3)).
  set (F := set_parent lc (Some m) (set_left_child m (Some lc) s4)).
  (* what each step leaves alone *)
  assert (H1 : ∀ x, x ≠ pm → mr ≠ Some x → nodes s1 !! x = nodes self !! x).
  { intros x ? ?. unfold s1.
    rewrite lookup_set_parent_opt_ne, lookup_relink_ne by store_ne. done. }
  assert (H3 : ∀ x, x ≠ c → x ≠ m → nodes s3 !! x = nodes s1 !! x).
  { intros x ? ?. unfold s3.
    rewrite lookup_set_parent_ne, lookup_set_right_child_ne by store_ne.
    done. }
  assert (H4 : ∀ x, x ≠ m → par ≠ Some x → nodes s4 !! x = nodes s3 !! x).
  { intros x ? ?. unfold s4.
    rewrite lookup_set_parent_ne, lookup_relink_ne by store_ne. done. }
  assert (HF : ∀ x, x ≠ lc → x ≠ m → nodes F !! x = nodes s4 !! x).
  { intros x ? ?. unfold F.
    rewrite lookup_set_parent_ne, lookup_set_left_child_ne by store_ne.
    done. }
  (* the nodes the code reads on its way *)
  assert (Hn1 : nodes s1 !! n = Some nn) by (rewrite H1 by store_ne; done).
  assert (Hm1 : nodes s1 !! m = Some mn) by (rewrite H1 by store_ne; done).
  assert (Hn3 : nodes s3 !! n = Some nn) by (rewrite H3 by store_ne; done).
  assert (Hm3 : nodes s3 !! m
                = Some (BST.mkNode (key mn) (Some pm) None (Some c))).
  { unfold s3. rewrite lookup_set_parent_ne by store_ne.
    rewrite (lookup_set_right_child_eq _ _ _ _ Hm1). by rewrite Hmpar, Hml. }
  assert (Hn4 : nodes s4 !! n = Some nn) by (rewrite H4 by store_ne; done).
  assert (Hm4 : nodes s4 !! m
                = Some (BST.mkNode (key mn) par None (Some c))).
  { unfold s4.
    assert (nodes (relink par n (Some m) s3) !! m
            = Some (BST.mkNode (key mn) (Some pm) None (Some c))) as Hm'
      by (by rewrite lookup_relink_ne by store_ne).
    by rewrite (lookup_set_parent_eq _ _ _ _ Hm'). }
  assert (HmF : nodes F !! m
                = Some (BST.mkNode (key mn) par (Some lc) (Some c))).
  { unfold F. rewrite lookup_set_parent_ne by store_ne.
    by rewrite (lookup_set_left_child_eq _ _ _ _ Hm4). }
  exists F. split.
  - unfold delete_node. rewrite (get_Some _ _ _ Hn).
    cbn [mbind result_bind]. rewrite Hnl, Hnr. unfold min_node.
    rewrite Hmin_loop. cbn [mbind result_bind].
    rewrite (get_Some _ _ _ Hm). cbn [mbind result_bind].
    rewrite bool_decide_eq_true_2 by (rewrite Hmpar; congruence).
    change (right_child mn) with mr.
    rewrite (transplant_node_spec self m mn mr Hm).
    2:{ intros q Hq'. rewrite Hmpar in Hq'. injection Hq' as <-.
        split; [done|]. by eexists. }
    rewrite Hmpar. fold s1. cbn [mbind result_bind].
    rewrite (get_Some _ _ _ Hn1). cbn [mbind result_bind]. rewrite Hnr.
    rewrite (get_Some _ _ _ (lookup_set_right_child_eq _ _ _ _ Hm1)).
    cbn [mbind result_bind right_child]. fold s3.
    rewrite (transplant_node_spec s3 n nn (Some m) Hn3).
    2:{ intros q Hq'. rewrite Hnpar in Hq'. destruct (Hpar q Hq') as [Hqn Hqs].
        split; [intros ->; apply Hqn; solve_ptrs|].
        apply lookup_lt_is_Some. apply lookup_lt_is_Some in Hqs.
        unfold s3, s1. by store_meta. }
    rewrite Hnpar. cbn [set_parent_opt]. fold s4. cbn [mbind result_bind].
    rewrite (get_Some _ _ _ Hn4). cbn [mbind result_bind]. rewrite Hnl.
    rewrite (get_Some _ _ _ (lookup_set_left_child_eq _ _ _ _ Hm4)).
    cbn [mbind result_bind left_child]. reflexivity.
  - assert (Hout : ∀ x, x ∉ ptrs r → x ≠ lc → par ≠ Some x →
                        nodes F !! x = nodes self !! x).
    { intros x Hxr Hxlc Hxpar.
      assert (x ≠ m ∧ x ≠ c ∧ x ≠ pm) as (? & ? & ?)
        by (split_and!; intros ->; done).
      rewrite HF, H4, H3, H1 by (first [done|by apply Hmr_out]). done. }
    assert (HlcF : nodes F !! lc
                   = Some (BST.mkNode (key nlc) (Some m) (left_child nlc)
                             (right_child nlc))).
    { unfold F.
      assert (nodes (set_left_child m (Some lc) s4) !! lc = Some nlc) as Hlc'.
      { rewrite lookup_set_left_child_ne by store_ne.
        rewrite H4, H3, H1 by store_ne. done. }
      by rewrite (lookup_set_parent_eq _ _ _ _ Hlc'). }
    assert (Hfr : ∀ x nx, x ∈ ptrs r → x ≠ m → nodes self !! x = Some nx →
      nodes F !! x
      = Some (BST.mkNode (key nx)
                (if decide (x = c) then Some m
                 else if decide (mr = Some x) then Some pm else parent nx)
                (if decide (x = pm) then mr else left_child nx)
                (right_child nx))).
    { intros x nx Hx Hxm Hnx. destruct (Hinr x Hx) as (Hx' & Hxn & Hxlc).
      pose proof (Hq x Hx') as Hxpar.
      rewrite HF, H4 by done.
      assert (Hs1 : nodes s1 !! x
        = Some (BST.mkNode (key nx)
                  (if decide (mr = Some x) then Some pm else parent nx)
                  (if decide (x = pm) then mr else left_child nx)
                  (right_child nx))).
      { unfold s1. destruct (decide (x = pm)) as [->|Hxpm].
        - rewrite lookup_set_parent_opt_ne by store_ne.
          rewrite (lookup_relink_eq _ _ _ _ _ Hnx).
          rewrite Hpm in Hnx. injection Hnx as <-.
          rewrite bool_decide_eq_true_2 by done.
          by rewrite decide_False by done.
        - destruct (decide (mr = Some x)) as [Hmrx|Hmrx].
          + assert (nodes (relink (Some pm) m mr self) !! x = Some nx) as Hx1
              by (by rewrite lookup_relink_ne by store_ne).
            by rewrite (lookup_set_parent_opt_eq _ _ _ _ _ Hmrx Hx1).
          + rewrite lookup_set_parent_opt_ne, lookup_relink_ne by store_ne.
            rewrite Hnx. by destruct nx. }
      destruct (decide (x = c)) as [->|Hxc].
      - unfold s3.
        assert (nodes (set_right_child m (Some c) s1) !! c = Some _) as Hc1
          by (rewrite lookup_set_right_child_ne by store_ne; exact Hs1).
        by rewrite (lookup_set_parent_eq _ _ _ _ Hc1).
      - by rewrite H3 by done. }
    unfold deleted_below. split_and!.
    + exists (BST.mkNode (key mn) par (Some lc) (Some c)).
      split_and!; try done.
      * apply rep_reparent with (nodes self) (Some n); try done.
        -- intros ? nlc' [= <-] Hlc'. rewrite Hlc in Hlc'.
           by injection Hlc' as <-.
        -- intros x Hx Hroot. destruct (Hinl x Hx) as (Hx' & ? & ?).
           apply Hout; [done|by intros ->; apply Hroot|by apply Hq].
      * by apply Htransfer.
    + intros x Hx Hxpar. apply Hout; [|intros ->|done]; solve_ptrs.
    + intros ? [= <-]. unfold slot_updated. destruct par as [q|].
      * split; [unfold F, s4, s3, s1; by store_meta|].
        destruct (Hpar q eq_refl) as [Hqn [nq Hnq]].
        assert (q ≠ n ∧ (q ∉ ptrs r) ∧ q ≠ lc ∧ q ≠ m) as (? & Hqr & ? & ?).
        { split_and!; try (intros ->); solve_ptrs. }
        assert (q ≠ c ∧ q ≠ pm) as (? & ?) by (split; intros ->; done).
        assert (nodes s3 !! q = Some nq) as Hq3.
        { rewrite H3, H1 by (first [done|by apply Hmr_out]). done. }
        rewrite HF by done. unfold s4.
        rewrite lookup_set_parent_ne by store_ne.
        rewrite (lookup_relink_eq _ _ _ _ _ Hq3).
        store_lookup. rewrite Hnq. cbn [fmap option_fmap option_map].
        by rewrite decide_True.
      * unfold F, s4, s3, s1. by store_meta.
    + unfold F, s4, s3, s1. by store_meta.
    + unfold F, s4, s3, s1. by store_meta.
Qed.

Lemma ptrs_remove_leftmost t1 c t2 :
  ptrs (Br t1 c t2)
  = leftmost t1 c :: ptrs (remove_leftmost (Br t1 c t2)).
Proof.
  revert c t2. induction t1 as [|t11 IH c1 t12 _]; intros c t2; [done|].
  change (ptrs (Br (Br t11 c1 t12) c t2))
    with (ptrs (Br t11 c1 t12) ++ c :: ptrs t2).
  rewrite IH. by destruct t11.
Qed.

(** [delete_node] keeps the in-order sequence of the other nodes. *)
Lemma ptrs_delete_root l r : ptrs (delete_root l r) = ptrs l ++ ptrs r.
Proof.
  destruct l as [|l1 lc l2]; [done|]. destruct r as [|r1 c r2].
  - simpl. by rewrite app_nil_r.
  - unfold delete_root. by rewrite (ptrs_remove_leftmost r1 c r2).
Qed.

Lemma tree_delete_notin n tr : n ∉ ptrs tr → tree_delete n tr = tr.
Proof.
  induction tr as [|l IHl p r IHr]; intros Hn; simpl; [done|].
  rewrite decide_False by (intros ->; solve_ptrs).
  rewrite IHl, IHr by solve_ptrs. done.
Qed.

Lemma ptrs_tree_delete n tr : ptrs (tree_delete n tr) `sublist_of` ptrs tr.
Proof.
  induction tr as [|l IHl p r IHr]; simpl; [done|].
  destruct (decide (p = n)) as [->|].
  - rewrite ptrs_delete_root. apply sublist_app; [done|].
    by apply sublist_cons.
  - simpl. apply sublist_app; [done|]. by apply sublist_skip.
Qed.

Lemma root_of_tree_delete n l p r :
  p ≠ n → root_of (tree_delete n (Br l p r)) = Some p.
Proof. intros. simpl. by rewrite decide_False. Qed.

(** The deleted node at the root of the subtree: the four cases of
    [delete_node]. *)
Lemma delete_at_root self par l n r fuel :
  rep (nodes self) par (Br l n r) → NoDup (ptrs (Br l n r)) →
  size (Br l n r) ≤ fuel →
  (∀ q, par = Some q → (q ∉ ptrs (Br l n r)) ∧ is_Some (nodes self !! q)) →
  ∃ self',
    delete_node fuel self (Some n) = Ok self' ∧
    deleted_below self self' par (Br l n r) (delete_root l r).
Proof.
  intros Hrep Hnd Hfuel Hpar.
  pose proof Hrep as (nn & Hn & Hnpar & Hnl & Hnr & Hrl & Hrr).
  assert (Hspec : ∀ o2,
    transplant_node self n o2
    = Ok (set_parent_opt o2 par (relink par n o2 self))).
  { intros o2. rewrite (transplant_node_spec self n nn o2 Hn), Hnpar; [done|].
    intros q Hq. rewrite Hnpar in Hq. destruct (Hpar q Hq) as [? ?].
    split; [|done]. intros ->. solve_ptrs. }
  destruct l as [|l1 lc l2]; [|destruct r as [|r1 c r2]].
  - (* no left child *)
    eexists. split.
    + unfold delete_node. rewrite (get_Some _ _ _ Hn).
      cbn [mbind result_bind]. rewrite Hnl. simpl root_of. by rewrite Hspec.
    + rewrite Hnr. apply transplant_subtree; try done.
      * intros q Hq. by apply Hpar.
      * solve_ptrs.
      * intros x Hx. solve_ptrs.
  - (* a left child and no right child *)
    eexists. split.
    + unfold delete_node. rewrite (get_Some _ _ _ Hn).
      cbn [mbind result_bind]. rewrite Hnl, Hnr. simpl root_of.
      by rewrite Hspec.
    + change (delete_root (Br l1 lc l2) Leaf) with (Br l1 lc l2).
      change (Some lc) with (root_of (Br l1 lc l2)).
      apply transplant_subtree; try done.
      * intros q Hq. by apply Hpar.
      * solve_ptrs.
      * intros x Hx. solve_ptrs.
  - destruct r1 as [|r11 c1 r12].
    + by apply delete_right_child_min.
    + by apply delete_deep_min.
Qed.

Lemma replace_child_same self q qn p :
  nodes self !! q = Some qn →
  left_child qn = Some p ∨ right_child qn = Some p →
  nodes (replace_child q p (Some p) self) !! q = Some qn.
Proof.
  intros Hq Hslot. store_lookup. rewrite Hq.
  cbn [fmap option_fmap option_map]. f_equal.
  rewrite decide_True by done. case_bool_decide as Hl.
  - rewrite <- Hl. by destruct qn.
  - destruct Hslot as [?|Hr]; [done|]. rewrite <- Hr. by destruct qn.
Qed.

(** The deleted node anywhere in the subtree [tr]. *)
Lemma delete_subtree self fuel n tr par :
  rep (nodes self) par tr → NoDup (ptrs tr) → n ∈ ptrs tr →
  size tr ≤ fuel → slot_holds self par tr →
  ∃ self',
    delete_node fuel self (Some n) = Ok self' ∧
    deleted_below self self' par tr (tree_delete n tr).
Proof.
  revert par. induction tr as [|l IHl p r IHr];
    intros par Hrep Hnd Hin Hfuel Hslot; [by apply elem_of_nil in Hin|].
  cbn [tree_delete]. destruct (decide (p = n)) as [->|Hpn].
  { apply delete_at_root; try done. intros q ->.
    destruct Hslot as (? & qn & ? & _). split; [done|by eexists]. }
  pose proof Hrep as (pn & Hp & Hppar & Hl & Hr & Hrl & Hrr).
  assert (Hside : ∀ self' t t',
    (t = l ∧ n ∈ ptrs l ∧ tree_delete n (Br l p r) = Br t' p r) ∨
    (t = r ∧ n ∈ ptrs r ∧ tree_delete n (Br l p r) = Br l p t') →
    deleted_below self self' (Some p) t t' →
    deleted_below self self' par (Br l p r) (tree_delete n (Br l p r))).
  { intros self' t t' Hcase (Hrep' & Hframe & Hslot' & Hcmp & Hlen).
    assert (∃ c, root_of t = Some c ∧ c ∈ ptrs t ∧ c ≠ p) as (c & Hc & Hct & Hcp).
    { destruct Hcase as [(-> & Hn & _)|(-> & Hn & _)];
        [destruct l as [|? c ?]|destruct r as [|? c ?]];
        try (by apply elem_of_nil in Hn);
        exists c; (split_and!; [done|solve_ptrs|intros ->; solve_ptrs]). }
    destruct (Hslot' c Hc) as [Hroot' Hp'].
    assert (Hsib : ∀ x t0, ((t = l ∧ t0 = r) ∨ (t = r ∧ t0 = l)) →
                   x ∈ ptrs t0 → nodes self' !! x = nodes self !! x).
    { intros x t0 Ht0 Hx. apply Hframe.
      - destruct Ht0 as [[-> ->]|[-> ->]]; solve_ptrs.
      - intros [= ->]. destruct Ht0 as [[-> ->]|[-> ->]]; solve_ptrs. }
    unfold deleted_below. split_and!; try done.
    - revert Hp'. store_lookup. rewrite Hp.
      cbn [fmap option_fmap option_map]. rewrite decide_True by done.
      intros Hp'.
      destruct Hcase as [(-> & Hn & ->)|(-> & Hn & ->)].
      + rewrite bool_decide_eq_true_2 in Hp' by congruence.
        eexists. split; [exact Hp'|]. cbn. split_and!; try done.
        eapply rep_ext; [|done]. intros x Hx. eapply Hsib; eauto.
      + rewrite bool_decide_eq_false_2 in Hp'.
        2:{ rewrite Hl. intros Hroot%root_of_elem. solve_ptrs. }
        eexists. split; [exact Hp'|]. cbn. split_and!; try done.
        eapply rep_ext; [|done]. intros x Hx. eapply Hsib; eauto.
    - intros x Hx Hxpar. apply Hframe.
      + destruct Hcase as [(-> & _)|(-> & _)]; solve_ptrs.
      + intros [= ->]. solve_ptrs.
    - intros ? [= <-].
      assert (root_of (tree_delete n (Br l p r)) = Some p) as ->
        by (by apply root_of_tree_delete).
      unfold slot_updated. destruct par as [q|].
      + split; [done|]. destruct Hslot as (Hq & qn & Hqn & Hqslot).
        erewrite replace_child_same by done. rewrite <- Hqn. apply Hframe.
        * destruct Hcase as [(-> & _)|(-> & _)]; solve_ptrs.
        * intros [= ->]. solve_ptrs.
      + by rewrite Hroot'. }
  assert (tree_delete n (Br l p r)
          = Br (tree_delete n l) p (tree_delete n r)) as Htd
    by (cbn [tree_delete]; by rewrite decide_False).
  rewrite <- Htd.
  destruct (elem_of_ptrs_Br _ _ _ _ Hin) as [Hn|[?|Hn]]; [|done|].
  - destruct (IHl (Some p)) as (self' & Hdel & Hbelow); try done.
    + solve_ptrs.
    + simpl in Hfuel. lia.
    + split; [solve_ptrs|]. exists pn. eauto.
    + exists self'. split; [done|]. eapply Hside; [|done]. left.
      split_and!; try done. cbn [tree_delete].
      rewrite decide_False by done.
      rewrite (tree_delete_notin n r) by solve_ptrs. done.
  - destruct (IHr (Some p)) as (self' & Hdel & Hbelow); try done.
    + solve_ptrs.
    + simpl in Hfuel. lia.
    + split; [solve_ptrs|]. exists pn. eauto.
    + exists self'. split; [done|]. eapply Hside; [|done]. right.
      split_and!; try done. cbn [tree_delete].
      rewrite decide_False by done.
      rewrite (tree_delete_notin n l) by solve_ptrs. done.
Qed.

(** A deletion of a node of a tree succeeds with fuel for the size of the
    tree and leaves the tree without the node. *)
Lemma delete_node_represents fuel self tr n :
  represents self tr → n ∈ ptrs tr → size tr ≤ fuel →
  ∃ self',
    delete_node fuel self (Some n) = Ok self' ∧
    represents self' (tree_delete n tr) ∧
    cmp_fn self' = cmp_fn self ∧
    length (nodes self') = length (nodes self).
Proof.
  intros (Hroot & Hrep & Hnd) Hn Hfuel.
  destruct (delete_subtree self fuel n tr None Hrep Hnd Hn Hfuel Hroot)
    as (self' & Hdel & Hrep' & _ & Hslot & Hcmp & Hlen).
  exists self'. split_and!; try done.
  unfold represents. split_and!; try done.
  - destruct tr as [|l p r]; [by apply elem_of_nil in Hn|].
    exact (Hslot p eq_refl).
  - eapply sublist_NoDup; [done|]. apply ptrs_tree_delete.
Qed.

End BST_delete.

(** ** What a deletion keeps *)

Section BST_order.
Context {K : Type}.
Implicit Types (self : BST.t K) (h : list (BST.Node K)) (tr : BST.tree).
Import BST.

Lemma same_keys_refl self : same_keys self self.
Proof. done. Qed.

Lemma same_keys_trans self1 self2 self3 :
  same_keys self1 self2 → same_keys self2 self3 → same_keys self1 self3.
Proof.
  intros (Hc & Hl & Hk) (Hc' & Hl' & Hk').
  split_and!; [congruence..|intros x; by rewrite Hk', Hk].
Qed.

Lemma same_keys_set_parent self p v : same_keys self (set_parent p v self).
Proof.
  unfold same_keys. split; [done|]. split; [apply (meta_set_parent self p v)|].
  intros x. apply key_set_parent.
Qed.

Lemma same_keys_set_left_child self p v :
  same_keys self (set_left_child p v self).
Proof.
  unfold same_keys. split; [done|]. split; [apply (meta_set_left_child self p v)|].
  intros x. apply key_set_left_child.
Qed.

Lemma same_keys_set_right_child self p v :
  same_keys self (set_right_child p v self).
Proof.
  unfold same_keys. split; [done|]. split; [apply (meta_set_right_child self p v)|].
  intros x. apply key_set_right_child.
Qed.

Lemma same_keys_set_root self v : same_keys self (set_root v self).
Proof. done. Qed.

Ltac solve_same_keys :=
  repeat first
    [ assumption
    | apply same_keys_refl
    | eapply same_keys_trans;
      [|first [ apply same_keys_set_parent | apply same_keys_set_left_child
              | apply same_keys_set_right_child | apply same_keys_set_root
              | eassumption ]] ].

(** [__transplant_node] and [delete_node] change links only: where they
    return, the comparator, the number of nodes and every key are as
    before. *)
Lemma transplant_node_same_keys self n1 o2 self' :
  transplant_node self n1 o2 = Ok self' → same_keys self self'.
Proof.
  unfold transplant_node.
  destruct (get self n1) as [nn|]; [|done]. cbn [mbind result_bind].
  destruct (parent nn) as [p|].
  - destruct (get self p) as [pn|]; [|done]. cbn [mbind result_bind].
    destruct (bool_decide _); cbn [mbind result_bind];
      (destruct o2 as [n2|]; [destruct (get _ n1); [|done]|]);
      cbn [mbind result_bind]; intros [= <-]; solve_same_keys.
  - cbn [mbind result_bind].
    (destruct o2 as [n2|]; [destruct (get _ n1); [|done]|]);
      cbn [mbind result_bind]; intros [= <-]; solve_same_keys.
Qed.

Lemma delete_node_same_keys fuel self o self' :
  delete_node fuel self o = Ok self' → same_keys self self'.
Proof.
  unfold delete_node. destruct o as [nd|]; [|done].
  destruct (get self nd) as [n|]; [|done]. cbn [mbind result_bind].
  destruct (left_child n); [|apply transplant_node_same_keys].
  destruct (right_child n); [|apply transplant_node_same_keys].
  destruct (min_node fuel self _) as [m|]; [|done]. cbn [mbind result_bind].
  destruct (get self m) as [mn|]; [|done]. cbn [mbind result_bind].
  destruct (bool_decide _).
  - destruct (transplant_node self m (right_child mn)) as [s1|] eqn:H1;
      [|done].
    apply transplant_node_same_keys in H1. cbn [mbind result_bind].
    destruct (get s1 nd) as [n'|]; [|done]. cbn [mbind result_bind].
    destruct (get _ m) as [mn'|]; [|done]. cbn [mbind result_bind].
    destruct (right_child mn'); [|done]. cbn [mbind result_bind].
    destruct (transplant_node _ nd (Some m)) as [s2|] eqn:H2; [|done].
    apply transplant_node_same_keys in H2. cbn [mbind result_bind].
    destruct (get s2 nd); [|done]. cbn [mbind result_bind].
    destruct (get _ m); [|done]. cbn [mbind result_bind].
    destruct (left_child _); [|done]. intros [= <-]. solve_same_keys.
  - cbn [mbind result_bind].
    destruct (transplant_node _ nd (Some m)) as [s2|] eqn:H2; [|done].
    apply transplant_node_same_keys in H2. cbn [mbind result_bind].
    destruct (get s2 nd); [|done]. cbn [mbind result_bind].
    destruct (get _ m); [|done]. cbn [mbind result_bind].
    destruct (left_child _); [|done]. intros [= <-]. solve_same_keys.
Qed.

Lemma length_ptrs tr : length (ptrs tr) = size tr.
Proof.
  induction tr as [|l IHl p r IHr]; simpl; [done|].
  rewrite length_app. simpl. lia.
Qed.

Lemma filter_ne_notin (n : nat) (l : list nat) :
  n ∉ l → filter (λ x, x ≠ n) l = l.
Proof.
  induction l as [|a l IH]; [done|].
  intros [Hne Hn]%not_elem_of_cons.
  rewrite filter_cons_True by done. by rewrite IH.
Qed.

(** The in-order sequence after a deletion is the one before without the
    deleted node. *)
Lemma ptrs_tree_delete_filter n tr :
  NoDup (ptrs tr) → ptrs (tree_delete n tr) = filter (λ x, x ≠ n) (ptrs tr).
Proof.
  induction tr as [|l IHl p r IHr]; [done|]. intros Hnd.
  change (ptrs (Br l p r)) with (ptrs l ++ p :: ptrs r) in *.
  pose proof Hnd as (Hndl & Hdisj & [Hpr Hndr]%NoDup_cons)%NoDup_app.
  cbn [tree_delete]. destruct (decide (p = n)) as [->|Hne].
  - rewrite ptrs_delete_root, filter_app.
    rewrite filter_cons_False by (intros Hn; by apply Hn).
    rewrite !filter_ne_notin; [done|done|].
    intros Hin. apply (Hdisj n Hin). by left.
  - change (ptrs (Br ?a p ?b)) with (ptrs a ++ p :: ptrs b).
    rewrite filter_app, filter_cons_True by done.
    by rewrite IHl, IHr.
Qed.

Lemma size_tree_delete n tr :
  NoDup (ptrs tr) → n ∈ ptrs tr → S (size (tree_delete n tr)) = size tr.
Proof.
  intros Hnd Hn. rewrite <- !length_ptrs, ptrs_tree_delete_filter by done.
  apply list_elem_of_split in Hn as (l1 & l2 & Heq). rewrite Heq in *.
  apply NoDup_app in Hnd as (_ & Hdisj & [Hn2 _]%NoDup_cons).
  rewrite filter_app, filter_cons_False by (intros Hn; by apply Hn).
  rewrite !filter_ne_notin; [|done|].
  - rewrite !length_app. simpl. lia.
  - intros Hin. apply (Hdisj n Hin). by left.
Qed.

(** Deleting the nodes of a tree one by one, in any order, never raises and
    leaves the empty tree. *)
Lemma delete_all_represents fuel self tr ns :
  represents self tr → ns ≡ₚ ptrs tr → size tr ≤ fuel →
  ∃ self', delete_all fuel self ns = Ok self' ∧ represents self' Leaf ∧
           same_keys self self'.
Proof.
  revert self tr. induction ns as [|n ns IH]; intros self tr Hrep Hperm Hfuel.
  - symmetry in Hperm. apply Permutation_nil_r in Hperm.
    destruct tr as [|l p r]; [|simpl in Hperm; by destruct (ptrs l)].
    exists self. split_and!; try done.
  - assert (Hn : n ∈ ptrs tr) by (rewrite <- Hperm; by left).
    pose proof Hrep as (_ & _ & Hnd).
    destruct (delete_node_represents fuel self tr n Hrep Hn Hfuel)
      as (self1 & Hdel & Hrep1 & _).
    destruct (IH self1 (tree_delete n tr) Hrep1) as (self' & Hall & Hrep' & Hk).
    + rewrite ptrs_tree_delete_filter by done. rewrite <- Hperm.
      rewrite filter_cons_False by (intros Hn'; by apply Hn').
      rewrite filter_ne_notin; [done|].
      rewrite <- Hperm in Hnd. by apply NoDup_cons in Hnd as [? _].
    + pose proof (size_tree_delete n tr Hnd Hn). lia.
    + exists self'. cbn [delete_all]. rewrite Hdel. cbn [mbind result_bind].
      split_and!; try done.
      eapply same_keys_trans; [|done]. by eapply delete_node_same_keys.
Qed.

(** ** The order of the keys *)

Lemma node_less_ext self self' x a :
  cmp_fn self' = cmp_fn self →
  key <$> nodes self' !! x = key <$> nodes self !! x →
  key <$> nodes self' !! a = key <$> nodes self !! a →
  node_less self' x a = node_less self x a.
Proof.
  unfold node_less. intros -> Hx Ha.
  destruct (nodes self' !! x), (nodes self !! x); simplify_eq/=; try done.
  destruct (nodes self' !! a), (nodes self !! a); simplify_eq/=; try done.
  congruence.
Qed.

Lemma ordered_ext self self' tr :
  cmp_fn self' = cmp_fn self →
  (∀ x, x ∈ ptrs tr → key <$> nodes self' !! x = key <$> nodes self !! x) →
  ordered self tr → ordered self' tr.
Proof.
  intros Hcmp. induction tr as [|l IHl p r IHr]; [done|].
  intros Hkeys (Hl & Hr & Hol & Hor).
  assert (Hp : p ∈ ptrs (Br l p r)) by apply elem_of_ptrs_root.
  cbn [ordered]. split_and!.
  - intros x Hx. rewrite <- (Hl x Hx).
    apply node_less_ext; auto using elem_of_ptrs_l.
  - intros x Hx. rewrite <- (Hr x Hx).
    apply node_less_ext; auto using elem_of_ptrs_r.
  - apply IHl; auto using elem_of_ptrs_l.
  - apply IHr; auto using elem_of_ptrs_r.
Qed.

(** A node added where [go_left] sends it keeps the order, when [go_left]
    is the comparator's verdict on its key. *)
Lemma tree_insert_ordered self go_left new tr :
  ordered self tr →
  (∀ p, p ∈ ptrs tr → node_less self new p = go_left p) →
  ordered self (tree_insert go_left new tr).
Proof.
  induction tr as [|l IHl p r IHr]; intros Hord Hgo.
  - cbn. split_and!; try done; intros x Hx; by apply elem_of_nil in Hx.
  - destruct Hord as (Hl & Hr & Hol & Hor). cbn [tree_insert].
    pose proof (Hgo p (elem_of_ptrs_root l p r)) as Hp.
    destruct (go_left p); cbn [ordered]; split_and!; try done.
    + intros x Hx. rewrite ptrs_tree_insert in Hx.
      apply elem_of_cons in Hx as [->|Hx]; auto.
    + apply IHl; auto using elem_of_ptrs_l.
    + intros x Hx. rewrite ptrs_tree_insert in Hx.
      apply elem_of_cons in Hx as [->|Hx]; auto.
    + apply IHr; auto using elem_of_ptrs_r.
Qed.

Lemma remove_leftmost_subset tr x :
  x ∈ ptrs (remove_leftmost tr) → x ∈ ptrs tr.
Proof.
  destruct tr as [|t1 c t2]; [done|]. rewrite (ptrs_remove_leftmost t1 c t2).
  by right.
Qed.

Lemma tree_delete_subset n tr x : x ∈ ptrs (tree_delete n tr) → x ∈ ptrs tr.
Proof. intros Hx. eapply elem_of_sublist; [done|apply ptrs_tree_delete]. Qed.

Lemma ordered_remove_leftmost self tr :
  ordered self tr → ordered self (remove_leftmost tr).
Proof.
  induction tr as [|l IHl p r _]; [done|].
  intros (Hl & Hr & Hol & Hor). destruct l as [|l1 c l2]; [done|].
  change (remove_leftmost (Br (Br l1 c l2) p r))
    with (Br (remove_leftmost (Br l1 c l2)) p r).
  cbn [ordered]. split_and!; auto.
  intros x Hx. by apply Hl, remove_leftmost_subset.
Qed.

Section strict_weak.
Context (self : BST.t K) (Hswo : strict_weak_order (cmp_fn self)).

Lemma node_less_asym x y :
  node_less self x y = true → node_less self y x = false.
Proof.
  destruct Hswo as (Hirr & Htrans & _). unfold node_less.
  destruct (nodes self !! x) as [nx|], (nodes self !! y) as [ny|]; try done.
  rewrite Z.eqb_eq. intros Hxy. apply Z.eqb_neq. intros Hyx.
  by apply (Hirr (key nx)), (Htrans _ (key ny)).
Qed.

Lemma node_less_trans x y z :
  node_less self x y = true → node_less self y z = true →
  node_less self x z = true.
Proof.
  destruct Hswo as (_ & Htrans & _). unfold node_less.
  destruct (nodes self !! x) as [nx|], (nodes self !! y) as [ny|],
    (nodes self !! z) as [nz|]; try done.
  rewrite !Z.eqb_eq. apply Htrans.
Qed.

Lemma node_less_ntrans x y z :
  is_Some (nodes self !! x) → is_Some (nodes self !! y) →
  is_Some (nodes self !! z) →
  node_less self x y = false → node_less self y z = false →
  node_less self x z = false.
Proof.
  destruct Hswo as (_ & _ & Hntrans). unfold node_less.
  intros [nx ->] [ny ->] [nz ->]. rewrite !Z.eqb_neq. apply Hntrans.
Qed.

(** The leftmost node of a subtree is not above any other node of it. *)
Lemma leftmost_least t1 c t2 y :
  ordered self (Br t1 c t2) →
  y ∈ ptrs (remove_leftmost (Br t1 c t2)) →
  node_less self y (leftmost t1 c) = false.
Proof.
  revert c t2 y. induction t1 as [|t11 IH c1 t12 _]; intros c t2 y.
  - intros (_ & Hr & _) Hy. by apply Hr.
  - intros (Hl & Hr & Hol & Hor).
    change (remove_leftmost (Br (Br t11 c1 t12) c t2))
      with (Br (remove_leftmost (Br t11 c1 t12)) c t2).
    change (leftmost (Br t11 c1 t12) c) with (leftmost t11 c1).
    pose proof (Hl _ (leftmost_elem_of t11 c1 t12)) as Hm.
    intros [Hy|[->|Hy]]%elem_of_ptrs_Br.
    + by apply (IH c1 t12).
    + by apply node_less_asym.
    + destruct (node_less self y (leftmost t11 c1)) eqn:Hym; [|done].
      rewrite <- (Hr y Hy). symmetry. by eapply node_less_trans.
Qed.

Lemma delete_root_ordered l n r :
  (∀ x, x ∈ ptrs (Br l n r) → is_Some (nodes self !! x)) →
  ordered self (Br l n r) → ordered self (delete_root l r).
Proof.
  intros Hex (Hl & Hr & Hol & Hor).
  destruct l as [|l1 lc l2]; [done|]. destruct r as [|r1 c r2]; [done|].
  unfold delete_root. split; [|split; [|split]].
  - intros x Hx.
    destruct (node_less self x (leftmost r1 c)) eqn:Hxm; [done|].
    rewrite <- (Hl x Hx). symmetry.
    pose proof (leftmost_elem_of r1 c r2) as Hm.
    apply node_less_ntrans with (leftmost r1 c);
      auto using elem_of_ptrs_l, elem_of_ptrs_r, elem_of_ptrs_root.
  - intros y Hy. by apply (leftmost_least r1 c r2).
  - exact Hol.
  - by apply (ordered_remove_leftmost self (Br r1 c r2)).
Qed.

Lemma tree_delete_ordered n tr :
  (∀ x, x ∈ ptrs tr → is_Some (nodes self !! x)) →
  ordered self tr → ordered self (tree_delete n tr).
Proof.
  induction tr as [|l IHl p r IHr]; [done|]. intros Hex Hord.
  cbn [tree_delete]. destruct (decide (p = n)) as [->|Hne].
  - by apply (delete_root_ordered l n r).
  - destruct Hord as (Hl & Hr & Hol & Hor). cbn [ordered]. split_and!.
    + intros x Hx%tree_delete_subset. by apply Hl.
    + intros x Hx%tree_delete_subset. by apply Hr.
    + apply IHl; auto using elem_of_ptrs_l.
    + apply IHr; auto using elem_of_ptrs_r.
Qed.

End strict_weak.

(** ** Neighbours in the in-order sequence *)

Lemma subtree_notin p tr : p ∉ ptrs tr → subtree p tr = Leaf.
Proof.
  induction tr as [|l IHl q r IHr]; [done|]. intros Hp. cbn [subtree].
  rewrite decide_False by (intros ->; apply Hp, elem_of_ptrs_root).
  rewrite IHl by (intros Hin; by apply Hp, elem_of_ptrs_l).
  apply IHr. intros Hin. by apply Hp, elem_of_ptrs_r.
Qed.

(** Every node of a tree has its subtree, linked in the store as the tree
    is. *)
Lemma rep_subtree h par tr p :
  rep h par tr → p ∈ ptrs tr →
  ∃ par' l r, subtree p tr = Br l p r ∧ rep h par' (Br l p r) ∧
              size (Br l p r) ≤ size tr.
Proof.
  revert par. induction tr as [|l IHl q r IHr]; intros par Hrep Hp;
    [by apply elem_of_nil in Hp|].
  cbn [subtree]. destruct (decide (q = p)) as [->|Hne]; [by eauto 6|].
  pose proof Hrep as (qn & _ & _ & _ & _ & Hrl & Hrr).
  destruct (decide (p ∈ ptrs l)) as [Hl|Hl].
  - destruct (IHl _ Hrl Hl) as (par' & l' & r' & -> & Hrep' & Hsize).
    exists par', l', r'. split_and!; [done..|]. cbn [size] in *. lia.
  - rewrite (subtree_notin p l Hl).
    apply elem_of_ptrs_Br in Hp as [?|[?|Hr]]; [done|done|].
    destruct (IHr _ Hrr Hr) as (par' & l' & r' & -> & Hrep' & Hsize).
    exists par', l', r'. split_and!; [done..|]. cbn [size] in *. lia.
Qed.

Lemma head_ptrs l p r : head (ptrs (Br l p r)) = Some (leftmost l p).
Proof. by rewrite (ptrs_remove_leftmost l p r). Qed.

Lemma last_ptrs l p r : last (ptrs (Br l p r)) = Some (rightmost r p).
Proof.
  revert l p. induction r as [|r1 _ c r2 IH]; intros l p.
  - simpl. by rewrite last_snoc.
  - change (ptrs (Br l p (Br r1 c r2)))
      with (ptrs l ++ p :: ptrs (Br r1 c r2)).
    rewrite last_app, last_cons, IH. done.
Qed.

Lemma min_node_rep self par l p r fuel :
  rep (nodes self) par (Br l p r) → size (Br l p r) ≤ fuel →
  min_node fuel self (Some p) = Ok (leftmost l p).
Proof.
  intros Hrep Hfuel. pose proof (ldepth_le_size (Br l p r)) as Hd.
  replace fuel with (ldepth (Br l p r) + (fuel - ldepth (Br l p r))) by lia.
  by eapply min_node_loop_leftmost.
Qed.

Lemma max_node_rep self par l p r fuel :
  rep (nodes self) par (Br l p r) → size (Br l p r) ≤ fuel →
  max_node fuel self (Some p) = Ok (rightmost r p).
Proof.
  intros Hrep Hfuel. pose proof (rdepth_le_size (Br l p r)) as Hd.
  replace fuel with (rdepth (Br l p r) + (fuel - rdepth (Br l p r))) by lia.
  by eapply max_node_loop_rightmost.
Qed.

Lemma app_cons_split {A} (a b l1 l2 : list A) p n :
  a ++ p :: b = l1 ++ n :: l2 →
  (∃ l2', a = l1 ++ n :: l2' ∧ l2 = l2' ++ p :: b) ∨
  (n = p ∧ l1 = a ∧ l2 = b) ∨
  (∃ l1', b = l1' ++ n :: l2 ∧ l1 = a ++ p :: l1').
Proof.
  revert l1. induction a as [|x a IH]; intros l1 Heq.
  - destruct l1 as [|y l1]; simplify_eq/=; [by right; left|].
    right; right. by eexists.
  - destruct l1 as [|y l1]; simplify_eq/=; [left; by eexists|].
    destruct (IH l1 ltac:(done))
      as [(l2' & -> & ->)|[(-> & -> & ->)|(l1' & -> & ->)]].
    + left. by eexists.
    + by right; left.
    + right; right. by eexists.
Qed.

(** [successor_node] on a node [n] of a subtree [tr]: when a node follows
    [n] in the in-order sequence of [tr], that node is returned; otherwise
    [n] has no right child and the upward loop leaves [tr] through its
    root. *)
Lemma successor_inorder self tr par fuel n nn l1 l2 :
  rep (nodes self) par tr → NoDup (ptrs tr) → size tr ≤ fuel →
  ptrs tr = l1 ++ n :: l2 → nodes self !! n = Some nn →
  match l2 with
  | x :: _ => successor_node fuel self (Some n) = Ok (Some x)
  | [] =>
      right_child nn = None ∧
      ∃ l p r, tr = Br l p r ∧
        ∀ f, successor_loop (rdepth tr + f) self n (parent nn)
             = successor_loop f self p par
  end.
Proof.
  revert par l1 l2.
  induction tr as [|l IHl p r IHr]; intros par l1 l2 Hrep Hnd Hfuel Heq Hnn;
    [by destruct l1|].
  pose proof Hrep as (pn & Hp & Hpar & Hl & Hr & Hrl & Hrr).
  cbn [ptrs size] in Hnd, Hfuel, Heq.
  pose proof Hnd as (Hndl & Hdisj & [Hpr Hndr]%NoDup_cons)%NoDup_app.
  apply app_cons_split in Heq
    as [(l2' & Heq & ->)|[(-> & -> & ->)|(l1' & Heq & ->)]].
  - (* [n] is in the left subtree *)
    specialize (IHl (Some p) l1 l2' Hrl Hndl ltac:(lia) Heq Hnn).
    destruct l2' as [|x l2']; [|done].
    destruct IHl as (Hrc & l' & p' & r' & -> & Hclimb). simpl.
    unfold successor_node. rewrite Hnn, Hrc.
    pose proof (rdepth_le_size (Br l' p' r')) as Hd. cbn [size] in *.
    replace fuel with (rdepth (Br l' p' r') + (fuel - rdepth (Br l' p' r')))
      by lia.
    rewrite Hclimb, successor_loop_unfold, Hp.
    rewrite bool_decide_eq_false_2; [done|]. rewrite Hr.
    apply root_not_in_sibling with (Br l' p' r').
    + intros x Hx Hxr. apply (Hdisj x Hx). by right.
    + apply elem_of_ptrs_root.
  - (* [n] is the root *)
    simplify_eq. rewrite Hr. destruct r as [|r1 c r2].
    + split; [done|]. exists l, p, Leaf. split; [done|]. by intros f.
    + rewrite (ptrs_remove_leftmost r1 c r2). unfold successor_node.
      rewrite Hnn, Hr. cbn [root_of].
      rewrite (min_node_rep self (Some p) r1 c r2) by (done || lia). done.
  - (* [n] is in the right subtree *)
    specialize (IHr (Some p) l1' l2 Hrr Hndr ltac:(lia) Heq Hnn).
    destruct l2 as [|x l2]; [|done].
    destruct IHr as (Hrc & r1 & c & r2 & -> & Hclimb). split; [done|].
    exists l, p, (Br r1 c r2). split; [done|]. intros f.
    change (rdepth (Br l p (Br r1 c r2))) with (S (rdepth (Br r1 c r2))).
    rewrite Nat.add_succ_comm, Hclimb, successor_loop_unfold, Hp, Hr. simpl.
    by rewrite bool_decide_eq_true_2, Hpar by done.
Qed.

(** The same for [predecessor_node] and the node before [n]. *)
Lemma predecessor_inorder self tr par fuel n nn l1 l2 :
  rep (nodes self) par tr → NoDup (ptrs tr) → size tr ≤ fuel →
  ptrs tr = l1 ++ n :: l2 → nodes self !! n = Some nn →
  match last l1 with
  | Some x => predecessor_node fuel self (Some n) = Ok (Some x)
  | None =>
      left_child nn = None ∧
      ∃ l p r, tr = Br l p r ∧
        ∀ f, predecessor_loop (ldepth tr + f) self n (parent nn)
             = predecessor_loop f self p par
  end.
Proof.
  revert par l1 l2.
  induction tr as [|l IHl p r IHr]; intros par l1 l2 Hrep Hnd Hfuel Heq Hnn;
    [by destruct l1|].
  pose proof Hrep as (pn & Hp & Hpar & Hl & Hr & Hrl & Hrr).
  cbn [ptrs size] in Hnd, Hfuel, Heq.
  pose proof Hnd as (Hndl & Hdisj & [Hpr Hndr]%NoDup_cons)%NoDup_app.
  apply app_cons_split in Heq
    as [(l2' & Heq & ->)|[(-> & -> & ->)|(l1' & Heq & ->)]].
  - (* [n] is in the left subtree *)
    specialize (IHl (Some p) l1 l2' Hrl Hndl ltac:(lia) Heq Hnn).
    destruct (last l1) as [x|]; [done|].
    destruct IHl as (Hlc & l' & p' & r' & -> & Hclimb). split; [done|].
    exists (Br l' p' r'), p, r. split; [done|]. intros f.
    change (ldepth (Br (Br l' p' r') p r)) with (S (ldepth (Br l' p' r'))).
    rewrite Nat.add_succ_comm, Hclimb, predecessor_loop_unfold, Hp, Hl. simpl.
    by rewrite bool_decide_eq_true_2, Hpar by done.
  - (* [n] is the root *)
    simplify_eq. rewrite Hl. destruct l as [|l1 c l2].
    + split; [done|]. exists Leaf, p, r. split; [done|]. by intros f.
    + rewrite last_ptrs. unfold predecessor_node.
      rewrite Hnn, Hl. cbn [root_of].
      rewrite (max_node_rep self (Some p) l1 c l2) by (done || lia). done.
  - (* [n] is in the right subtree *)
    specialize (IHr (Some p) l1' l2 Hrr Hndr ltac:(lia) Heq Hnn).
    rewrite last_app, last_cons.
    destruct (last l1') as [x|]; [done|].
    destruct IHr as (Hlc & r1 & c & r2 & -> & Hclimb).
    unfold predecessor_node. rewrite Hnn, Hlc.
    pose proof (ldepth_le_size (Br r1 c r2)) as Hd. cbn [size] in *.
    replace fuel with (ldepth (Br r1 c r2) + (fuel - ldepth (Br r1 c r2)))
      by lia.
    rewrite Hclimb, predecessor_loop_unfold, Hp.
    rewrite bool_decide_eq_false_2; [done|]. rewrite Hl.
    apply root_not_in_sibling with (Br r1 c r2).
    + intros x Hx Hxl. apply (Hdisj x Hxl). by right.
    + apply elem_of_ptrs_root.
Qed.

(** ** Searching *)

Lemma iterative_search_loop_sound fuel self k o p :
  iterative_search_loop fuel self k o = Ok (Some p) →
  in_subtree self o p ∧
  ∃ n, nodes self !! p = Some n ∧
       cmp_fn self k (key n) ≠ CMPValues.LESS ∧
       cmp_fn self k (key n) ≠ CMPValues.GREATER.
Proof.
  revert o. induction fuel as [|fuel IH]; intros [r|]; simpl; try done.
  destruct (nodes self !! r) as [n|] eqn:Hn; [|done].
  destruct (_ =? CMPValues.LESS)%Z eqn:Hl.
  { intros [Hin Hres]%IH. split; [by eapply in_subtree_left|done]. }
  destruct (_ =? CMPValues.GREATER)%Z eqn:Hg.
  { intros [Hin Hres]%IH. split; [by eapply in_subtree_right|done]. }
  intros [= <-]. split; [constructor|]. exists n.
  by rewrite Z.eqb_neq in Hl, Hg.
Qed.

(** On an ordered tree the iterative descent for the key of a node of the
    tree does not run into [None]. *)
Lemma iterative_search_loop_complete self k par tr x nx fuel :
  rep (nodes self) par tr → ordered self tr → x ∈ ptrs tr →
  nodes self !! x = Some nx → key nx = k →
  cmp_fn self k k ≠ CMPValues.LESS → cmp_fn self k k ≠ CMPValues.GREATER →
  size tr ≤ fuel →
  ∃ p, iterative_search_loop fuel self k (root_of tr) = Ok (Some p).
Proof.
  intros Hrep Hord Hx Hnx Hk Hnl Hng. revert par fuel Hrep Hord Hx.
  induction tr as [|l IHl a r IHr]; intros par fuel Hrep Hord Hx Hfuel;
    [by apply elem_of_nil in Hx|].
  destruct Hrep as (an & Ha & _ & Hl & Hr & Hrl & Hrr).
  destruct Hord as (Hless & Hnless & Hol & Hor).
  destruct fuel as [|fuel]; [simpl in Hfuel; lia|]. cbn [size] in Hfuel.
  cbn [root_of iterative_search_loop]. rewrite Ha.
  apply elem_of_ptrs_Br in Hx as [Hx|[->|Hx]].
  - specialize (Hless x Hx). unfold node_less in Hless.
    rewrite Hnx, Ha, Hk in Hless. rewrite Hless, Hl.
    eapply IHl; eauto. lia.
  - simplify_eq. apply Z.eqb_neq in Hnl, Hng. rewrite Hnl, Hng. by eexists.
  - specialize (Hnless x Hx). unfold node_less in Hnless.
    rewrite Hnx, Ha, Hk in Hnless. rewrite Hnless.
    destruct (_ =? CMPValues.GREATER)%Z; [|by eexists].
    rewrite Hr. eapply IHr; eauto. lia.
Qed.

(** With a comparator that never reports a key GREATER than itself, the
    recursive search only ever follows [left_child] links. *)
Lemma recursive_search_left_spine fuel self k o p :
  (∀ a, cmp_fn self a a ≠ CMPValues.GREATER) →
  recursive_search fuel self o k = Ok (Some p) →
  on_left_spine self o p ∧
  ∃ n, nodes self !! p = Some n ∧ cmp_fn self (key n) k = CMPValues.EQUAL.
Proof.
  intros Hrefl. revert o.
  induction fuel as [|fuel IH]; intros [r|]; simpl; try done.
  destruct (nodes self !! r) as [n|] eqn:Hn; [|done].
  destruct (_ =? CMPValues.EQUAL)%Z eqn:He.
  { intros [= <-]. split; [constructor|]. exists n.
    by rewrite Z.eqb_eq in He. }
  rewrite (proj2 (Z.eqb_neq _ _) (Hrefl (key n))).
  intros [Hin Hres]%IH. split; [by eapply on_left_spine_down|done].
Qed.

(** ** Insertions and the order *)

Lemma insert_node_ordered fuel self k tr :
  represents self tr → ordered self tr → size tr ≤ fuel →
  ∃ self',
    insert_node fuel self k (PyStr "i") = (Ok (length (nodes self)), self') ∧
    represents self' (tree_insert (less self k) (length (nodes self)) tr) ∧
    ordered self' (tree_insert (less self k) (length (nodes self)) tr) ∧
    cmp_fn self' = cmp_fn self ∧
    (∀ p, p < length (nodes self) →
          key <$> nodes self' !! p = key <$> nodes self !! p) ∧
    key <$> nodes self' !! length (nodes self) = Some k.
Proof.
  intros Hrep Hord Hfuel.
  destruct (insert_node_represents fuel self k tr Hrep Hfuel)
    as (self' & Hins & Hrep' & Hcmp & Hkeys & Hkey).
  exists self'. split_and!; try done.
  destruct Hrep as (_ & Hrep & _).
  apply tree_insert_ordered.
  - eapply ordered_ext; [done| |done]. intros x Hx. apply Hkeys.
    by eapply rep_valid.
  - intros p Hp. unfold node_less, less. rewrite Hcmp.
    specialize (Hkeys p (rep_valid _ _ _ _ Hrep Hp)).
    destruct (rep_lookup _ _ _ _ Hrep Hp) as [pn Hpn].
    rewrite Hpn in Hkeys |- *.
    destruct (nodes self' !! length (nodes self)) as [nn|]; [|done].
    destruct (nodes self' !! p) as [pn'|]; [|done].
    simpl in Hkey, Hkeys. injection Hkey as ->. injection Hkeys as ->. done.
Qed.

(** ** The states a caller can reach *)

Lemma insert_loop_mono fuel fuel' self nn pv c o :
  iterative_insert_loop fuel self nn pv c = Ok o → fuel ≤ fuel' →
  iterative_insert_loop fuel' self nn pv c = Ok o.
Proof.
  revert fuel' pv c. induction fuel as [|fuel IH]; intros fuel' pv [c|];
    simpl; try done.
  - intros [= <-] _. apply insert_loop_None.
  - intros Hloop Hfuel. destruct fuel' as [|fuel']; [lia|]. simpl.
    destruct (nodes self !! nn); [|done].
    destruct (nodes self !! c); [|done].
    destruct (_ =? _)%Z; apply IH; (done || lia).
  - intros [= <-] _. apply insert_loop_None.
Qed.

Lemma insert_node_mono fuel fuel' self k r self' :
  insert_node fuel self k (PyStr "i") = (Ok r, self') → fuel ≤ fuel' →
  insert_node fuel' self k (PyStr "i") = (Ok r, self').
Proof.
  unfold insert_node, alloc.
  cbn [negb isinstance_str py_eq_str bool_decide]. simpl.
  unfold iterative_insert. intros Hins Hfuel.
  destruct (iterative_insert_loop fuel _ _ _ _) as [o|] eqn:Hloop; [|done].
  by rewrite (insert_loop_mono _ _ _ _ _ _ _ Hloop Hfuel).
Qed.

Lemma min_node_loop_mono fuel fuel' self p m :
  min_node_loop fuel self p = Ok m → fuel ≤ fuel' →
  min_node_loop fuel' self p = Ok m.
Proof.
  revert fuel' p. induction fuel as [|fuel IH]; intros fuel' p;
    rewrite !min_node_loop_unfold;
    destruct (nodes self !! p) as [n|]; try done;
    destruct (left_child n); try done.
  intros Hloop Hfuel. destruct fuel' as [|fuel']; [lia|].
  apply IH; [done|lia].
Qed.

Lemma delete_node_mono fuel fuel' self o self' :
  delete_node fuel self o = Ok self' → fuel ≤ fuel' →
  delete_node fuel' self o = Ok self'.
Proof.
  unfold delete_node. destruct o as [nd|]; [|done].
  destruct (get self nd) as [n|]; [|done]. cbn [mbind result_bind].
  destruct (left_child n); [|done]. destruct (right_child n) as [r|]; [|done].
  unfold min_node. intros Hdel Hfuel.
  destruct (min_node_loop fuel self r) as [m|] eqn:Hmin; [|done].
  by rewrite (min_node_loop_mono _ _ _ _ _ Hmin Hfuel).
Qed.

Lemma represents_set_cmp_fn cmp self tr :
  represents self tr → represents (set_cmp_fn cmp self) tr.
Proof. done. Qed.

(** Every state a caller can reach holds a tree. *)
Lemma bst_reachable_represents self : reachable self → ∃ tr, represents self tr.
Proof.
  induction 1 as [cmp|fuel self k mode new self' _ [tr Hrep] Hins
                  |fuel self n self' _ [tr Hrep] Hin Hdel
                  |cmp self _ [tr Hrep]].
  - exists Leaf. apply bst_init_represents.
  - assert (insert_node fuel self k (PyStr "i") = (Ok new, self')) as Hins'.
    { destruct mode as [s| |]; try done.
      destruct (decide (s = "i")) as [->|Hi]; [done|].
      destruct (decide (s = "r")) as [->|Hr];
        [by rewrite <- insert_node_modes_equal|].
      unfold insert_node, alloc in Hins.
      cbn [negb isinstance_str py_eq_str] in Hins.
      by rewrite !bool_decide_eq_false_2 in Hins by done. }
    destruct (insert_node_represents (fuel `max` size tr) self k tr Hrep)
      as (self'' & Hins'' & Hrep'' & _); [lia|].
    rewrite (insert_node_mono _ _ _ _ _ _ Hins') in Hins'' by lia.
    simplify_eq. by eexists.
  - pose proof Hrep as (Hroot & Hr & _). rewrite Hroot in Hin.
    apply (in_subtree_ptrs _ _ _ _ Hr) in Hin.
    destruct (delete_node_represents (fuel `max` size tr) self tr n Hrep Hin)
      as (self'' & Hdel'' & Hrep'' & _); [lia|].
    rewrite (delete_node_mono _ _ _ _ _ Hdel) in Hdel'' by lia.
    simplify_eq. by eexists.
  - exists tr. by apply represents_set_cmp_fn.
Qed.

(** ** Traversals *)

Section walks.
Context {Callback : Type} (print : Callback).

Lemma inorder_walk_rep self par tr fuel :
  rep (nodes self) par tr → size tr ≤ fuel →
  ∃ calls, inorder_walk print fuel self (root_of tr) print = Ok calls ∧
           Forall2 (default_call print self) calls (ptrs tr).
Proof.
  revert par fuel. induction tr as [|l IHl p r IHr]; intros par fuel.
  - intros _ _. exists []. split; [by destruct fuel|constructor].
  - intros (n & Hn & _ & Hl & Hr & Hrl & Hrr) Hfuel.
    destruct fuel as [|fuel]; [simpl in Hfuel; lia|]. cbn [size] in Hfuel.
    destruct (IHl _ fuel Hrl) as (cl & Hcl & Hfl); [lia|].
    destruct (IHr _ fuel Hrr) as (cr & Hcr & Hfr); [lia|].
    cbn [root_of inorder_walk]. rewrite Hn, Hl, Hcl, Hr, Hcr.
    eexists. split; [done|]. cbn [ptrs].
    apply Forall2_app; [done|]. constructor; [|done].
    split; [done|]. by rewrite Hn.
Qed.

Lemma preorder_walk_rep self par tr fuel :
  rep (nodes self) par tr → size tr ≤ fuel →
  ∃ calls, preorder_walk print fuel self (root_of tr) print = Ok calls ∧
           Forall2 (default_call print self) calls (preorder tr).
Proof.
  revert par fuel. induction tr as [|l IHl p r IHr]; intros par fuel.
  - intros _ _. exists []. split; [by destruct fuel|constructor].
  - intros (n & Hn & _ & Hl & Hr & Hrl & Hrr) Hfuel.
    destruct fuel as [|fuel]; [simpl in Hfuel; lia|]. cbn [size] in Hfuel.
    destruct (IHl _ fuel Hrl) as (cl & Hcl & Hfl); [lia|].
    destruct (IHr _ fuel Hrr) as (cr & Hcr & Hfr); [lia|].
    cbn [root_of preorder_walk]. rewrite Hn, Hl, Hcl, Hr, Hcr.
    eexists. split; [done|]. cbn [preorder app].
    constructor; [|by apply Forall2_app].
    split; [done|]. by rewrite Hn.
Qed.

Lemma postorder_walk_rep self par tr fuel :
  rep (nodes self) par tr → size tr ≤ fuel →
  ∃ calls, postorder_walk print fuel self (root_of tr) print = Ok calls ∧
           Forall2 (default_call print self) calls (postorder tr).
Proof.
  revert par fuel. induction tr as [|l IHl p r IHr]; intros par fuel.
  - intros _ _. exists []. split; [by destruct fuel|constructor].
  - intros (n & Hn & _ & Hl & Hr & Hrl & Hrr) Hfuel.
    destruct fuel as [|fuel]; [simpl in Hfuel; lia|]. cbn [size] in Hfuel.
    destruct (IHl _ fuel Hrl) as (cl & Hcl & Hfl); [lia|].
    destruct (IHr _ fuel Hrr) as (cr & Hcr & Hfr); [lia|].
    cbn [root_of postorder_walk]. rewrite Hn, Hl, Hcl, Hr, Hcr.
    eexists. split; [done|]. cbn [postorder].
    apply Forall2_app; [done|]. apply Forall2_app; [done|].
    constructor; [|constructor]. split; [done|]. by rewrite Hn.
Qed.

(** The walks from a node [p] with the subtree [Br l p r]. *)
Lemma walks_from_node self par l p r fuel (operation : Callback) :
  rep (nodes self) par (Br l p r) → size (Br l p r) ≤ fuel →
  ∃ k, key_of self (Some p) = Some k ∧
    (∃ cl cr,
       inorder_walk print fuel self (Some p) operation
         = Ok (cl ++ [(operation, k)] ++ cr) ∧
       Forall2 (default_call print self) cl (ptrs l) ∧
       Forall2 (default_call print self) cr (ptrs r)) ∧
    (∃ cl cr,
       preorder_walk print fuel self (Some p) operation
         = Ok ([(operation, k)] ++ cl ++ cr) ∧
       Forall2 (default_call print self) cl (preorder l) ∧
       Forall2 (default_call print self) cr (preorder r)) ∧
    (∃ cl cr,
       postorder_walk print fuel self (Some p) operation
         = Ok (cl ++ cr ++ [(operation, k)]) ∧
       Forall2 (default_call print self) cl (postorder l) ∧
       Forall2 (default_call print self) cr (postorder r)).
Proof.
  intros (n & Hn & _ & Hl & Hr & Hrl & Hrr) Hfuel.
  destruct fuel as [|fuel]; [simpl in Hfuel; lia|]. cbn [size] in Hfuel.
  exists (key n). split; [unfold key_of; simpl; by rewrite Hn|].
  split_and!.
  - destruct (inorder_walk_rep self _ l fuel Hrl) as (cl & Hcl & Hfl); [lia|].
    destruct (inorder_walk_rep self _ r fuel Hrr) as (cr & Hcr & Hfr); [lia|].
    exists cl, cr. cbn [inorder_walk]. by rewrite Hn, Hl, Hcl, Hr, Hcr.
  - destruct (preorder_walk_rep self _ l fuel Hrl) as (cl & Hcl & Hfl); [lia|].
    destruct (preorder_walk_rep self _ r fuel Hrr) as (cr & Hcr & Hfr); [lia|].
    exists cl, cr. cbn [preorder_walk]. by rewrite Hn, Hl, Hcl, Hr, Hcr.
  - destruct (postorder_walk_rep self _ l fuel Hrl) as (cl & Hcl & Hfl);
      [lia|].
    destruct (postorder_walk_rep self _ r fuel Hrr) as (cr & Hcr & Hfr);
      [lia|].
    exists cl, cr. cbn [postorder_walk]. by rewrite Hn, Hl, Hcl, Hr, Hcr.
Qed.

End walks.

(** ** What a caller can rely on *)

Lemma ptrs_tree_insert_split go_left new tr :
  ∃ l1 l2, ptrs tr = l1 ++ l2 ∧
           ptrs (tree_insert go_left new tr) = l1 ++ new :: l2.
Proof.
  induction tr as [|l (a & b & Hl & Hl') p r (c & d & Hr & Hr')].
  - by exists [], [].
  - cbn [tree_insert]. destruct (go_left p); cbn [ptrs].
    + exists a, (b ++ p :: ptrs r). rewrite Hl, Hl', <- !app_assoc. done.
    + exists (ptrs l ++ p :: c), d. rewrite Hr, Hr', <- !app_assoc. done.
Qed.

(** X6: [insert_node], in either mode, on a tree with fuel for its size
    returns a node that was not in the tree and leaves a tree: its in-order
    sequence is the one before with the new node put in at one place.  The
    new node holds [new_key]; the keys of the other nodes and the comparator
    are as before. *)
Theorem bst_insert_adds_one_node fuel self tr new_key (mode : string) :
  represents self tr → size tr ≤ fuel → mode = "i" ∨ mode = "r" →
  ∃ new self' tr' l1 l2,
    insert_node fuel self new_key (PyStr mode) = (Ok new, self') ∧
    represents self' tr' ∧
    (new ∉ ptrs tr) ∧ ptrs tr = l1 ++ l2 ∧ ptrs tr' = l1 ++ new :: l2 ∧
    key_of self' (Some new) = Some new_key ∧
    (∀ p, p ∈ ptrs tr → key_of self' (Some p) = key_of self (Some p)) ∧
    cmp_fn self' = cmp_fn self.
Proof.
  intros Hrep Hfuel Hmode.
  destruct (insert_node_represents fuel self new_key tr Hrep Hfuel)
    as (self' & Hins & Hrep' & Hcmp & Hkeys & Hkey).
  destruct (ptrs_tree_insert_split (less self new_key) (length (nodes self)) tr)
    as (l1 & l2 & Hl & Hl').
  destruct Hrep as (_ & Hr & _).
  exists (length (nodes self)), self',
    (tree_insert (less self new_key) (length (nodes self)) tr), l1, l2.
  split_and!; try done.
  - destruct Hmode as [->| ->]; [done|]. by rewrite insert_node_modes_equal.
  - intros Hin%(rep_valid _ _ _ _ Hr). lia.
  - intros p Hp. apply Hkeys. by eapply rep_valid.
Qed.

(** X7: [insert_node] keeps the order of the keys: when below every node the
    keys of the left subtree compare LESS than the key of the node and those
    of the right subtree do not, the same holds after the insertion, whatever
    the comparator. *)
Theorem bst_insert_keeps_order fuel self tr new_key (mode : string) :
  represents self tr → ordered self tr → size tr ≤ fuel →
  mode = "i" ∨ mode = "r" →
  ∃ new self' tr',
    insert_node fuel self new_key (PyStr mode) = (Ok new, self') ∧
    represents self' tr' ∧ ordered self' tr'.
Proof.
  intros Hrep Hord Hfuel Hmode.
  destruct (insert_node_ordered fuel self new_key tr Hrep Hord Hfuel)
    as (self' & Hins & Hrep' & Hord' & _).
  exists (length (nodes self)), self',
    (tree_insert (less self new_key) (length (nodes self)) tr).
  split_and!; try done.
  destruct Hmode as [->| ->]; [done|]. by rewrite insert_node_modes_equal.
Qed.

(** X8: after [insert_node] of a key that the comparator reports EQUAL to
    itself into an ordered tree, the iterative [search] for that key returns
    a node, one whose key the comparator reports neither LESS nor GREATER
    than the searched key. *)
Theorem bst_search_finds_inserted_key fuel self tr k (mode : string) :
  represents self tr → ordered self tr → size tr < fuel →
  mode = "i" ∨ mode = "r" →
  cmp_fn self k k = CMPValues.EQUAL →
  ∃ new self' p n,
    insert_node fuel self k (PyStr mode) = (Ok new, self') ∧
    search fuel self' k (PyStr "i") = Ok (Some p) ∧
    nodes self' !! p = Some n ∧
    cmp_fn self k (key n) ≠ CMPValues.LESS ∧
    cmp_fn self k (key n) ≠ CMPValues.GREATER.
Proof.
  intros Hrep Hord Hfuel Hmode Hrefl.
  destruct (insert_node_ordered fuel self k tr Hrep Hord ltac:(lia))
    as (self' & Hins & Hrep' & Hord' & Hcmp & _ & Hkey).
  destruct Hrep' as (Hroot' & Hr' & _).
  destruct (nodes self' !! length (nodes self)) as [nn|] eqn:Hnn; [|done].
  injection Hkey as Hkey.
  destruct (iterative_search_loop_complete self' k None _
              (length (nodes self)) nn fuel Hr' Hord') as [p Hp]; try done.
  { destruct (ptrs_tree_insert_split (less self k) (length (nodes self)) tr)
      as (l1 & l2 & _ & ->). apply elem_of_app. right. by left. }
  { rewrite Hcmp, Hrefl. done. }
  { rewrite Hcmp, Hrefl. done. }
  { rewrite size_tree_insert. lia. }
  rewrite <- Hroot' in Hp.
  destruct (iterative_search_loop_sound _ _ _ _ _ Hp) as (_ & n & Hn & Hl & Hg).
  exists (length (nodes self)), self', p, n. rewrite <- Hcmp.
  split_and!; try done.
  destruct Hmode as [->| ->]; [done|]. by rewrite insert_node_modes_equal.
Qed.

(** X9: in any state, a node returned by the iterative [search] is met when
    descending from the root, and the comparator reports the searched key
    neither LESS nor GREATER than its key. *)
Theorem bst_iterative_search_sound fuel self k p :
  search fuel self k (PyStr "i") = Ok (Some p) →
  in_subtree self (root self) p ∧
  ∃ n, nodes self !! p = Some n ∧
       cmp_fn self k (key n) ≠ CMPValues.LESS ∧
       cmp_fn self k (key n) ≠ CMPValues.GREATER.
Proof. apply iterative_search_loop_sound. Qed.

(** X10: on an ordered tree the iterative [search] for the key of a node of
    the tree, a key that the comparator reports EQUAL to itself, returns a
    node of the tree. *)
Theorem bst_iterative_search_complete fuel self tr x k :
  represents self tr → ordered self tr → x ∈ ptrs tr →
  key_of self (Some x) = Some k → cmp_fn self k k = CMPValues.EQUAL →
  size tr ≤ fuel →
  ∃ p n,
    search fuel self k (PyStr "i") = Ok (Some p) ∧ p ∈ ptrs tr ∧
    nodes self !! p = Some n ∧
    cmp_fn self k (key n) ≠ CMPValues.LESS ∧
    cmp_fn self k (key n) ≠ CMPValues.GREATER.
Proof.
  intros (Hroot & Hrep & _) Hord Hx Hkey Hrefl Hfuel.
  unfold key_of in Hkey. simpl in Hkey.
  destruct (nodes self !! x) as [nx|] eqn:Hnx; [|done]. injection Hkey as Hkey.
  destruct (iterative_search_loop_complete self k None tr x nx fuel)
    as [p Hp]; try done; try (by rewrite Hrefl).
  rewrite <- Hroot in Hp.
  destruct (iterative_search_loop_sound _ _ _ _ _ Hp) as (Hin & n & Hn & Hl & Hg).
  exists p, n. split_and!; try done.
  rewrite Hroot in Hin. by eapply in_subtree_ptrs.
Qed.

(** X11: with a comparator that never reports a key GREATER than itself, a
    node returned by the recursive [search] lies on the path of
    [left_child] links from the root, and the comparator reports its key
    EQUAL to the searched key: no node off that path is ever returned. *)
Theorem bst_recursive_search_left_spine_only fuel self k p :
  (∀ a, cmp_fn self a a ≠ CMPValues.GREATER) →
  search fuel self k (PyStr "r") = Ok (Some p) →
  on_left_spine self (root self) p ∧
  ∃ n, nodes self !! p = Some n ∧ cmp_fn self (key n) k = CMPValues.EQUAL.
Proof. intros Hrefl. by apply recursive_search_left_spine. Qed.

(** X12: [delete_node] of a node of a tree, with fuel for the size of the
    tree, never raises and leaves a tree whose in-order sequence is the one
    before without the deleted node; the comparator, the number of allocated
    nodes and every key are as before. *)
Theorem bst_delete_removes_node fuel self tr n :
  represents self tr → n ∈ ptrs tr → size tr ≤ fuel →
  ∃ self' tr',
    delete_node fuel self (Some n) = Ok self' ∧
    represents self' tr' ∧
    ptrs tr' = filter (λ x, x ≠ n) (ptrs tr) ∧
    same_keys self self'.
Proof.
  intros Hrep Hn Hfuel.
  destruct (delete_node_represents fuel self tr n Hrep Hn Hfuel)
    as (self' & Hdel & Hrep' & _).
  exists self', (tree_delete n tr). split_and!; try done.
  - apply ptrs_tree_delete_filter. by destruct Hrep as (_ & _ & ?).
  - by eapply delete_node_same_keys.
Qed.

(** X13: with a comparator whose verdict LESS is a strict weak order,
    [delete_node] keeps the order of the keys: after the deletion the keys
    of every left subtree still compare LESS than the key of the node above
    and those of every right subtree still do not. *)
Theorem bst_delete_keeps_order fuel self tr n :
  represents self tr → ordered self tr → strict_weak_order (cmp_fn self) →
  n ∈ ptrs tr → size tr ≤ fuel →
  ∃ self' tr',
    delete_node fuel self (Some n) = Ok self' ∧
    represents self' tr' ∧ ordered self' tr'.
Proof.
  intros Hrep Hord Hswo Hn Hfuel.
  destruct (delete_node_represents fuel self tr n Hrep Hn Hfuel)
    as (self' & Hdel & Hrep' & _).
  exists self', (tree_delete n tr). split_and!; try done.
  destruct (delete_node_same_keys _ _ _ _ Hdel) as (Hcmp & _ & Hkeys).
  eapply ordered_ext; [done|by intros x _|].
  apply tree_delete_ordered; [done| |done].
  intros x Hx. destruct Hrep as (_ & Hr & _). by eapply rep_lookup.
Qed.

(** X14: deleting the nodes of a tree one after the other, in any order,
    never raises and leaves the empty tree, with [root] [None]. *)
Theorem bst_delete_all_empties_tree fuel self tr ns :
  represents self tr → ns ≡ₚ ptrs tr → size tr ≤ fuel →
  ∃ self', delete_all fuel self ns = Ok self' ∧ root self' = None ∧
           same_keys self self'.
Proof.
  intros Hrep Hperm Hfuel.
  destruct (delete_all_represents fuel self tr ns Hrep Hperm Hfuel)
    as (self' & Hall & (Hroot & _) & Hkeys).
  by exists self'.
Qed.

(** X15: [min_node] of a node [p] of a tree returns the first node in the
    in-order sequence of the subtree below [p], a node without a left
    child. *)
Theorem bst_min_node_first_inorder fuel self tr p :
  represents self tr → p ∈ ptrs tr → size tr ≤ fuel →
  ∃ m mn,
    min_node fuel self (Some p) = Ok m ∧
    head (ptrs (subtree p tr)) = Some m ∧
    nodes self !! m = Some mn ∧ left_child mn = None.
Proof.
  intros (_ & Hrep & _) Hp Hfuel.
  destruct (rep_subtree _ _ _ _ Hrep Hp) as (par & l & r & -> & Hsub & Hsize).
  destruct (predecessor_loop_climb self par l p r Hsub) as (mn & Hm & Hml & _).
  exists (leftmost l p), mn. split_and!; try done.
  - eapply min_node_rep; [done|lia].
  - apply head_ptrs.
Qed.

(** X16: [max_node] of a node [p] of a tree returns the last node in the
    in-order sequence of the subtree below [p], a node without a right
    child. *)
Theorem bst_max_node_last_inorder fuel self tr p :
  represents self tr → p ∈ ptrs tr → size tr ≤ fuel →
  ∃ m mn,
    max_node fuel self (Some p) = Ok m ∧
    last (ptrs (subtree p tr)) = Some m ∧
    nodes self !! m = Some mn ∧ right_child mn = None.
Proof.
  intros (_ & Hrep & _) Hp Hfuel.
  destruct (rep_subtree _ _ _ _ Hrep Hp) as (par & l & r & -> & Hsub & Hsize).
  destruct (successor_loop_climb self par l p r Hsub) as (mn & Hm & Hmr & _).
  exists (rightmost r p), mn. split_and!; try done.
  - eapply max_node_rep; [done|lia].
  - apply last_ptrs.
Qed.

(** X17: [successor_node] of a node of a tree returns the node that follows
    it in the in-order sequence of the tree, and [None] for the last
    one. *)
Theorem bst_successor_next_inorder fuel self tr n l1 l2 :
  represents self tr → size tr ≤ fuel → ptrs tr = l1 ++ n :: l2 →
  successor_node fuel self (Some n) = Ok (head l2).
Proof.
  intros (_ & Hrep & Hnd) Hfuel Heq.
  assert (Hn : n ∈ ptrs tr) by (rewrite Heq, elem_of_app; right; by left).
  destruct (rep_lookup _ _ _ _ Hrep Hn) as [nn Hnn].
  pose proof (successor_inorder self tr None fuel n nn l1 l2
                Hrep Hnd Hfuel Heq Hnn) as Hsucc.
  destruct l2 as [|x l2]; [|done].
  destruct Hsucc as (Hrc & l & p & r & -> & Hclimb).
  unfold successor_node. rewrite Hnn, Hrc.
  pose proof (rdepth_le_size (Br l p r)) as Hd.
  replace fuel with (rdepth (Br l p r) + (fuel - rdepth (Br l p r))) by lia.
  rewrite Hclimb. by rewrite successor_loop_unfold.
Qed.

(** X18: [predecessor_node] of a node of a tree returns the node before it
    in the in-order sequence of the tree, and [None] for the first one. *)
Theorem bst_predecessor_previous_inorder fuel self tr n l1 l2 :
  represents self tr → size tr ≤ fuel → ptrs tr = l1 ++ n :: l2 →
  predecessor_node fuel self (Some n) = Ok (last l1).
Proof.
  intros (_ & Hrep & Hnd) Hfuel Heq.
  assert (Hn : n ∈ ptrs tr) by (rewrite Heq, elem_of_app; right; by left).
  destruct (rep_lookup _ _ _ _ Hrep Hn) as [nn Hnn].
  pose proof (predecessor_inorder self tr None fuel n nn l1 l2
                Hrep Hnd Hfuel Heq Hnn) as Hpred.
  destruct (last l1) as [x|]; [done|].
  destruct Hpred as (Hlc & l & p & r & -> & Hclimb).
  unfold predecessor_node. rewrite Hnn, Hlc.
  pose proof (ldepth_le_size (Br l p r)) as Hd.
  replace fuel with (ldepth (Br l p r) + (fuel - ldepth (Br l p r))) by lia.
  rewrite Hclimb. by rewrite predecessor_loop_unfold.
Qed.

(** X19: each of the three walks, started at a node [p] of a tree with a
    callback [operation], visits every node of the subtree below [p] once,
    in in-order, pre-order and post-order respectively, and passes the key
    of the visited node to the callback: to [operation] at [p] itself and
    to the default callback [print] at every node below [p]. *)
Theorem bst_walks_visit_subtree {Callback} (print operation : Callback)
    fuel self tr p :
  represents self tr → p ∈ ptrs tr → size tr ≤ fuel →
  ∃ l r k,
    subtree p tr = Br l p r ∧ key_of self (Some p) = Some k ∧
    (∃ cl cr,
       inorder_walk print fuel self (Some p) operation
         = Ok (cl ++ [(operation, k)] ++ cr) ∧
       Forall2 (default_call print self) cl (ptrs l) ∧
       Forall2 (default_call print self) cr (ptrs r)) ∧
    (∃ cl cr,
       preorder_walk print fuel self (Some p) operation
         = Ok ([(operation, k)] ++ cl ++ cr) ∧
       Forall2 (default_call print self) cl (preorder l) ∧
       Forall2 (default_call print self) cr (preorder r)) ∧
    (∃ cl cr,
       postorder_walk print fuel self (Some p) operation
         = Ok (cl ++ cr ++ [(operation, k)]) ∧
       Forall2 (default_call print self) cl (postorder l) ∧
       Forall2 (default_call print self) cr (postorder r)).
Proof.
  intros (_ & Hrep & _) Hp Hfuel.
  destruct (rep_subtree _ _ _ _ Hrep Hp) as (par & l & r & Hsub & Hrsub & Hsize).
  destruct (walks_from_node print self par l p r fuel operation Hrsub)
    as (k & Hk & Hwalks); [lia|].
  by exists l, r, k.
Qed.

(** X20: every state reached from the empty tree by insertions in either
    mode, deletions of nodes of the tree and changes of the comparator
    holds a tree: the nodes met from [root] are linked by child and parent
    references that agree, the parent of the root is [None], and no node is
    met twice. *)
Theorem bst_reachable_well_formed self :
  reachable self →
  ∃ tr, represents self tr ∧
        ∀ n, in_subtree self (root self) n ↔ n ∈ ptrs tr.
Proof.
  intros [tr Hrep]%bst_reachable_represents. exists tr. split; [done|].
  destruct Hrep as (Hroot & Hrep & _). rewrite Hroot. intros n. split.
  - apply (in_subtree_ptrs _ _ _ _ Hrep).
  - apply (ptrs_in_subtree _ _ _ _ Hrep).
Qed.

(** On an ordered tree the comparator never reports the key of a node LESS
    than the key of a node that comes before it in the in-order sequence. *)
Lemma ordered_inorder_sorted self tr :
  ordered self tr → strict_weak_order (cmp_fn self) →
  StronglySorted (λ x y, node_less self y x = false) (ptrs tr).
Proof.
  intros Hord Hswo. induction tr as [|l IHl p r IHr]; [constructor|].
  destruct Hord as (Hl & Hr & Hol & Hor). cbn [ptrs].
  rewrite StronglySorted_app, StronglySorted_cons, Forall_forall.
  split_and!; auto.
  intros x1 x2 Hx1 [->|Hx2]%elem_of_cons.
  - by apply node_less_asym, Hl.
  - destruct (node_less self x2 x1) eqn:Hlt; [|done].
    rewrite <- (Hr x2 Hx2). symmetry.
    eapply node_less_trans; [done..|]. by apply Hl.
Qed.

Lemma StronglySorted_Forall2 {A B} (P : A → B → Prop) (R : relation B)
    (R' : relation A) l k :
  Forall2 P l k → StronglySorted R k →
  (∀ a b x y, P a x → P b y → R x y → R' a b) →
  StronglySorted R' l.
Proof.
  intros Hall Hsorted Himpl.
  induction Hall as [|a x l k Hax Hall IH]; [constructor|].
  apply StronglySorted_cons in Hsorted as [Hx Hsorted].
  apply StronglySorted_cons. split; [|by apply IH].
  clear IH Hsorted. induction Hall as [|b y l k Hby Hall IH];
    [constructor|].
  apply Forall_cons in Hx as [Hxy Hx]. constructor; eauto.
Qed.

(** X21: on an ordered tree, with a comparator whose verdict LESS is a
    strict weak order, [inorder_walk] from the root passes the keys to the
    callback in sorted order: one call per node, and the comparator never
    reports a key LESS than a key passed before it. *)
Theorem bst_inorder_walk_sorted {Callback} (print : Callback) fuel self tr :
  represents self tr → ordered self tr → strict_weak_order (cmp_fn self) →
  size tr ≤ fuel →
  ∃ calls,
    inorder_walk print fuel self (root self) print = Ok calls ∧
    length calls = size tr ∧
    StronglySorted (λ c1 c2, cmp_fn self c2.2 c1.2 ≠ CMPValues.LESS) calls.
Proof.
  intros (Hroot & Hrep & _) Hord Hswo Hfuel.
  destruct (inorder_walk_rep print self None tr fuel Hrep Hfuel)
    as (calls & Hwalk & Hcalls).
  exists calls. rewrite Hroot. split_and!; try done.
  - rewrite <- length_ptrs. by eapply Forall2_length.
  - eapply StronglySorted_Forall2;
      [done|by apply ordered_inorder_sorted|].
    intros c1 c2 x y [_ Hx] [_ Hy]. unfold node_less.
    destruct (nodes self !! x) as [nx|]; [|done].
    destruct (nodes self !! y) as [ny|]; [|done].
    simpl in Hx, Hy. injection Hx as ->. injection Hy as ->.
    by intros ?%Z.eqb_neq.
Qed.

Lemma recursive_search_in_subtree fuel self k o p :
  recursive_search fuel self o k = Ok (Some p) → in_subtree self o p.
Proof.
  revert o. induction fuel as [|fuel IH]; intros [r|]; simpl; try done.
  destruct (nodes self !! r) as [n|] eqn:Hn; [|done].
  destruct (_ =? CMPValues.EQUAL)%Z; [intros [= <-]; constructor|].
  destruct (_ =? CMPValues.GREATER)%Z; intros Hin%IH.
  - by eapply in_subtree_right.
  - by eapply in_subtree_left.
Qed.

(** X22: once [delete_node] has removed a node from a tree, no [search],
    in either mode and for whatever key, returns that node. *)
Theorem bst_deleted_node_not_found fuel self tr n :
  represents self tr → n ∈ ptrs tr → size tr ≤ fuel →
  ∃ self',
    delete_node fuel self (Some n) = Ok self' ∧
    ∀ fuel' k mode p, search fuel' self' k mode = Ok (Some p) → p ≠ n.
Proof.
  intros Hrep Hn Hfuel.
  destruct (delete_node_represents fuel self tr n Hrep Hn Hfuel)
    as (self' & Hdel & (Hroot' & Hrep' & _) & _).
  exists self'. split; [done|]. intros fuel' k mode p Hsearch.
  assert (in_subtree self' (root self') p) as Hin.
  { unfold search in Hsearch. destruct (negb _); [done|].
    destruct (py_eq_str mode "i").
    - by apply iterative_search_loop_sound in Hsearch as [? _].
    - destruct (py_eq_str mode "r"); [|done].
      by apply recursive_search_in_subtree in Hsearch. }
  rewrite Hroot' in Hin. apply (in_subtree_ptrs _ _ _ _ Hrep') in Hin.
  rewrite ptrs_tree_delete_filter in Hin by (by destruct Hrep as (_ & _ & ?)).
  by apply list_elem_of_filter in Hin as [? _].
Qed.

Lemma tree_delete_insert go_left new tr :
  new ∉ ptrs tr → tree_delete new (tree_insert go_left new tr) = tr.
Proof.
  induction tr as [|l IHl p r IHr]; intros Hnew.
  - cbn. by rewrite decide_True.
  - assert (p ≠ new) by (intros ->; apply Hnew, elem_of_ptrs_root).
    assert (new ∉ ptrs l) by (intros ?; by apply Hnew, elem_of_ptrs_l).
    assert (new ∉ ptrs r) by (intros ?; by apply Hnew, elem_of_ptrs_r).
    cbn [tree_insert]. destruct (go_left p); cbn [tree_delete];
      rewrite decide_False by done.
    + by rewrite IHl, tree_delete_notin.
    + by rewrite IHr, tree_delete_notin.
Qed.

(** Two stores that hold the same tree with the same keys hold the same
    nodes in it. *)
Lemma rep_same_nodes h h' par tr :
  rep h par tr → rep h' par tr →
  (∀ p, p ∈ ptrs tr → key <$> h' !! p = key <$> h !! p) →
  ∀ p, p ∈ ptrs tr → h' !! p = h !! p.
Proof.
  revert par. induction tr as [|l IHl q r IHr]; intros par.
  - intros _ _ _ p Hp. by apply elem_of_nil in Hp.
  - intros (n & Hn & Hpar & Hl & Hr & Hrl & Hrr)
      (n' & Hn' & Hpar' & Hl' & Hr' & Hrl' & Hrr') Hkeys p.
    intros [Hp|[->|Hp]]%elem_of_ptrs_Br.
    + eapply IHl; eauto using elem_of_ptrs_l.
    + specialize (Hkeys q (elem_of_ptrs_root l q r)).
      rewrite Hn, Hn' in Hkeys |- *. simpl in Hkeys. injection Hkeys as Hkey.
      destruct n, n'; simpl in *. congruence.
    + eapply IHr; eauto using elem_of_ptrs_r.
Qed.

(** X23: an insertion followed by the deletion of the node it returned
    gives the tree back: [root], the comparator and every node of the tree,
    with its key, parent and children, are as they were before. *)
Theorem bst_insert_delete_round_trip fuel self tr new_key (mode : string) :
  represents self tr → size tr < fuel → mode = "i" ∨ mode = "r" →
  ∃ new self1 self2,
    insert_node fuel self new_key (PyStr mode) = (Ok new, self1) ∧
    delete_node fuel self1 (Some new) = Ok self2 ∧
    represents self2 tr ∧ root self2 = root self ∧
    cmp_fn self2 = cmp_fn self ∧
    ∀ p, p ∈ ptrs tr → nodes self2 !! p = nodes self !! p.
Proof.
  intros Hrep Hfuel Hmode.
  destruct (insert_node_represents fuel self new_key tr Hrep ltac:(lia))
    as (self1 & Hins & Hrep1 & Hcmp1 & Hkeys1 & _).
  set (new := length (nodes self)) in *.
  pose proof Hrep as (Hroot & Hr & _).
  assert (Hfresh : new ∉ ptrs tr).
  { intros Hin%(rep_valid _ _ _ _ Hr). unfold new in Hin. lia. }
  destruct (delete_node_represents fuel self1 _ new Hrep1)
    as (self2 & Hdel & Hrep2 & Hcmp2 & _).
  { destruct (ptrs_tree_insert_split (less self new_key) new tr)
      as (l1 & l2 & _ & ->). apply elem_of_app. right. by left. }
  { rewrite size_tree_insert. lia. }
  rewrite tree_delete_insert in Hrep2 by done.
  pose proof Hrep2 as (Hroot2 & Hr2 & _).
  exists new, self1, self2. split_and!; try done; try congruence.
  - destruct Hmode as [->| ->]; [done|]. by rewrite insert_node_modes_equal.
  - apply (rep_same_nodes _ _ None tr); try done. intros p Hp.
    destruct (delete_node_same_keys _ _ _ _ Hdel) as (_ & _ & Hkeys2).
    rewrite Hkeys2. apply Hkeys1. by eapply rep_valid.
Qed.

(** X24: in every state, well-formed or not, and with any fuel, the
    recursive mode of [insert_node] returns what the iterative mode returns
    and leaves the same state, whether the call succeeds or raises. *)
Theorem bst_insert_modes_agree_in_every_state fuel self new_key :
  insert_node fuel self new_key (PyStr "r")
  = insert_node fuel self new_key (PyStr "i").
Proof. apply insert_node_modes_equal. Qed.

End BST_order.

(** ** The scenarios *)

Lemma bst_5_3_8_represents : BST.represents bst_5_3_8 tree_5_3_8.
Proof.
  unfold BST.represents, bst_5_3_8, tree_5_3_8; simpl. split_and!.
  - reflexivity.
  - eexists. split_and!; try reflexivity; eexists; split_and!;
      try reflexivity; done.
  - apply (bool_decide_unpack _). vm_compute. exact I.
Qed.

(** C1: in the tree with root 5 and right child 8, built by [insert_node],
    the iterative search for 8 returns the node with key 8 and the recursive
    search for 8 returns [None]: the recursive search compares [root.key]
    with itself and so never turns right. *)
Theorem bst_recursive_search_misses_right_subtree :
  bst_of_keys [5; 8]%Z = Ok bst_5_8 ∧
  BST.search 2 bst_5_8 8%Z (PyStr "i") = Ok (Some 1) ∧
  BST.key_of bst_5_8 (Some 1) = Some 8%Z ∧
  BST.search 2 bst_5_8 8%Z (PyStr "r") = Ok None.
Proof. split_and!; reflexivity. Qed.

(** C2: on the tree with root 5 and children 3 and 8, each walk started at
    the root with the callback [collect] calls [collect] for the root only;
    the two children are visited with the default callback [print], which
    the recursive calls fall back to. *)
Theorem bst_walks_call_print_below_start :
  BST.inorder_walk "print" 3 bst_5_3_8 (Some 0) "collect"
    = Ok [("print", 3%Z); ("collect", 5%Z); ("print", 8%Z)] ∧
  BST.preorder_walk "print" 3 bst_5_3_8 (Some 0) "collect"
    = Ok [("collect", 5%Z); ("print", 3%Z); ("print", 8%Z)] ∧
  BST.postorder_walk "print" 3 bst_5_3_8 (Some 0) "collect"
    = Ok [("print", 3%Z); ("print", 8%Z); ("collect", 5%Z)].
Proof. split_and!; reflexivity. Qed.

(** ** The [mode] argument *)

Lemma py_eq_str_ne (m s : string) : m ≠ s → py_eq_str (PyStr m) s = false.
Proof. intros Hne. simpl. by apply bool_decide_eq_false_2. Qed.

Lemma alloc_same_structure {K} (self : BST.t K) (k : K) :
  BST.same_structure self (BST.alloc self k).2.
Proof.
  unfold BST.same_structure, BST.alloc; simpl. split_and!; try done.
  intros p Hp. by apply lookup_app_l.
Qed.

(** C8: with a [mode] string other than 'i' and 'r', [insert_node] and both
    [search] methods raise [ValueError]; with a [mode] that is not a string
    they raise [TypeError], a different exception.  After either failure of
    [insert_node] the root, the comparator and every node of the tree are as
    they were before the call. *)
Theorem invalid_mode_raises_value_error {K1 K2 : Type} fuel
    (b : BST.t K1) (d : DLLS.t K2) (k1 : K1) (k2 : K2) (m : string) :
  m ≠ "i" → m ≠ "r" →
  (∃ b', BST.insert_node fuel b k1 (PyStr m) = (Raise ValueError, b') ∧
         BST.same_structure b b') ∧
  BST.search fuel b k1 (PyStr m) = Raise ValueError ∧
  DLLS.search fuel d k2 (PyStr m) = Raise ValueError ∧
  (∀ v, isinstance_str v = false →
     (∃ b', BST.insert_node fuel b k1 v = (Raise TypeError, b') ∧
            BST.same_structure b b') ∧
     BST.search fuel b k1 v = Raise TypeError ∧
     DLLS.search fuel d k2 v = Raise TypeError) ∧
  ValueError ≠ TypeError.
Proof.
  intros Hi Hr. split_and!.
  - exists (BST.alloc b k1).2. split; [|apply alloc_same_structure].
    unfold BST.insert_node, BST.alloc.
    by rewrite (py_eq_str_ne m "i"), (py_eq_str_ne m "r") by done.
  - unfold BST.search.
    by rewrite (py_eq_str_ne m "i"), (py_eq_str_ne m "r") by done.
  - unfold DLLS.search.
    by rewrite (py_eq_str_ne m "i"), (py_eq_str_ne m "r") by done.
  - intros v Hv. split_and!.
    + exists (BST.alloc b k1).2. split; [|apply alloc_same_structure].
      unfold BST.insert_node, BST.alloc. by rewrite Hv.
    + unfold BST.search. by rewrite Hv.
    + unfold DLLS.search. by rewrite Hv.
  - discriminate.
Qed.

Lemma invalid_mode_raises_value_error_witness :
  "x" ≠ "i" ∧ "x" ≠ "r" ∧
  (∃ b', BST.insert_node 3 bst_5_3_8 4%Z (PyStr "x") = (Raise ValueError, b') ∧
         BST.same_structure bst_5_3_8 b') ∧
  BST.search 3 bst_5_3_8 4%Z (PyStr "x") = Raise ValueError ∧
  DLLS.search 3 stack_123 4%Z (PyStr "x") = Raise ValueError ∧
  (∀ v, isinstance_str v = false →
     (∃ b', BST.insert_node 3 bst_5_3_8 4%Z v = (Raise TypeError, b') ∧
            BST.same_structure bst_5_3_8 b') ∧
     BST.search 3 bst_5_3_8 4%Z v = Raise TypeError ∧
     DLLS.search 3 stack_123 4%Z v = Raise TypeError) ∧
  ValueError ≠ TypeError.
Proof.
  assert (H1 : "x" ≠ "i") by discriminate.
  assert (H2 : "x" ≠ "r") by discriminate.
  split; [exact H1|]. split; [exact H2|].
  exact (invalid_mode_raises_value_error 3 bst_5_3_8 stack_123 4%Z 4%Z "x"
           H1 H2).
Defined.

Lemma bst_insert_modes_same_tree_witness :
  length [5; 3; 8]%Z ≤ 3 ∧
  ∃ self tr,
    BST.insert_all 3 (PyStr "i") (BST.init numeric_cmp) [5; 3; 8]%Z = Ok self ∧
    BST.insert_all 3 (PyStr "r") (BST.init numeric_cmp) [5; 3; 8]%Z = Ok self ∧
    BST.represents self tr ∧ BST.size tr = length [5; 3; 8]%Z.
Proof.
  assert (H : length [5; 3; 8]%Z ≤ 3) by (simpl; lia).
  split; [exact H|].
  exact (bst_insert_modes_same_tree numeric_cmp [5; 3; 8]%Z 3 H).
Defined.

Lemma bst_insert_descent_witness :
  BST.represents bst_5_3_8 tree_5_3_8 ∧ BST.size tree_5_3_8 ≤ 3 ∧
  ∃ new self',
    BST.insert_node 3 bst_5_3_8 5%Z (PyStr "r") = (Ok new, self') ∧
    BST.key_of self' (Some new) = Some 5%Z ∧
    BST.in_subtree self' (BST.root self') new ∧
    BST.descent_rule self' 5%Z new.
Proof.
  assert (H : BST.size tree_5_3_8 ≤ 3) by (simpl; lia).
  split; [exact bst_5_3_8_represents|]. split; [exact H|].
  exact (bst_insert_descent 3 bst_5_3_8 tree_5_3_8 5%Z "r"
           bst_5_3_8_represents H (or_intror eq_refl)).
Defined.

Lemma bst_predecessor_of_successor_witness :
  BST.represents bst_5_3_8 tree_5_3_8 ∧ BST.size tree_5_3_8 ≤ 3 ∧
  BST.in_subtree bst_5_3_8 (BST.root bst_5_3_8) 1 ∧
  ∃ o, BST.successor_node 3 bst_5_3_8 (Some 1) = Ok o ∧
       ∀ s, o = Some s →
            BST.predecessor_node 3 bst_5_3_8 (Some s) = Ok (Some 1).
Proof.
  assert (H : BST.size tree_5_3_8 ≤ 3) by (simpl; lia).
  assert (Hin : BST.in_subtree bst_5_3_8 (BST.root bst_5_3_8) 1).
  { eapply BST.in_subtree_left; [reflexivity|]. apply BST.in_subtree_here. }
  split; [exact bst_5_3_8_represents|]. split; [exact H|].
  split; [exact Hin|].
  exact (bst_predecessor_of_successor bst_5_3_8 tree_5_3_8 3 1
           bst_5_3_8_represents H Hin).
Defined.

Example bst_successor_of_3 :
  BST.successor_node 3 bst_5_3_8 (Some 1) = Ok (Some 0) ∧
  BST.predecessor_node 3 bst_5_3_8 (Some 0) = Ok (Some 1).
Proof. split; reflexivity. Qed.

Example bst_delete_root_scenario :
  ∃ b b',
    bst_of_keys [5; 3; 8; 1; 4; 7; 9]%Z = Ok b ∧
    BST.delete_node 7 b (Some 0) = Ok b' ∧
    BST.root b' = Some 5 ∧ BST.key_of b' (Some 5) = Some 7%Z ∧
    BST.inorder_walk "print" 7 b' (BST.root b') "print"
      = Ok [("print", 1%Z); ("print", 3%Z); ("print", 4%Z); ("print", 7%Z);
            ("print", 8%Z); ("print", 9%Z)] ∧
    BST.successor_node 7 b' (Some 4) = Ok (Some 5).
Proof. do 2 eexists. split_and!; reflexivity. Qed.

(** ** The scenarios, once more *)

Lemma stack_123_represents : DLLS.represents stack_123 [0; 1; 2].
Proof.
  unfold DLLS.represents. split_and!.
  - reflexivity.
  - reflexivity.
  - cbn [DLLS.dseg].
    repeat (eexists; split; [reflexivity|];
            split; [reflexivity|]; split; [reflexivity|]).
    exact I.
  - apply (bool_decide_unpack _). vm_compute. exact I.
Qed.

Lemma numeric_cmp_less a b : numeric_cmp a b = (-1)%Z ↔ (a < b)%Z.
Proof.
  unfold numeric_cmp.
  destruct (Z.ltb_spec a b), (Z.eqb_spec a b); split; (lia || done).
Qed.

Lemma numeric_cmp_strict_weak_order : BST.strict_weak_order numeric_cmp.
Proof.
  unfold BST.strict_weak_order, BST.CMPValues.LESS.
  split_and!; intros *; rewrite !numeric_cmp_less; lia.
Qed.

Lemma numeric_cmp_refl a : numeric_cmp a a = 0%Z.
Proof. unfold numeric_cmp. by rewrite Z.ltb_irrefl, Z.eqb_refl. Qed.

Lemma bst_5_3_8_ordered : BST.ordered bst_5_3_8 tree_5_3_8.
Proof.
  cbn [BST.ordered tree_5_3_8 BST.ptrs app].
  split_and!; try done; intros x Hx;
    repeat (apply elem_of_cons in Hx as [->|Hx]; [reflexivity|]);
    by apply elem_of_nil in Hx.
Qed.

Lemma bst_5_3_8_reachable : BST.reachable bst_5_3_8.
Proof.
  pose (s0 := BST.init numeric_cmp).
  pose (s1 := (BST.insert_node 3 s0 5%Z (PyStr "i")).2).
  pose (s2 := (BST.insert_node 3 s1 3%Z (PyStr "r")).2).
  apply (BST.reachable_insert 3 s2 8%Z (PyStr "i") 2); [|reflexivity].
  apply (BST.reachable_insert 3 s1 3%Z (PyStr "r") 1); [|reflexivity].
  apply (BST.reachable_insert 3 s0 5%Z (PyStr "i") 0); [|reflexivity].
  apply BST.reachable_init.
Qed.

Lemma dlls_push_appends_node_witness :
  DLLS.represents stack_123 [0; 1; 2] ∧
  ∃ new,
    (DLLS.push stack_123 4%Z).1 = Some new ∧ (new ∉ [0; 1; 2]) ∧
    DLLS.represents (DLLS.push stack_123 4%Z).2 ([0; 1; 2] ++ [new]) ∧
    DLLS.key_of (DLLS.push stack_123 4%Z).2 (Some new) = Some 4%Z ∧
    (∀ p, p ∈ [0; 1; 2] →
          DLLS.key_of (DLLS.push stack_123 4%Z).2 (Some p)
          = DLLS.key_of stack_123 (Some p)) ∧
    DLLS.cmp_fn (DLLS.push stack_123 4%Z).2 = DLLS.cmp_fn stack_123 ∧
    DLLS.is_empty (DLLS.push stack_123 4%Z).2 = false.
Proof.
  split; [exact stack_123_represents|].
  exact (dlls_push_appends_node stack_123 4%Z [0; 1; 2] stack_123_represents).
Defined.

Lemma dlls_pop_unlinks_tail_witness :
  DLLS.represents stack_123 [0; 1; 2] ∧
  (DLLS.pop stack_123).1 = Ok (last (removelast [0; 1; 2])) ∧
  DLLS.represents (DLLS.pop stack_123).2 (removelast [0; 1; 2]) ∧
  (∀ o, DLLS.key_of (DLLS.pop stack_123).2 o = DLLS.key_of stack_123 o) ∧
  DLLS.cmp_fn (DLLS.pop stack_123).2 = DLLS.cmp_fn stack_123 ∧
  (DLLS.is_empty stack_123 = true → (DLLS.pop stack_123).2 = stack_123).
Proof.
  split; [exact stack_123_represents|].
  exact (dlls_pop_unlinks_tail stack_123 [0; 1; 2] stack_123_represents).
Defined.

Lemma dlls_push_pop_round_trip_witness :
  DLLS.represents stack_123 [0; 1; 2] ∧
  let self' := (DLLS.pop (DLLS.push stack_123 4%Z).2).2 in
  (DLLS.pop (DLLS.push stack_123 4%Z).2).1 = Ok (DLLS.tail stack_123) ∧
  DLLS.represents self' [0; 1; 2] ∧
  DLLS.head self' = DLLS.head stack_123 ∧
  DLLS.tail self' = DLLS.tail stack_123 ∧
  ∀ p, p ∈ [0; 1; 2] → DLLS.nodes self' !! p = DLLS.nodes stack_123 !! p.
Proof.
  split; [exact stack_123_represents|].
  exact (dlls_push_pop_round_trip stack_123 4%Z [0; 1; 2]
           stack_123_represents).
Defined.

Lemma dlls_pops_undo_pushes_witness :
  DLLS.represents (DLLS.init numeric_cmp) [] ∧
  DLLS.pop_keys (length [1; 2; 3]%Z)
    (DLLS.push_all (DLLS.init numeric_cmp) [1; 2; 3]%Z)
  = List.tail (((λ k, Ok (Some k)) <$> reverse [1; 2; 3]%Z)
               ++ [Ok (DLLS.key_of (DLLS.init numeric_cmp)
                         (DLLS.tail (DLLS.init numeric_cmp)))]) ∧
  DLLS.represents
    (DLLS.pop_all (length [1; 2; 3]%Z)
       (DLLS.push_all (DLLS.init numeric_cmp) [1; 2; 3]%Z)) [] ∧
  DLLS.head
    (DLLS.pop_all (length [1; 2; 3]%Z)
       (DLLS.push_all (DLLS.init numeric_cmp) [1; 2; 3]%Z))
  = DLLS.head (DLLS.init numeric_cmp) ∧
  DLLS.tail
    (DLLS.pop_all (length [1; 2; 3]%Z)
       (DLLS.push_all (DLLS.init numeric_cmp) [1; 2; 3]%Z))
  = DLLS.tail (DLLS.init numeric_cmp) ∧
  DLLS.is_empty
    (DLLS.pop_all (length [1; 2; 3]%Z)
       (DLLS.push_all (DLLS.init numeric_cmp) [1; 2; 3]%Z))
  = DLLS.is_empty (DLLS.init numeric_cmp).
Proof.
  split; [exact (dlls_init_represents numeric_cmp)|].
  exact (dlls_pops_undo_pushes (DLLS.init numeric_cmp) [] [1; 2; 3]%Z
           (dlls_init_represents numeric_cmp)).
Defined.

Lemma dlls_search_finds_pushed_key_witness :
  DLLS.represents stack_123 [0; 1; 2] ∧ length [0; 1; 2] < 4 ∧
  DLLS.cmp_fn stack_123 7%Z 7%Z = DLLS.CMPValues.EQUAL ∧
  ∃ p n,
    DLLS.search 4 (DLLS.push stack_123 7%Z).2 7%Z (PyStr "r")
      = Ok (Some p) ∧
    (p ∈ [0; 1; 2] ∨ (DLLS.push stack_123 7%Z).1 = Some p) ∧
    DLLS.nodes (DLLS.push stack_123 7%Z).2 !! p = Some n ∧
    DLLS.cmp_fn stack_123 (DLLS.key n) 7%Z = DLLS.CMPValues.EQUAL.
Proof.
  assert (H : length [0; 1; 2] < 4) by (simpl; lia).
  split; [exact stack_123_represents|]. split; [exact H|].
  split; [reflexivity|].
  exact (dlls_search_finds_pushed_key 4 stack_123 [0; 1; 2] 7%Z 7%Z "r"
           stack_123_represents H (or_intror eq_refl) eq_refl).
Defined.

Lemma bst_insert_adds_one_node_witness :
  BST.represents bst_5_3_8 tree_5_3_8 ∧ BST.size tree_5_3_8 ≤ 3 ∧
  ∃ new self' tr' l1 l2,
    BST.insert_node 3 bst_5_3_8 4%Z (PyStr "r") = (Ok new, self') ∧
    BST.represents self' tr' ∧
    (new ∉ BST.ptrs tree_5_3_8) ∧ BST.ptrs tree_5_3_8 = l1 ++ l2 ∧
    BST.ptrs tr' = l1 ++ new :: l2 ∧
    BST.key_of self' (Some new) = Some 4%Z ∧
    (∀ p, p ∈ BST.ptrs tree_5_3_8 →
          BST.key_of self' (Some p) = BST.key_of bst_5_3_8 (Some p)) ∧
    BST.cmp_fn self' = BST.cmp_fn bst_5_3_8.
Proof.
  assert (H : BST.size tree_5_3_8 ≤ 3) by (simpl; lia).
  split; [exact bst_5_3_8_represents|]. split; [exact H|].
  exact (bst_insert_adds_one_node 3 bst_5_3_8 tree_5_3_8 4%Z "r"
           bst_5_3_8_represents H (or_intror eq_refl)).
Defined.

Lemma bst_insert_keeps_order_witness :
  BST.represents bst_5_3_8 tree_5_3_8 ∧ BST.ordered bst_5_3_8 tree_5_3_8 ∧
  BST.size tree_5_3_8 ≤ 3 ∧
  ∃ new self' tr',
    BST.insert_node 3 bst_5_3_8 4%Z (PyStr "i") = (Ok new, self') ∧
    BST.represents self' tr' ∧ BST.ordered self' tr'.
Proof.
  assert (H : BST.size tree_5_3_8 ≤ 3) by (simpl; lia).
  split; [exact bst_5_3_8_represents|]. split; [exact bst_5_3_8_ordered|].
  split; [exact H|].
  exact (bst_insert_keeps_order 3 bst_5_3_8 tree_5_3_8 4%Z "i"
           bst_5_3_8_represents bst_5_3_8_ordered H (or_introl eq_refl)).
Defined.

Lemma bst_search_finds_inserted_key_witness :
  BST.represents bst_5_3_8 tree_5_3_8 ∧ BST.ordered bst_5_3_8 tree_5_3_8 ∧
  BST.size tree_5_3_8 < 4 ∧
  BST.cmp_fn bst_5_3_8 4%Z 4%Z = BST.CMPValues.EQUAL ∧
  ∃ new self' p n,
    BST.insert_node 4 bst_5_3_8 4%Z (PyStr "r") = (Ok new, self') ∧
    BST.search 4 self' 4%Z (PyStr "i") = Ok (Some p) ∧
    BST.nodes self' !! p = Some n ∧
    BST.cmp_fn bst_5_3_8 4%Z (BST.key n) ≠ BST.CMPValues.LESS ∧
    BST.cmp_fn bst_5_3_8 4%Z (BST.key n) ≠ BST.CMPValues.GREATER.
Proof.
  assert (H : BST.size tree_5_3_8 < 4) by (simpl; lia).
  split; [exact bst_5_3_8_represents|]. split; [exact bst_5_3_8_ordered|].
  split; [exact H|]. split; [reflexivity|].
  exact (bst_search_finds_inserted_key 4 bst_5_3_8 tree_5_3_8 4%Z "r"
           bst_5_3_8_represents bst_5_3_8_ordered H (or_intror eq_refl)
           eq_refl).
Defined.

Lemma bst_iterative_search_sound_witness :
  BST.search 2 bst_5_8 8%Z (PyStr "i") = Ok (Some 1) ∧
  BST.in_subtree bst_5_8 (BST.root bst_5_8) 1 ∧
  ∃ n, BST.nodes bst_5_8 !! 1 = Some n ∧
       BST.cmp_fn bst_5_8 8%Z (BST.key n) ≠ BST.CMPValues.LESS ∧
       BST.cmp_fn bst_5_8 8%Z (BST.key n) ≠ BST.CMPValues.GREATER.
Proof.
  split; [reflexivity|].
  exact (bst_iterative_search_sound 2 bst_5_8 8%Z 1 eq_refl).
Defined.

Lemma bst_iterative_search_complete_witness :
  BST.represents bst_5_3_8 tree_5_3_8 ∧ BST.ordered bst_5_3_8 tree_5_3_8 ∧
  2 ∈ BST.ptrs tree_5_3_8 ∧ BST.key_of bst_5_3_8 (Some 2) = Some 8%Z ∧
  BST.cmp_fn bst_5_3_8 8%Z 8%Z = BST.CMPValues.EQUAL ∧
  BST.size tree_5_3_8 ≤ 3 ∧
  ∃ p n,
    BST.search 3 bst_5_3_8 8%Z (PyStr "i") = Ok (Some p) ∧
    p ∈ BST.ptrs tree_5_3_8 ∧
    BST.nodes bst_5_3_8 !! p = Some n ∧
    BST.cmp_fn bst_5_3_8 8%Z (BST.key n) ≠ BST.CMPValues.LESS ∧
    BST.cmp_fn bst_5_3_8 8%Z (BST.key n) ≠ BST.CMPValues.GREATER.
Proof.
  assert (H : BST.size tree_5_3_8 ≤ 3) by (simpl; lia).
  assert (Hin : 2 ∈ BST.ptrs tree_5_3_8)
    by (apply (bool_decide_unpack _); vm_compute; exact I).
  split; [exact bst_5_3_8_represents|]. split; [exact bst_5_3_8_ordered|].
  split; [exact Hin|]. split; [reflexivity|]. split; [reflexivity|].
  split; [exact H|].
  exact (bst_iterative_search_complete 3 bst_5_3_8 tree_5_3_8 2 8%Z
           bst_5_3_8_represents bst_5_3_8_ordered Hin eq_refl eq_refl H).
Defined.

Lemma bst_recursive_search_left_spine_only_witness :
  (∀ a, BST.cmp_fn bst_5_3_8 a a ≠ BST.CMPValues.GREATER) ∧
  BST.search 3 bst_5_3_8 3%Z (PyStr "r") = Ok (Some 1) ∧
  BST.on_left_spine bst_5_3_8 (BST.root bst_5_3_8) 1 ∧
  ∃ n, BST.nodes bst_5_3_8 !! 1 = Some n ∧
       BST.cmp_fn bst_5_3_8 (BST.key n) 3%Z = BST.CMPValues.EQUAL.
Proof.
  assert (H : ∀ a, BST.cmp_fn bst_5_3_8 a a ≠ BST.CMPValues.GREATER).
  { intros a. simpl. rewrite numeric_cmp_refl. discriminate. }
  split; [exact H|]. split; [reflexivity|].
  exact (bst_recursive_search_left_spine_only 3 bst_5_3_8 3%Z 1 H eq_refl).
Defined.

Lemma bst_delete_removes_node_witness :
  BST.represents bst_5_3_8 tree_5_3_8 ∧ 0 ∈ BST.ptrs tree_5_3_8 ∧
  BST.size tree_5_3_8 ≤ 3 ∧
  ∃ self' tr',
    BST.delete_node 3 bst_5_3_8 (Some 0) = Ok self' ∧
    BST.represents self' tr' ∧
    BST.ptrs tr' = filter (λ x, x ≠ 0) (BST.ptrs tree_5_3_8) ∧
    BST.same_keys bst_5_3_8 self'.
Proof.
  assert (H : BST.size tree_5_3_8 ≤ 3) by (simpl; lia).
  assert (Hin : 0 ∈ BST.ptrs tree_5_3_8)
    by (apply (bool_decide_unpack _); vm_compute; exact I).
  split; [exact bst_5_3_8_represents|]. split; [exact Hin|].
  split; [exact H|].
  exact (bst_delete_removes_node 3 bst_5_3_8 tree_5_3_8 0
           bst_5_3_8_represents Hin H).
Defined.

Lemma bst_delete_keeps_order_witness :
  BST.represents bst_5_3_8 tree_5_3_8 ∧ BST.ordered bst_5_3_8 tree_5_3_8 ∧
  BST.strict_weak_order (BST.cmp_fn bst_5_3_8) ∧
  0 ∈ BST.ptrs tree_5_3_8 ∧ BST.size tree_5_3_8 ≤ 3 ∧
  ∃ self' tr',
    BST.delete_node 3 bst_5_3_8 (Some 0) = Ok self' ∧
    BST.represents self' tr' ∧ BST.ordered self' tr'.
Proof.
  assert (H : BST.size tree_5_3_8 ≤ 3) by (simpl; lia).
  assert (Hin : 0 ∈ BST.ptrs tree_5_3_8)
    by (apply (bool_decide_unpack _); vm_compute; exact I).
  split; [exact bst_5_3_8_represents|]. split; [exact bst_5_3_8_ordered|].
  split; [exact numeric_cmp_strict_weak_order|]. split; [exact Hin|].
  split; [exact H|].
  exact (bst_delete_keeps_order 3 bst_5_3_8 tree_5_3_8 0
           bst_5_3_8_represents bst_5_3_8_ordered
           numeric_cmp_strict_weak_order Hin H).
Defined.

Lemma bst_delete_all_empties_tree_witness :
  BST.represents bst_5_3_8 tree_5_3_8 ∧ [0; 1; 2] ≡ₚ BST.ptrs tree_5_3_8 ∧
  BST.size tree_5_3_8 ≤ 3 ∧
  ∃ self', BST.delete_all 3 bst_5_3_8 [0; 1; 2] = Ok self' ∧
           BST.root self' = None ∧ BST.same_keys bst_5_3_8 self'.
Proof.
  assert (H : BST.size tree_5_3_8 ≤ 3) by (simpl; lia).
  assert (Hperm : [0; 1; 2] ≡ₚ BST.ptrs tree_5_3_8)
    by exact (perm_swap 1 0 [2]).
  split; [exact bst_5_3_8_represents|]. split; [exact Hperm|].
  split; [exact H|].
  exact (bst_delete_all_empties_tree 3 bst_5_3_8 tree_5_3_8 [0; 1; 2]
           bst_5_3_8_represents Hperm H).
Defined.

Lemma bst_min_node_first_inorder_witness :
  BST.represents bst_5_3_8 tree_5_3_8 ∧ 0 ∈ BST.ptrs tree_5_3_8 ∧
  BST.size tree_5_3_8 ≤ 3 ∧
  ∃ m mn,
    BST.min_node 3 bst_5_3_8 (Some 0) = Ok m ∧
    head (BST.ptrs (BST.subtree 0 tree_5_3_8)) = Some m ∧
    BST.nodes bst_5_3_8 !! m = Some mn ∧ BST.left_child mn = None.
Proof.
  assert (H : BST.size tree_5_3_8 ≤ 3) by (simpl; lia).
  assert (Hin : 0 ∈ BST.ptrs tree_5_3_8)
    by (apply (bool_decide_unpack _); vm_compute; exact I).
  split; [exact bst_5_3_8_represents|]. split; [exact Hin|].
  split; [exact H|].
  exact (bst_min_node_first_inorder 3 bst_5_3_8 tree_5_3_8 0
           bst_5_3_8_represents Hin H).
Defined.

Lemma bst_max_node_last_inorder_witness :
  BST.represents bst_5_3_8 tree_5_3_8 ∧ 0 ∈ BST.ptrs tree_5_3_8 ∧
  BST.size tree_5_3_8 ≤ 3 ∧
  ∃ m mn,
    BST.max_node 3 bst_5_3_8 (Some 0) = Ok m ∧
    last (BST.ptrs (BST.subtree 0 tree_5_3_8)) = Some m ∧
    BST.nodes bst_5_3_8 !! m = Some mn ∧ BST.right_child mn = None.
Proof.
  assert (H : BST.size tree_5_3_8 ≤ 3) by (simpl; lia).
  assert (Hin : 0 ∈ BST.ptrs tree_5_3_8)
    by (apply (bool_decide_unpack _); vm_compute; exact I).
  split; [exact bst_5_3_8_represents|]. split; [exact Hin|].
  split; [exact H|].
  exact (bst_max_node_last_inorder 3 bst_5_3_8 tree_5_3_8 0
           bst_5_3_8_represents Hin H).
Defined.

Lemma bst_successor_next_inorder_witness :
  BST.represents bst_5_3_8 tree_5_3_8 ∧ BST.size tree_5_3_8 ≤ 3 ∧
  BST.ptrs tree_5_3_8 = [] ++ 1 :: [0; 2] ∧
  BST.successor_node 3 bst_5_3_8 (Some 1) = Ok (head [0; 2]).
Proof.
  assert (H : BST.size tree_5_3_8 ≤ 3) by (simpl; lia).
  split; [exact bst_5_3_8_represents|]. split; [exact H|].
  split; [reflexivity|].
  exact (bst_successor_next_inorder 3 bst_5_3_8 tree_5_3_8 1 [] [0; 2]
           bst_5_3_8_represents H eq_refl).
Defined.

Lemma bst_predecessor_previous_inorder_witness :
  BST.represents bst_5_3_8 tree_5_3_8 ∧ BST.size tree_5_3_8 ≤ 3 ∧
  BST.ptrs tree_5_3_8 = [1] ++ 0 :: [2] ∧
  BST.predecessor_node 3 bst_5_3_8 (Some 0) = Ok (last [1]).
Proof.
  assert (H : BST.size tree_5_3_8 ≤ 3) by (simpl; lia).
  split; [exact bst_5_3_8_represents|]. split; [exact H|].
  split; [reflexivity|].
  exact (bst_predecessor_previous_inorder 3 bst_5_3_8 tree_5_3_8 0 [1] [2]
           bst_5_3_8_represents H eq_refl).
Defined.

Lemma bst_walks_visit_subtree_witness :
  BST.represents bst_5_3_8 tree_5_3_8 ∧ 0 ∈ BST.ptrs tree_5_3_8 ∧
  BST.size tree_5_3_8 ≤ 3 ∧
  ∃ l r k,
    BST.subtree 0 tree_5_3_8 = BST.Br l 0 r ∧
    BST.key_of bst_5_3_8 (Some 0) = Some k ∧
    (∃ cl cr,
       BST.inorder_walk "print" 3 bst_5_3_8 (Some 0) "collect"
         = Ok (cl ++ [("collect", k)] ++ cr) ∧
       Forall2 (BST.default_call "print" bst_5_3_8) cl (BST.ptrs l) ∧
       Forall2 (BST.default_call "print" bst_5_3_8) cr (BST.ptrs r)) ∧
    (∃ cl cr,
       BST.preorder_walk "print" 3 bst_5_3_8 (Some 0) "collect"
         = Ok ([("collect", k)] ++ cl ++ cr) ∧
       Forall2 (BST.default_call "print" bst_5_3_8) cl (BST.preorder l) ∧
       Forall2 (BST.default_call "print" bst_5_3_8) cr (BST.preorder r)) ∧
    (∃ cl cr,
       BST.postorder_walk "print" 3 bst_5_3_8 (Some 0) "collect"
         = Ok (cl ++ cr ++ [("collect", k)]) ∧
       Forall2 (BST.default_call "print" bst_5_3_8) cl (BST.postorder l) ∧
       Forall2 (BST.default_call "print" bst_5_3_8) cr (BST.postorder r)).
Proof.
  assert (H : BST.size tree_5_3_8 ≤ 3) by (simpl; lia).
  assert (Hin : 0 ∈ BST.ptrs tree_5_3_8)
    by (apply (bool_decide_unpack _); vm_compute; exact I).
  split; [exact bst_5_3_8_represents|]. split; [exact Hin|].
  split; [exact H|].
  exact (bst_walks_visit_subtree "print" "collect" 3 bst_5_3_8 tree_5_3_8 0
           bst_5_3_8_represents Hin H).
Defined.

Lemma bst_reachable_well_formed_witness :
  BST.reachable bst_5_3_8 ∧
  ∃ tr, BST.represents bst_5_3_8 tr ∧
        ∀ n, BST.in_subtree bst_5_3_8 (BST.root bst_5_3_8) n ↔ n ∈ BST.ptrs tr.
Proof.
  split; [exact bst_5_3_8_reachable|].
  exact (bst_reachable_well_formed bst_5_3_8 bst_5_3_8_reachable).
Defined.

Lemma bst_inorder_walk_sorted_witness :
  BST.represents bst_5_3_8 tree_5_3_8 ∧ BST.ordered bst_5_3_8 tree_5_3_8 ∧
  BST.strict_weak_order (BST.cmp_fn bst_5_3_8) ∧ BST.size tree_5_3_8 ≤ 3 ∧
  ∃ calls,
    BST.inorder_walk "print" 3 bst_5_3_8 (BST.root bst_5_3_8) "print"
      = Ok calls ∧
    length calls = BST.size tree_5_3_8 ∧
    StronglySorted
      (λ c1 c2, BST.cmp_fn bst_5_3_8 c2.2 c1.2 ≠ BST.CMPValues.LESS) calls.
Proof.
  assert (H : BST.size tree_5_3_8 ≤ 3) by (simpl; lia).
  split; [exact bst_5_3_8_represents|]. split; [exact bst_5_3_8_ordered|].
  split; [exact numeric_cmp_strict_weak_order|]. split; [exact H|].
  exact (bst_inorder_walk_sorted "print" 3 bst_5_3_8 tree_5_3_8
           bst_5_3_8_represents bst_5_3_8_ordered
           numeric_cmp_strict_weak_order H).
Defined.

Lemma bst_deleted_node_not_found_witness :
  BST.represents bst_5_3_8 tree_5_3_8 ∧ 0 ∈ BST.ptrs tree_5_3_8 ∧
  BST.size tree_5_3_8 ≤ 3 ∧
  ∃ self',
    BST.delete_node 3 bst_5_3_8 (Some 0) = Ok self' ∧
    ∀ fuel' k mode p,
      BST.search fuel' self' k mode = Ok (Some p) → p ≠ 0.
Proof.
  assert (H : BST.size tree_5_3_8 ≤ 3) by (simpl; lia).
  assert (Hin : 0 ∈ BST.ptrs tree_5_3_8)
    by (apply (bool_decide_unpack _); vm_compute; exact I).
  split; [exact bst_5_3_8_represents|]. split; [exact Hin|].
  split; [exact H|].
  exact (bst_deleted_node_not_found 3 bst_5_3_8 tree_5_3_8 0
           bst_5_3_8_represents Hin H).
Defined.

Lemma bst_insert_delete_round_trip_witness :
  BST.represents bst_5_3_8 tree_5_3_8 ∧ BST.size tree_5_3_8 < 4 ∧
  ∃ new self1 self2,
    BST.insert_node 4 bst_5_3_8 4%Z (PyStr "r") = (Ok new, self1) ∧
    BST.delete_node 4 self1 (Some new) = Ok self2 ∧
    BST.represents self2 tree_5_3_8 ∧ BST.root self2 = BST.root bst_5_3_8 ∧
    BST.cmp_fn self2 = BST.cmp_fn bst_5_3_8 ∧
    ∀ p, p ∈ BST.ptrs tree_5_3_8 →
         BST.nodes self2 !! p = BST.nodes bst_5_3_8 !! p.
Proof.
  assert (H : BST.size tree_5_3_8 < 4) by (simpl; lia).
  split; [exact bst_5_3_8_represents|]. split; [exact H|].
  exact (bst_insert_delete_round_trip 4 bst_5_3_8 tree_5_3_8 4%Z "r"
           bst_5_3_8_represents H (or_intror eq_refl)).
Defined.
